(** * juju-cmd: the command registry, the super-command and the plugin runner

    A shallow embedding of package [cmd]: the alias-aware [Registry] of
    [Action]s, the [SuperCommand] that resolves and runs a sub-command,
    and the [Plugins] fallback that shells out to external executables.

    Conventions of the embedding.
    - A Go [map[string]T] is a [gmap string T]; a [[]string] that never
      escapes its owner is a [list string] ([nil] and the empty slice are
      both [[]]).
    - A method with a pointer receiver that mutates it takes the receiver's
      value and returns the new one next to the Go result.
    - A Go [error] result is an [option error] ([None] is [nil]).
    - A function that may panic returns a [result]. *)

From stdpp Require Import gmap strings list fin_maps sorting.
From Stdlib Require Import ZArith.

Set Default Proof Using "Type".
Set Warnings "-register-all".

(** ** Errors, panics and the log *)

(** [syscall.WaitStatus] of a terminated child, as the code observes it
    through [Exited] and [ExitStatus]. *)
Inductive WaitStatus : Type :=
| WExited (code : Z)
| WSignaled (signal : Z).

Definition Exited (status : WaitStatus) : bool :=
  match status with WExited _ => true | WSignaled _ => false end.

Definition ExitStatus (status : WaitStatus) : Z :=
  match status with WExited code => code | WSignaled _ => (-1)%Z end.

(** The dynamic types of [error] values the package creates or inspects.
    [Errorf] keeps the format string and its arguments apart, so no
    formatting verb has to be interpreted. *)
Inductive error : Type :=
| ErrSilent
| RcPassthroughError (code : Z)
| UnrecognizedCommand (name : string)
| ExecError (name : string)
| ExitError (status : WaitStatus)
| PathError (op path reason : string)
| Errorf (format : string) (args : list string).

Global Instance error_eq_dec : EqDecision error.
Proof. unfold EqDecision, Decision. repeat decide equality. Defined.

(** Modelled from the spec: [IsRcPassthroughError] and
    [NewRcPassthroughError] live in cmd.go, which is not part of the
    sources; a pass-through error is the one whose sole payload is the
    exit status to propagate. *)
Definition IsRcPassthroughError (err : error) : bool :=
  match err with RcPassthroughError _ => true | _ => false end.

Definition NewRcPassthroughError (code : Z) : error := RcPassthroughError code.

(** What a [panic] carries. *)
Inductive panic : Type :=
| PanicNilDereference
| PanicSliceBounds
| PanicError (err : error)
| PanicMessage (format : string) (args : list string).

Inductive result (A : Type) : Type :=
| Returned (a : A)
| Panicked (p : panic).
Arguments Returned {A} a.
Arguments Panicked {A} p.

Definition returns {A} (r : result A) : bool :=
  match r with Returned _ => true | Panicked _ => false end.

Global Instance result_bind : MBind result := λ A B f r,
  match r with Returned a => f a | Panicked p => Panicked p end.

Inductive LogLevel : Type := LevelInfo | LevelError.

Inductive LogArg : Type :=
| LogString (s : string)
| LogErr (err : error).

(** One call of [logger.Infof] or [logger.Errorf] (or [ctx.Infof]). *)
Record LogEntry : Type := mkLogEntry {
  log_level : LogLevel;
  log_format : string;
  log_args : list LogArg
}.

(** ** Commands, actions and registries *)

(** [Info], with the fields the package reads here. *)
Record Info : Type := mkInfo {
  Info_Name : string;
  Info_Purpose : string;
  Info_Aliases : list string
}.

(** [MissingCallback]: what the callback returns for a sub-command name
    and its arguments (the [Context] only carries the streams). *)
Definition MissingCallback : Type := string → list string → option error.

Record missingCommand : Type := mkMissingCommand {
  missing_Callback : MissingCallback;
  missing_SuperName : string;
  missing_Name : string;
  missing_Args : list string
}.

Record PluginCommand : Type := mkPluginCommand {
  plugin_name : string;
  plugin_args : list string;
  plugin_env : list string
}.

Record ActionOf (C : Type) : Type := mkAction {
  Action_Name : string;
  Action_AliasedName : string;
  Action_Command : option C;
  Action_Aliases : list string;
  Action_Replacement : string
}.
Arguments mkAction {C}.
Arguments Action_Name {C}.
Arguments Action_AliasedName {C}.
Arguments Action_Command {C}.
Arguments Action_Aliases {C}.
Arguments Action_Replacement {C}.

Record RegistryOf (C : Type) : Type := mkRegistry {
  reg_order : list string;
  reg_actions : gmap string (ActionOf C);
  reg_aliases : gmap string string;
  reg_defaultName : string
}.
Arguments mkRegistry {C}.
Arguments reg_order {C}.
Arguments reg_actions {C}.
Arguments reg_aliases {C}.
Arguments reg_defaultName {C}.

(** [SuperCommand], with the fields that the methods embedded here read or
    write.  [subcmds] is a pointer, [None] while it is [nil]; so is the
    call-back. *)
Record SuperCommandOf (C : Type) : Type := mkSuperCommand {
  super_Name : string;
  super_Purpose : string;
  super_Aliases : list string;
  super_subcmds : option (RegistryOf C);
  super_action : ActionOf C;
  super_showHelp : bool;
  super_showDescription : bool;
  super_missingCallback : option MissingCallback
}.
Arguments mkSuperCommand {C}.
Arguments super_Name {C}.
Arguments super_Purpose {C}.
Arguments super_Aliases {C}.
Arguments super_subcmds {C}.
Arguments super_action {C}.
Arguments super_showHelp {C}.
Arguments super_showDescription {C}.
Arguments super_missingCallback {C}.

(** A non-nil [Command] interface value: a pointer to one of the
    implementations.  [ptr] is the address, so two values are the same
    command exactly when they are equal.  [OtherCommand] is any
    implementation outside this package's three, with what its [Info]
    method returns. *)
Inductive Command : Type :=
| OtherCommand (ptr : positive) (info : option Info)
| MissingCommand (ptr : positive) (c : missingCommand)
| PluginCmd (ptr : positive) (c : PluginCommand)
| SuperCmd (ptr : positive) (c : SuperCommandOf Command).

Abbreviation Action := (ActionOf Command).
Abbreviation Registry := (RegistryOf Command).
Abbreviation SuperCommand := (SuperCommandOf Command).

(** The zero [Action]. *)
Definition zeroAction : Action := mkAction "" "" None [] "".

(** [Action.Validate] *)
Definition Validate (a : Action) : option error :=
  if decide (Action_Name a = "") then Some (Errorf "action missing name" [])
  else match Action_Command a with
       | None => Some (Errorf "action missing command" [])
       | Some _ => None
       end.

(** [Action.NewAlias] *)
Definition NewAlias (a : Action) (alias : string) : Action :=
  mkAction alias (Action_Name a) (Action_Command a) [] "".

(** [Registry.lookUp] *)
Definition lookUp (reg : Registry) (name : string) : Action * bool :=
  match reg_actions reg !! name with
  | Some action => (action, true)
  | None =>
      match reg_aliases reg !! name with
      | Some aliased =>
          match reg_actions reg !! aliased with
          | Some action => (NewAlias action name, true)
          | None => (zeroAction, false)
          end
      | None => (zeroAction, false)
      end
  end.

(** The loop of [Registry.LookUp]: [reg] is the registry pointer of the
    current level, [action] the last action resolved. *)
Fixpoint LookUp_loop (reg : option Registry) (action : Action)
    (path : list string) : Action :=
  match path with
  | [] => action
  | name :: rest =>
      match reg with
      | None => action
      | Some r =>
          match lookUp r name with
          | (next, true) =>
              match Action_Command next with
              | Some (SuperCmd _ super) =>
                  LookUp_loop (super_subcmds super) next rest
              | _ => next
              end
          | (_, false) => action
          end
      end
  end.

(** [Registry.LookUp] *)
Definition LookUp (reg : Registry) (path : list string) : Action * bool :=
  match path with
  | [] => lookUp reg (reg_defaultName reg)
  | _ :: _ =>
      let action := LookUp_loop (Some reg) zeroAction path in
      if decide (Action_Name action ≠ "") then (action, true)
      else (action, false)
  end.

(** [removeString]: drops the first occurrence of [target].  The Go code
    shifts the tail in place with [append(items[:i], items[i+1:]...)], or
    re-slices when the hit is the last item; the only slice it is applied
    to is the registry's own [order], which no one else holds. *)
Fixpoint removeString (items : list string) (target : string)
    : list string * bool :=
  match items with
  | [] => ([], false)
  | item :: rest =>
      if decide (item = target) then (rest, true)
      else let '(rest', found) := removeString rest target in
           (item :: rest', found)
  end.

(** [Registry.Names], on values: [make] then [copy]. *)
Definition make_strings (n : nat) : list string := replicate n "".

Definition copy_strings (dst src : list string) : list string :=
  let n := Nat.min (length dst) (length src) in
  take n src ++ drop n dst.

Definition Names (reg : Registry) : list string :=
  copy_strings (make_strings (length (reg_order reg))) (reg_order reg).

(** [Registry.Add] *)
Definition Add (reg : Registry) (action : Action) : Registry * option error :=
  match Validate action with
  | Some err => (reg, Some err)
  | None =>
      if snd (LookUp reg [Action_Name action]) then
        (reg, Some (Errorf "command %q already registered" [Action_Name action]))
      else
        (mkRegistry (reg_order reg ++ [Action_Name action])
                    (<[Action_Name action := action]> (reg_actions reg))
                    (reg_aliases reg)
                    (reg_defaultName reg),
         None)
  end.

(** [Registry.AddAlias] *)
Definition AddAlias (reg : Registry) (name alias : string)
    : Registry * option error :=
  match reg_actions reg !! name with
  | None => (reg, Some (Errorf "action %q not found" [name]))
  | Some _ =>
      if snd (LookUp reg [alias]) then
        (reg, Some (Errorf "action %q already added" [alias]))
      else
        (mkRegistry (reg_order reg ++ [alias])
                    (reg_actions reg)
                    (<[alias := name]> (reg_aliases reg))
                    (reg_defaultName reg),
         None)
  end.

(** [Registry.remove] *)
Definition remove (reg : Registry) (name : string) : Registry * Action :=
  match reg_actions reg !! name with
  | None =>
      match reg_aliases reg !! name with
      | None => (reg, zeroAction)
      | Some _ =>
          (mkRegistry (fst (removeString (reg_order reg) name))
                      (reg_actions reg)
                      (delete name (reg_aliases reg))
                      (reg_defaultName reg),
           zeroAction)
      end
  | Some action =>
      (mkRegistry (fst (removeString (reg_order reg) name))
                  (delete name (reg_actions reg))
                  (reg_aliases reg)
                  (reg_defaultName reg),
       action)
  end.

(** The roll-back of [Registry.AddWithAliases]: the canonical name goes
    first, then the aliases added by this call, oldest first. *)
Definition rollback (reg : Registry) (name : string) (added : list string)
    : Registry :=
  foldl (λ r alias, fst (remove r alias)) (fst (remove reg name)) added.

(** The alias loop of [Registry.AddWithAliases]. *)
Fixpoint AddWithAliases_loop (reg : Registry) (name : string)
    (aliases added : list string) : Registry * option error :=
  match aliases with
  | [] => (reg, None)
  | alias :: rest =>
      match AddAlias reg name alias with
      | (reg', Some err) => (rollback reg' name added, Some err)
      | (reg', None) => AddWithAliases_loop reg' name rest (added ++ [alias])
      end
  end.

(** [Registry.AddWithAliases] *)
Definition AddWithAliases (reg : Registry) (action : Action)
    : Registry * option error :=
  match Add reg action with
  | (reg', Some err) => (reg', Some err)
  | (reg', None) =>
      AddWithAliases_loop reg' (Action_Name action) (Action_Aliases action) []
  end.

(** [NewRegistry]: [None] stands for the [nil] registry returned with the
    error. *)
Fixpoint NewRegistry_loop (reg : Registry) (initial : list Action)
    : option Registry * option error :=
  match initial with
  | [] => (Some reg, None)
  | action :: rest =>
      match AddWithAliases reg action with
      | (_, Some err) => (None, Some err)
      | (reg', None) => NewRegistry_loop reg' rest
      end
  end.

Definition emptyRegistry : Registry := mkRegistry [] ∅ ∅ "".

Definition NewRegistry (initial : list Action) : option Registry * option error :=
  NewRegistry_loop emptyRegistry initial.

(** [NewRegistryWithDefault] *)
Definition NewRegistryWithDefault (dflt : Action)
    : option Registry * option error :=
  match NewRegistry [dflt] with
  | (Some reg, None) =>
      (Some (mkRegistry (reg_order reg) (reg_actions reg) (reg_aliases reg)
                        (Action_Name dflt)),
       None)
  | (_, err) => (None, err)
  end.

(** ** What a command reports about itself *)

(** [missingCommand.Info] and [PluginCommand.Info]: both return [nil]. *)
Definition missingCommand_Info (c : missingCommand) : option Info := None.

Definition PluginCommand_Info (c : PluginCommand) : option Info := None.

(** [Action.Summary], as far as it can fail: it calls [Info] on the wrapped
    command and reads [Purpose] from the result.  [info] is what that call
    gave, [None] when the action wraps no command at all. *)
Definition Summary_returns (info : option (result (option Info))) : bool :=
  match info with
  | Some (Returned (Some _)) => true
  | _ => false
  end.

(** One round of the loop of [SuperCommand.describeCommands]: look the name
    up, skip a deprecated action, summarise any other.  [infos] holds what
    [Info] gives for the command of each canonical action; an alias shares
    the command of its target. *)
Definition describeCommands_step (reg : Registry)
    (infos : gmap string (result (option Info))) (name : string) : bool :=
  let action := fst (LookUp reg [name]) in
  if decide (Action_Replacement action ≠ "") then true
  else
    match reg_actions reg !! name with
    | Some _ => Summary_returns (infos !! name)
    | None =>
        match reg_aliases reg !! name with
        | Some aliased => Summary_returns (infos !! aliased)
        | None => false
        end
    end.

(** [Command.Info] by dynamic dispatch.  For a [SuperCommand] this is
    [SuperCommand.Info]: the selected action's info under a qualified name,
    or else the super-command's own, whose [Doc] makes it walk all of its
    sub-commands with [describeCommands].  The walk only matters here in
    that it dereferences what each sub-command's [Info] returns. *)
Fixpoint Command_Info (cmd : Command) : result (option Info) :=
  match cmd with
  | OtherCommand _ info => Returned info
  | MissingCommand _ c => Returned (missingCommand_Info c)
  | PluginCmd _ c => Returned (PluginCommand_Info c)
  | SuperCmd _ c =>
      match Validate (super_action c) with
      | None =>
          match Action_Command (super_action c) with
          | Some sub =>
              match Command_Info sub with
              | Returned (Some info) =>
                  Returned (Some (mkInfo (super_Name c +:+ " " +:+ Info_Name info)
                                         (Info_Purpose info)
                                         (Info_Aliases info)))
              | Returned None => Panicked PanicNilDereference
              | Panicked p => Panicked p
              end
          | None => Panicked PanicNilDereference
          end
      | Some _ =>
          match super_subcmds c with
          | None => Panicked PanicNilDereference
          | Some reg =>
              let infos :=
                (λ a : Action,
                   match Action_Command a with
                   | Some sub => Command_Info sub
                   | None => Panicked PanicNilDereference
                   end) <$> reg_actions reg in
              if forallb (describeCommands_step reg infos) (Names reg) then
                Returned (Some (mkInfo (super_Name c) (super_Purpose c)
                                       (super_Aliases c)))
              else Panicked PanicNilDereference
          end
      end
  end.

(** [newActionFromCommand] *)
Definition newActionFromCommand (cmd : Command) : result Action :=
  info ← Command_Info cmd;
  match info with
  | None => Panicked PanicNilDereference
  | Some info =>
      Returned (mkAction (Info_Name info) "" (Some cmd) (Info_Aliases info) "")
  end.

(** ** The super-command *)

Definition set_subcmds (c : SuperCommand) (subcmds : option Registry)
    : SuperCommand :=
  mkSuperCommand (super_Name c) (super_Purpose c) (super_Aliases c) subcmds
    (super_action c) (super_showHelp c) (super_showDescription c)
    (super_missingCallback c).

Definition set_action (c : SuperCommand) (action : Action) : SuperCommand :=
  mkSuperCommand (super_Name c) (super_Purpose c) (super_Aliases c)
    (super_subcmds c) action (super_showHelp c) (super_showDescription c)
    (super_missingCallback c).

Definition set_showHelp (c : SuperCommand) (b : bool) : SuperCommand :=
  mkSuperCommand (super_Name c) (super_Purpose c) (super_Aliases c)
    (super_subcmds c) (super_action c) b (super_showDescription c)
    (super_missingCallback c).

(** A [DeprecationCheck]: what its two call-backs answer. *)
Record DeprecationCheck : Type := mkDeprecationCheck {
  check_Deprecated : bool * string;
  check_Obsolete : bool
}.

(** Calls through the [subcmds] pointer; the registry comes back as the
    pointer it is behind.  On a [nil] registry [Add] still validates the
    action and [LookUp] of a non-empty path still leaves its loop at once;
    the first access to a field is what faults. *)
Definition subcmds_AddWithAliases (subcmds : option Registry) (action : Action)
    : result (option Registry * option error) :=
  match subcmds with
  | Some reg =>
      let '(reg', err) := AddWithAliases reg action in Returned (Some reg', err)
  | None =>
      match Validate action with
      | Some err => Returned (None, Some err)
      | None => Panicked PanicNilDereference
      end
  end.

Definition subcmds_AddAlias (subcmds : option Registry) (name alias : string)
    : result (option Registry * option error) :=
  match subcmds with
  | Some reg =>
      let '(reg', err) := AddAlias reg name alias in Returned (Some reg', err)
  | None => Panicked PanicNilDereference
  end.

Definition subcmds_LookUp (subcmds : option Registry) (path : list string)
    : result (Action * bool) :=
  match subcmds with
  | Some reg => Returned (LookUp reg path)
  | None =>
      match path with
      | [] => Panicked PanicNilDereference
      | _ :: _ => Returned (zeroAction, false)
      end
  end.

(** The common end of the three [Register...] methods:
    [if err := ...; err != nil { panic(err.Error()) }]. *)
Definition panic_on_error (c : SuperCommand)
    (r : option Registry * option error) : result SuperCommand :=
  match r with
  | (_, Some err) => Panicked (PanicError err)
  | (subcmds, None) => Returned (set_subcmds c subcmds)
  end.

(** [SuperCommand.Register] *)
Definition Register (c : SuperCommand) (subcmd : option Command)
    : result SuperCommand :=
  match subcmd with
  | None => Returned c
  | Some cmd =>
      action ← newActionFromCommand cmd;
      r ← subcmds_AddWithAliases (super_subcmds c) action;
      panic_on_error c r
  end.

Definition with_Replacement (a : Action) (replacement : string) : Action :=
  mkAction (Action_Name a) (Action_AliasedName a) (Action_Command a)
           (Action_Aliases a) replacement.

(** [SuperCommand.RegisterDeprecated]; the log lines come with the result. *)
Definition RegisterDeprecated (c : SuperCommand) (subcmd : option Command)
    (check : option DeprecationCheck) : result (SuperCommand * list LogEntry) :=
  match subcmd with
  | None => Returned (c, [])
  | Some cmd =>
      action ← newActionFromCommand cmd;
      match check with
      | Some chk =>
          if check_Obsolete chk then
            Returned (c, [mkLogEntry LevelInfo
                            "%q command not registered as it is obsolete"
                            [LogString (Action_Name action)]])
          else
            let action :=
              match check_Deprecated chk with
              | (true, replacement) => with_Replacement action replacement
              | (false, _) => action
              end in
            r ← subcmds_AddWithAliases (super_subcmds c) action;
            c' ← panic_on_error c r;
            Returned (c', [])
      | None => Panicked PanicNilDereference
      end
  end.

(** [SuperCommand.RegisterAlias] *)
Definition RegisterAlias (c : SuperCommand) (name forName : string)
    (check : option DeprecationCheck) : result (SuperCommand * list LogEntry) :=
  if match check with Some chk => check_Obsolete chk | None => false end then
    Returned (c, [mkLogEntry LevelInfo
                    "%q alias not registered as it is obsolete"
                    [LogString name]])
  else
    r ← subcmds_AddAlias (super_subcmds c) forName name;
    c' ← panic_on_error c r;
    Returned (c', []).

(** Modelled from the spec: [CheckEmpty] lives in cmd.go, which is not part
    of the sources; extra arguments are an error. *)
Definition CheckEmpty (args : list string) : option error :=
  match args with
  | [] => None
  | _ :: _ => Some (Errorf "unrecognized args: %q" args)
  end.

Section SuperCommand_Init.
(** The collaborators of [Init] that are no part of the sources: the flag
    library and the sub-command's own methods, reached through the
    [Command] interface. *)

(** The address of the [missingCommand] that [Init] allocates. *)
Variable new_missingCommand : positive.

(** [SetFlags] on the sub-command, then
    [c.commonflags.Parse(subcmd.AllowInterspersedFlags(), args)]: the
    error, or the remaining arguments and whether a help flag was seen. *)
Variable parseFlags : SuperCommand → Command → list string
                      → result (error + list string * bool).

(** [Command.Init] of a sub-command; what it does to the sub-command
    itself is not followed. *)
Variable Command_Init : Command → list string → result (option error).

(** [Action.Init] *)
Definition Action_Init (a : Action) (args : list string)
    : result (option error) :=
  match Action_Command a with
  | None => Panicked PanicNilDereference
  | Some cmd => Command_Init cmd args
  end.

(** [SuperCommand.Init] *)
Definition Init (c : SuperCommand) (args : list string)
    : result (SuperCommand * option error) :=
  if super_showDescription c then Returned (c, CheckEmpty args)
  else
    match args with
    | [] =>
        r ← subcmds_LookUp (super_subcmds c) [];
        let c := set_action c (fst r) in
        err ← Action_Init (super_action c) [];
        Returned (c, err)
    | name :: args =>
        r ← subcmds_LookUp (super_subcmds c) [name];
        match r with
        | (_, false) =>
            match super_missingCallback c with
            | None =>
                Returned (c, Some (Errorf "unrecognized command: %s %s"
                                          [super_Name c; name]))
            | Some callback =>
                action ← newActionFromCommand
                  (MissingCommand new_missingCommand
                     (mkMissingCommand callback (super_Name c) name args));
                Returned (set_action c action, None)
            end
        | (action, true) =>
            let c := set_action c action in
            match Action_Command (super_action c) with
            | None => Panicked PanicNilDereference
            | Some subcmd =>
                parsed ← parseFlags c subcmd args;
                match parsed with
                | inl err => Returned (c, Some err)
                | inr (args, showHelp) =>
                    let c := set_showHelp c showHelp in
                    if super_showHelp c then
                      let args := [Action_Name (super_action c)] in
                      r ← subcmds_LookUp (super_subcmds c) ["help"];
                      let c := set_action c (fst r) in
                      err ← Action_Init (super_action c) args;
                      Returned (c, err)
                    else
                      err ← Action_Init (super_action c) args;
                      Returned (c, err)
                end
            end
        end
    end.
End SuperCommand_Init.

Section SuperCommand_run.
(** [Command.Run] of the selected sub-command, through the interface. *)
Variable Command_Run : Command → result (option error).

(** [Action.Run] *)
Definition Action_Run (a : Action) : result (option error) :=
  match Action_Command a with
  | None => Panicked PanicNilDereference
  | Some cmd => Command_Run cmd
  end.

(** [SuperCommand.run]: the error it returns and what it logs. *)
Definition run (c : SuperCommand) : result (option error * list LogEntry) :=
  err ← Action_Run (super_action c);
  match err with
  | Some e =>
      if decide (e ≠ ErrSilent) then
        let logged := [mkLogEntry LevelError "%v" [LogErr e]] in
        if negb (IsRcPassthroughError e) then
          Returned (Some ErrSilent, logged)
        else Returned (Some e, logged)
      else Returned (Some e, [mkLogEntry LevelInfo "command finished" []])
  | None => Returned (None, [mkLogEntry LevelInfo "command finished" []])
  end.
End SuperCommand_run.

(** [missingCommand.Run] *)
Definition missingCommand_Run (c : missingCommand) : option error :=
  match missing_Callback c (missing_Name c) (missing_Args c) with
  | Some (UnrecognizedCommand _) =>
      Some (UnrecognizedCommand (missing_SuperName c +:+ " " +:+ missing_Name c))
  | err => err
  end.

(** ** Plugins *)

Record Plugins : Type := mkPlugins {
  Prefix : string;
  IgnoredFlags : list string;
  Env : list string;
  Title : string
}.

(** [Plugins.extractIgnoredArgs]: a recognized flag is copied with the
    argument after it, if there is one; the scan goes on behind the pair. *)
Fixpoint extractIgnoredArgs (p : Plugins) (args : list string) : list string :=
  match args with
  | [] => []
  | arg :: rest =>
      if bool_decide (arg ∈ IgnoredFlags p) then
        match rest with
        | [] => [arg]
        | value :: rest' => arg :: value :: extractIgnoredArgs p rest'
        end
      else extractIgnoredArgs p rest
  end.

(** [PluginCommand.Init] *)
Definition PluginCommand_Init (c : PluginCommand) (args : list string)
    : PluginCommand * option error :=
  (mkPluginCommand (plugin_name c) args (plugin_env c), None).

Section Plugins_run.
(** The operating system, as the plugin runner meets it. *)

(** [os.Environ()] *)
Variable os_Environ : list string.

(** [exec.Command(name, args...)] with the given environment, then
    [Run]: the error it returns.  [ExecError] is an [*exec.Error], the
    executable was not found; [ExitError] is an [*exec.ExitError], the
    child ran and did not succeed; [PathError] is the [*os.PathError] of
    a file that was found and could not be started. *)
Variable exec_Run : string → list string → list string → option error.

(** [flags.Parse(false, args)] on the fresh flag set named after the
    plugin, once [plugin.SetFlags] has declared its flags. *)
Variable flags_Parse : string → list string → option error.

(** [PluginCommand.Run] *)
Definition PluginCommand_Run (c : PluginCommand) : option error :=
  let err :=
    exec_Run (plugin_name c) (plugin_args c) (os_Environ ++ plugin_env c) in
  match err with
  | Some (ExitError status) =>
      if Exited status then Some (NewRcPassthroughError (ExitStatus status))
      else err
  | _ => err
  end.

(** [Plugins.RunPlugin] *)
Definition RunPlugin (p : Plugins) (subcommand : string)
    (args : list string) : option error :=
  let cmdName := Prefix p +:+ subcommand in
  let plugin := mkPluginCommand cmdName [] (Env p) in
  let ignoredArgs := extractIgnoredArgs p args in
  match flags_Parse cmdName ignoredArgs with
  | Some err => Some err
  | None =>
      match PluginCommand_Init plugin args with
      | (_, Some err) => Some err
      | (plugin, None) =>
          match PluginCommand_Run plugin with
          | Some (ExecError _) => Some (UnrecognizedCommand subcommand)
          | err => err
          end
      end
  end.
End Plugins_run.

(** What becomes of the child process, and the error that [exec.Cmd.Run]
    returns for it: [nil] for a child that ran and exited with status 0,
    an [*exec.ExitError] for one that ran and ended in another way, an
    [*exec.Error] when the executable was not located, and the
    [*os.PathError] of the system call when it was located and could not
    be started. *)
Inductive ProcessOutcome : Type :=
| NotLocated (file : string)
| NotStarted (op path reason : string)
| ExitedWith (code : Z)
| KilledBy (signal : Z).

Definition Cmd_Run_error (outcome : ProcessOutcome) : option error :=
  match outcome with
  | NotLocated file => Some (ExecError file)
  | NotStarted op path reason => Some (PathError op path reason)
  | ExitedWith code =>
      if decide (code = 0%Z) then None else Some (ExitError (WExited code))
  | KilledBy signal => Some (ExitError (WSignaled signal))
  end.

(** A directory entry, as [FindAll] reads it: name and permission bits. *)
Record DirEntry : Type := mkDirEntry {
  entry_Name : string;
  entry_Mode : N
}.

(** [strings.HasPrefix] *)
Definition HasPrefix (s pre : string) : bool := String.prefix pre s.

(** [sort.Strings]: ascending in the byte-wise order of Go strings. *)
Definition string_le (a b : string) : Prop := String.leb a b = true.

Global Instance string_le_dec : RelDecision string_le.
Proof. intros a b. unfold string_le. apply _. Defined.

Definition sort_Strings (l : list string) : list string :=
  merge_sort string_le l.

(** [Plugins.FindAll] over the listings of the directories on the path
    ([None] for a directory that cannot be read). *)
Definition FindAll (p : Plugins) (path : list (option (list DirEntry)))
    : list string :=
  let plugins :=
    flat_map
      (λ dir,
         match dir with
         | None => []
         | Some entries =>
             entry_Name <$>
               filter (λ entry, HasPrefix (entry_Name entry) (Prefix p) = true
                                ∧ N.land (entry_Mode entry) 73 ≠ 0%N)
                      entries
         end)
      path in
  sort_Strings plugins.

Record pluginDescription : Type := mkPluginDescription {
  pd_name : string;
  pd_description : string
}.

(** The line feed. *)
Definition LF : Ascii.ascii := Ascii.ascii_of_nat 10.

(** [strings.SplitN(s, "\n", 2)[0]] *)
Fixpoint firstLine (s : string) : string :=
  match s with
  | EmptyString => EmptyString
  | String c rest =>
      if decide (c = LF) then EmptyString else String c (firstLine rest)
  end.

(** [s[n:]] *)
Definition sliceFrom (s : string) (n : nat) : result string :=
  if decide (n ≤ String.length s) then
    Returned (String.substring n (String.length s - n) s)
  else Panicked PanicSliceBounds.

(** One probe of [Plugins.Descriptions]: the body of the goroutine, from
    what [CombinedOutput] gave to the value sent on the channel and the
    line logged. *)
Definition probe (plugin : string) (out : string * option error)
    : pluginDescription * list LogEntry :=
  match out with
  | (output, None) => (mkPluginDescription plugin (firstLine output), [])
  | (_, Some err) =>
      (mkPluginDescription plugin
         ("error occurred running '" +:+ plugin +:+ " --description'"),
       [mkLogEntry LevelError "'%s --description': %s"
                   [LogString plugin; LogErr err]])
  end.

(** What the probes send, one value for each plugin found. *)
Definition sent (plugins : list string) (outs : list (string * option error))
    : list pluginDescription :=
  zip_with (λ plugin out, fst (probe plugin out)) plugins outs.

(** The gathering loop of [Plugins.Descriptions] over the values in the
    order they are received. *)
Definition gather (p : Plugins) (received : list pluginDescription)
    : result (gmap string string) :=
  foldl (λ acc r,
           results ← acc;
           name ← sliceFrom (pd_name r) (String.length (Prefix p));
           Returned (<[name := pd_description r]> results))
        (Returned ∅) received.

(** [Plugins.Descriptions] for the plugins found and the values received
    from the channel.  The [nil] map of the first branch reads as an empty
    one. *)
Definition Descriptions (p : Plugins) (plugins : list string)
    (received : list pluginDescription) : result (gmap string string) :=
  match plugins with
  | [] => Returned ∅
  | _ :: _ => gather p (take (length plugins) received)
  end.

(** ** Slices on a heap *)

(** A slice header and the heap of backing arrays, to follow who shares
    what with [Registry.Names]. *)
Record slice : Type := mkSlice {
  slice_array : positive;
  slice_offset : nat;
  slice_len : nat;
  slice_cap : nat
}.

Abbreviation heap := (gmap positive (list string)).

Definition slice_elems (h : heap) (s : slice) : list string :=
  take (slice_len s) (drop (slice_offset s) (default [] (h !! slice_array s))).

(** [make([]string, n)] *)
Definition heap_make (h : heap) (n : nat) : heap * slice :=
  let a := fresh (dom h) in
  (<[a := replicate n ""]> h, mkSlice a 0 n n).

(** [copy(dst, src)] *)
Definition heap_copy (h : heap) (dst src : slice) : heap :=
  let n := Nat.min (slice_len dst) (slice_len src) in
  let data := take n (slice_elems h src) in
  alter (λ arr, take (slice_offset dst) arr ++ data
                ++ drop (slice_offset dst + n) arr)
        (slice_array dst) h.

(** [s[i] = v] *)
Definition heap_store (h : heap) (s : slice) (i : nat) (v : string)
    : result heap :=
  if decide (i < slice_len s) then
    Returned (alter (λ arr, <[slice_offset s + i := v]> arr) (slice_array s) h)
  else Panicked PanicSliceBounds.

(** [Registry.Names] on the heap, [order] being the registry's slice. *)
Definition Names_heap (h : heap) (order : slice) : heap * slice :=
  let '(h, copied) := heap_make h (slice_len order) in
  (heap_copy h copied order, copied).

(** ** Sequences of registrations *)

(** Whether a name is taken, as [Add] and [AddAlias] ask. *)
Definition found (reg : Registry) (name : string) : bool :=
  snd (LookUp reg [name]).

Inductive registration : Type :=
| DoAdd (action : Action)
| DoAddAlias (name alias : string)
| DoAddWithAliases (action : Action).

Definition register (reg : Registry) (r : registration)
    : Registry * option error :=
  match r with
  | DoAdd action => Add reg action
  | DoAddAlias name alias => AddAlias reg name alias
  | DoAddWithAliases action => AddWithAliases reg action
  end.

(** Any sequence of calls, failed ones included. *)
Definition registerAll (reg : Registry) (rs : list registration) : Registry :=
  foldl (λ reg r, fst (register reg r)) reg rs.

(** A sequence of calls none of which fails. *)
Fixpoint registerEach (reg : Registry) (rs : list registration)
    : option Registry :=
  match rs with
  | [] => Some reg
  | r :: rs =>
      match register reg r with
      | (reg', None) => registerEach reg' rs
      | (_, Some _) => None
      end
  end.

(** The names a call registers, in the order it appends them. *)
Definition names_of (r : registration) : list string :=
  match r with
  | DoAdd action => [Action_Name action]
  | DoAddAlias _ alias => [alias]
  | DoAddWithAliases action => Action_Name action :: Action_Aliases action
  end.

Definition aliases_of (r : registration) : list string :=
  match r with
  | DoAdd _ => []
  | DoAddAlias _ alias => [alias]
  | DoAddWithAliases action => Action_Aliases action
  end.

(** The invariants of a registry. *)
Record wf (reg : Registry) : Prop := mk_wf {
  wf_NoDup : NoDup (reg_order reg);
  wf_order : ∀ n, n ∈ reg_order reg ↔
                  is_Some (reg_actions reg !! n) ∨ is_Some (reg_aliases reg !! n);
  wf_canonical : ∀ n a, reg_actions reg !! n = Some a →
                        Action_Name a = n ∧ n ≠ "";
  wf_target : ∀ n t, reg_aliases reg !! n = Some t →
                     is_Some (reg_actions reg !! t);
  wf_disjoint : ∀ n, is_Some (reg_actions reg !! n) →
                     reg_aliases reg !! n = None;
  wf_alias : ∀ n, is_Some (reg_aliases reg !! n) → n ≠ ""
}.

(** The alias map after the aliases [added] were pointed at [name]. *)
Definition point_at (name : string) (added : list string)
    (aliases : gmap string string) : gmap string string :=
  foldr (λ alias m, <[alias := name]> m) aliases added.

(** The registry once [Add] took the action and [AddAlias] the aliases
    [added]. *)
Definition extended (base : Registry) (a : Action) (added : list string)
    : Registry :=
  mkRegistry (reg_order base ++ Action_Name a :: added)
             (<[Action_Name a := a]> (reg_actions base))
             (point_at (Action_Name a) added (reg_aliases base))
             (reg_defaultName base).

(** ** A new super-command *)

(** [SuperCommand.init]: the registry starts with the help command as its
    default, and with the version command when a version is set.  [help]
    and [version] are the two commands it creates. *)
Definition SuperCommand_init (c : SuperCommand) (help : Command)
    (version : option Command) : SuperCommand :=
  match super_subcmds c with
  | Some _ => c
  | None =>
      match fst (NewRegistryWithDefault (mkAction "help" "" (Some help) [] "")) with
      | None => c
      | Some reg =>
          match version with
          | None => set_subcmds c (Some reg)
          | Some v =>
              set_subcmds c
                (Some (fst (Add reg (mkAction "version" "" (Some v) [] ""))))
          end
      end
  end.

(** [NewSuperCommand], for the parameters the embedding keeps. *)
Definition NewSuperCommand (name purpose : string) (aliases : list string)
    (missing : option MissingCallback) (help : Command)
    (version : option Command) : SuperCommand :=
  SuperCommand_init
    (mkSuperCommand name purpose aliases None zeroAction false false missing)
    help version.

(** ** Sample commands and registries *)

Definition helpCommand : Command :=
  OtherCommand 1 (Some (mkInfo "help" "show help on a command or other topic" [])).

Definition leafCommand (ptr : positive) (name : string) (aliases : list string)
    : Command :=
  OtherCommand ptr (Some (mkInfo name ("runs " +:+ name) aliases)).

(** A registry as [NewRegistry()] and one [Add] leave it. *)
Definition registry_x : Registry :=
  fst (Add emptyRegistry (mkAction "x" "" (Some (leafCommand 2 "x" [])) [] "")).

(** The same, with the empty string registered as an alias of ["x"]. *)
Definition registry_x_empty_alias : Registry :=
  fst (AddAlias registry_x "x" "").

(** The sub-dispatcher [S] with its leaf [L], and the dispatcher [D] that
    registers [S] and a leaf of its own. *)
Definition super_S : SuperCommand :=
  match Register (NewSuperCommand "s" "a nested super-command" [] None
                    helpCommand None)
                 (Some (leafCommand 3 "l" [])) with
  | Returned c => c
  | Panicked _ => NewSuperCommand "s" "" [] None helpCommand None
  end.

Definition super_D : SuperCommand :=
  let d := NewSuperCommand "d" "the dispatcher" [] None helpCommand None in
  match d ← Register d (Some (SuperCmd 10 super_S));
        Register d (Some (leafCommand 4 "leafname" [])) with
  | Returned c => c
  | Panicked _ => d
  end.

Definition registry_D : Registry := default emptyRegistry (super_subcmds super_D).

Definition registry_S : Registry := default emptyRegistry (super_subcmds super_S).

(** A super-command with a missing-command call-back. *)
Definition sample_callback : MissingCallback :=
  λ subcommand _, Some (UnrecognizedCommand subcommand).

Definition super_with_callback : SuperCommand :=
  NewSuperCommand "juju" "" [] (Some sample_callback) helpCommand None.

(** A deprecated command with an alias, as [RegisterDeprecated] adds it. *)
Definition deprecated_check : DeprecationCheck :=
  mkDeprecationCheck (true, "deploy") false.

Definition obsolete_check : DeprecationCheck :=
  mkDeprecationCheck (false, "") true.

Definition super_deprecated : SuperCommand :=
  let c := NewSuperCommand "juju" "" [] None helpCommand None in
  match RegisterDeprecated c (Some (leafCommand 5 "install" ["setup"]))
                           (Some deprecated_check) with
  | Returned (c, _) => c
  | Panicked _ => c
  end.

Definition registry_deprecated : Registry :=
  default emptyRegistry (super_subcmds super_deprecated).

(** The errors written to the log at error level. *)
Definition logged_errors (logs : list LogEntry) : list error :=
  flat_map
    (λ entry,
       match log_level entry with
       | LevelError =>
           omap (λ arg, match arg with LogErr e => Some e | LogString _ => None end)
                (log_args entry)
       | LevelInfo => []
       end)
    logs.

(** An operating system with two plugins: [juju-fail] exits with status 2,
    [juju-broken] is found and cannot be started; nothing else is there. *)
Definition sample_exec_Run (name : string) (args env : list string)
    : option error :=
  if decide (name = "juju-fail") then Some (ExitError (WExited 2))
  else if decide (name = "juju-broken") then
    Some (PathError "fork/exec" "/usr/bin/juju-broken" "exec format error")
  else Some (ExecError name).

Definition sample_flags_Parse (name : string) (args : list string)
    : option error := None.

Definition sample_Plugins : Plugins := mkPlugins "juju-" ["-e"] [] "Juju Plugins".

(** A slice header that fits the heap: inside its array, or empty when it
    has none (a [nil] slice). *)
Definition slice_ok (h : heap) (s : slice) : Prop :=
  match h !! slice_array s with
  | Some arr => slice_offset s + slice_len s ≤ length arr
  | None => slice_len s = 0
  end.

(** A heap that holds the order of [registry_deprecated] in an array with
    room to spare. *)
Definition sample_heap : heap :=
  {[ 7%positive := ["help"; "install"; "setup"; ""] ]}.

Definition sample_order : slice := mkSlice 7 0 3 4.

(** Probes agree when those of one name sent one description. *)
Definition consistent (rs : list pluginDescription) : Prop :=
  ∀ r1 r2, r1 ∈ rs → r2 ∈ rs → pd_name r1 = pd_name r2 →
           pd_description r1 = pd_description r2.

(** Two directories of the path that both hold [juju-foo], and two probes
    of it, of which the second fails. *)
Definition sample_path : list (option (list DirEntry)) :=
  [Some [mkDirEntry "juju-foo" 493; mkDirEntry "notes.txt" 420];
   None;
   Some [mkDirEntry "juju-foo" 493]].

Definition sample_outs : list (string * option error) :=
  [("foo description" +:+ String LF "more", None);
   ("", Some (ExitError (WExited 1)))].

(** One directory with three plugins and a file that is not executable. *)
Definition sample_path_distinct : list (option (list DirEntry)) :=
  [Some [mkDirEntry "juju-foo" 484; mkDirEntry "juju-bar" 428;
         mkDirEntry "juju-baz" 421; mkDirEntry "juju-doc" 420]].

Definition sample_outs_distinct : list (string * option error) :=
  [("bar description" +:+ String LF "", None);
   ("baz description", None);
   ("foo description", Some (ExitError (WExited 1)))].

(** [name[len(prefix):]] when [name] is long enough. *)
Definition strip (p : Plugins) (name : string) : string :=
  String.substring (String.length (Prefix p))
                   (String.length name - String.length (Prefix p)) name.

(** The map the gathering loop builds from the values received when no
    slice expression faults. *)
Definition gathered (p : Plugins) (received : list pluginDescription)
    : gmap string string :=
  foldl (λ results r, <[strip p (pd_name r) := pd_description r]> results)
        ∅ received.

(** What a probe reports for the output of the plugin. *)
Definition description_of (plugin : string) (out : string * option error)
    : string :=
  match out with
  | (output, None) => firstLine output
  | (_, Some _) => "error occurred running '" +:+ plugin +:+ " --description'"
  end.

(** The action [newActionFromCommand] makes of a command and its info. *)
Definition action_of_info (cmd : Command) (info : Info) : Action :=
  mkAction (Info_Name info) "" (Some cmd) (Info_Aliases info) "".

(** The action [RegisterDeprecated] registers under a check. *)
Definition deprecated_action (check : DeprecationCheck) (action : Action)
    : Action :=
  match check_Deprecated check with
  | (true, replacement) => with_Replacement action replacement
  | (false, _) => action
  end.

(** Name and aliases are free: not empty, distinct, and none of them
    found in the registry. *)
Definition names_free (reg : Registry) (info : Info) : Prop :=
  let names := Info_Name info :: Info_Aliases info in
  Info_Name info ≠ "" ∧ NoDup names ∧ ∀ n, n ∈ names → found reg n = false.

Definition super_juju : SuperCommand :=
  NewSuperCommand "juju" "" [] None helpCommand None.

Definition registry_juju : Registry :=
  default emptyRegistry (super_subcmds super_juju).

(** ** More of the action *)

(** [Action.Summary] *)
Definition Summary (a : Action) : result string :=
  match Action_Command a with
  | None => Panicked PanicNilDereference
  | Some cmd =>
      info ← Command_Info cmd;
      match info with
      | None => Panicked PanicNilDereference
      | Some info =>
          if decide (Action_AliasedName a ≠ "") then
            Returned ("alias for '" +:+ Action_AliasedName a +:+ "'")
          else Returned (Info_Purpose info)
      end
  end.

(** [Action.PreRun]: what [ctx.Infof] is given, and the error. *)
Definition PreRun (a : Action) : list LogEntry * option error :=
  if decide (Action_Replacement a ≠ "") then
    ([mkLogEntry LevelInfo "WARNING: %q is deprecated, please use %q"
                 [LogString (Action_Name a); LogString (Action_Replacement a)]],
     None)
  else ([], None).

(** A deprecated command with an alias and a plain one, registered from a
    new registry. *)
Definition sample_calls : list registration :=
  [DoAddWithAliases (mkAction "install" ""
                       (Some (leafCommand 5 "install" ["setup"]))
                       ["setup"] "deploy");
   DoAdd (mkAction "status" "" (Some (leafCommand 9 "status" [])) [] "");
   DoAddAlias "status" "st"].

Definition sample_registry : Registry := registerAll emptyRegistry sample_calls.

(** The names a list of actions brings, in the order [NewRegistry] adds
    them. *)
Definition all_names (initial : list Action) : list string :=
  concat ((λ a : Action, Action_Name a :: Action_Aliases a) <$> initial).

(** ** More of the super-command *)

(** [SuperCommand.Info], which [Command.Info] reaches for a pointer to the
    super-command. *)
Definition SuperCommand_Info (c : SuperCommand) : result (option Info) :=
  Command_Info (SuperCmd 1 c).

(** [Registry.Add] through the [subcmds] pointer. *)
Definition subcmds_Add (subcmds : option Registry) (action : Action)
    : result (option Registry * option error) :=
  match subcmds with
  | Some reg => let '(reg', err) := Add reg action in Returned (Some reg', err)
  | None =>
      match Validate action with
      | Some err => Returned (None, Some err)
      | None => Panicked PanicNilDereference
      end
  end.

Definition with_AliasedName (a : Action) (aliased : string) : Action :=
  mkAction (Action_Name a) aliased (Action_Command a) (Action_Aliases a)
           (Action_Replacement a).

Section SuperCommand_RegisterSuperAlias.
(** [Command.IsSuperCommand], through the interface. *)
Variable IsSuperCommand : Command → bool.

(** [SuperCommand.RegisterSuperAlias] *)
Definition RegisterSuperAlias (c : SuperCommand) (name super forName : string)
    (check : option DeprecationCheck) : result (SuperCommand * list LogEntry) :=
  if match check with Some chk => check_Obsolete chk | None => false end then
    Returned (c, [mkLogEntry LevelInfo
                    "%q alias not registered as it is obsolete"
                    [LogString name]])
  else
    let aliased := super +:+ " " +:+ forName in
    r ← subcmds_LookUp (super_subcmds c) [super; forName];
    match r with
    | (action, false) =>
        match Action_Command action with
        | None => Panicked PanicNilDereference
        | Some cmd =>
            if negb (IsSuperCommand cmd) then
              Panicked (PanicMessage "%q is not a SuperCommand" [super])
            else
              Panicked (PanicMessage "%q not found when registering alias"
                                     [aliased])
        end
    | (action, true) =>
        let action := NewAlias action name in
        let action := with_AliasedName action aliased in
        r ← subcmds_Add (super_subcmds c) action;
        c' ← panic_on_error c r;
        Returned (c', [])
    end.
End SuperCommand_RegisterSuperAlias.

(** The fields of [SuperCommand] that only [Run] reads: the usage prefix,
    whether [notifyRun] is set, and the log, [None] while it is [nil] and
    else with what [Log.Start] returns. *)
Record RunFields : Type := mkRunFields {
  run_usagePrefix : string;
  run_notifyRun : bool;
  run_Log : option (option error)
}.

(** What [Run] does besides running the action, in the order it does it:
    text written to the standard output of the context, the start of the
    log, the call of [notifyRun], and lines logged. *)
Inductive event : Type :=
| Printed (text : string)
| LogStarted
| Notified (cmdName : string)
| Logged (entry : LogEntry).

(** [SuperCommand.preRun] *)
Definition preRun (f : RunFields) (c : SuperCommand)
    : option error * list event :=
  match run_Log f with
  | Some (Some err) => (Some err, [LogStarted])
  | started =>
      let started := match started with Some _ => [LogStarted] | None => [] end in
      let notified :=
        if run_notifyRun f then
          if decide (run_usagePrefix f ≠ "" ∧ run_usagePrefix f ≠ super_Name c)
          then [Notified (run_usagePrefix f +:+ " " +:+ super_Name c)]
          else [Notified (super_Name c)]
        else [] in
      let '(logs, err) := PreRun (super_action c) in
      (err, started ++ notified ++ (Logged <$> logs))
  end.

Section SuperCommand_Run.
Variable Command_Run : Command → result (option error).

(** [SuperCommand.Run] *)
Definition Run (f : RunFields) (c : SuperCommand)
    : result (option error * list event) :=
  if super_showDescription c then
    if decide (super_Purpose c ≠ "") then
      Returned (None, [Printed (super_Purpose c +:+ String LF "")])
    else
      info ← SuperCommand_Info c;
      match info with
      | None => Panicked PanicNilDereference
      | Some info =>
          Returned (None, [Printed (Info_Name info
                                    +:+ ": no description available"
                                    +:+ String LF "")])
      end
  else
    match Validate (super_action c) with
    | Some _ =>
        Panicked (PanicMessage
                    "Run: missing subcommand; Init failed or not called" [])
    | None =>
        match preRun f c with
        | (Some err, events) => Returned (Some err, events)
        | (None, events) =>
            r ← run Command_Run c;
            Returned (fst r, events ++ (Logged <$> snd r))
        end
    end.
End SuperCommand_Run.

Definition set_showDescription (c : SuperCommand) (b : bool) : SuperCommand :=
  mkSuperCommand (super_Name c) (super_Purpose c) (super_Aliases c)
    (super_subcmds c) (super_action c) (super_showHelp c) b
    (super_missingCallback c).

(** The name [preRun] passes to [notifyRun]. *)
Definition notified_name (f : RunFields) (c : SuperCommand) : string :=
  if decide (run_usagePrefix f ≠ "" ∧ run_usagePrefix f ≠ super_Name c)
  then run_usagePrefix f +:+ " " +:+ super_Name c
  else super_Name c.

(** The names [notifyRun] was called with. *)
Definition notifications (events : list event) : list string :=
  omap (λ ev, match ev with Notified n => Some n | _ => None end) events.

(** ** The help topic of the plugins *)

(** The double quote. *)
Definition QUOTE : string := String (Ascii.ascii_of_nat 34) "".

Definition NL : string := String LF "".

(** [fmt.Sprintf(pluginTopicText, title, prefix)] *)
Definition pluginTopicText (title prefix : string) : string :=
  title +:+ NL +:+ NL
  +:+ "Plugins are implemented as stand-alone executable files somewhere" +:+ NL
  +:+ "in the user's PATH. The executable command must be of the format" +:+ NL
  +:+ QUOTE +:+ prefix +:+ "<plugin name>" +:+ QUOTE +:+ "." +:+ NL +:+ NL.

(** The length of the longest name, as the loops over the names find it. *)
Definition longest (names : list string) : nat :=
  foldl (λ longest name,
           if decide (longest < String.length name) then String.length name
           else longest)
        0 names.

Section Plugins_HelpTopic.
(** The verb [%-*s] of [fmt]: the string, left-justified in the width. *)
Variable pad : nat → string → string.

(** [Plugins.HelpTopic] for the map [Descriptions] returned; [keys] is the
    order in which [range] hands out its keys. *)
Definition HelpTopic (p : Plugins) (existingPlugins : gmap string string)
    (keys : list string) : string :=
  let output := pluginTopicText (Title p) (Prefix p) in
  if decide (size existingPlugins = 0) then
    output +:+ "No plugins found." +:+ NL
  else
    let width := longest keys in
    let names := sort_Strings keys in
    foldl (λ output name,
             let description := default "" (existingPlugins !! name) in
             output +:+ pad width name +:+ "  " +:+ description +:+ NL)
          output names.
End Plugins_HelpTopic.

(** The characters of a string. *)
Definition chars (s : string) : list Ascii.ascii := String.list_ascii_of_string s.

(** What [%-*s] prints for a name without wide characters: the name, then
    spaces up to the width. *)
Definition pad_spaces (width : nat) (s : string) : string :=
  s +:+ String.string_of_list_ascii
          (replicate (width - String.length s) (Ascii.ascii_of_nat 32)).

(** A flag set that declares nothing: any flag is an error. *)
Definition strict_flags_Parse (name : string) (args : list string)
    : option error :=
  match args with
  | [] => None
  | flag :: _ => Some (Errorf "flag provided but not defined: %s" [flag])
  end.

(** An operating system on which every executable is there and succeeds. *)
Definition succeeding_exec_Run (name : string) (args env : list string)
    : option error := None.

(** ** The text of an error *)

Definition PERCENT : Ascii.ascii := Ascii.ascii_of_nat 37.

Definition LOWER_S : Ascii.ascii := Ascii.ascii_of_nat 115.

(** [fmt.Sprintf] for a format whose only verb is [%s] and as many string
    operands as verbs; [None] for what lies outside of that. *)
Fixpoint Sprintf_s (format : string) (args : list string) : option string :=
  match format with
  | EmptyString => match args with [] => Some EmptyString | _ :: _ => None end
  | String c rest =>
      if decide (c = PERCENT) then
        match rest with
        | EmptyString => None
        | String verb rest' =>
            if decide (verb = LOWER_S) then
              match args with
              | [] => None
              | arg :: args' => String.append arg <$> Sprintf_s rest' args'
              end
            else None
        end
      else String c <$> Sprintf_s rest args
  end.

(** [UnrecognizedCommand.Error] *)
Definition UnrecognizedCommand_Error (name : string) : option string :=
  Sprintf_s "unrecognized command: %s" [name].

(** [Error] of the errors whose text the package writes itself: an
    [UnrecognizedCommand] and what [fmt.Errorf] made. *)
Definition Error_text (err : error) : option string :=
  match err with
  | UnrecognizedCommand name => UnrecognizedCommand_Error name
  | Errorf format args => Sprintf_s format args
  | _ => None
  end.

(** ** Help topics in a map *)

Module topics_map.

(** [topic]; [long] is a function value, called when the text is wanted,
    [None] while it is [nil]. *)
Record topic : Type := mkTopic {
  topic_name : string;
  topic_short : string;
  topic_long : option (unit → string);
  topic_isAlias : bool;
  topic_aliases : list string
}.

(** [newTopic] *)
Definition newTopic (name short : string) (long : option (unit → string))
    (aliases : list string) : topic :=
  mkTopic name short long false aliases.

(** [topic.newAlias] *)
Definition newAlias (copied : topic) (name : string) : topic :=
  mkTopic name (topic_short copied) (topic_long copied) true [].

(** [topics], a map; [None] is the [nil] map, which can be read and not
    written. *)
Definition topics : Type := option (gmap string topic).

(** [t[name]] *)
Definition index (t : topics) (name : string) : option topic :=
  m ← t; m !! name.

(** [t[name] = topic] *)
Definition assign (t : topics) (name : string) (tp : topic) : result topics :=
  match t with
  | None => Panicked (PanicMessage "assignment to entry in nil map" [])
  | Some m => Returned (Some (<[name := tp]> m))
  end.

(** [delete(t, name)] *)
Definition delete_key (t : topics) (name : string) : topics :=
  delete name <$> t.

(** [topics.add] *)
Definition add (t : topics) (tp : topic) : result (topics * option error) :=
  match index t (topic_name tp) with
  | Some _ =>
      Returned (t, Some (Errorf "help topic already added: %s" [topic_name tp]))
  | None =>
      t ← assign t (topic_name tp) tp;
      Returned (t, None)
  end.

(** The loop of [topics.addWithAliases] over the aliases that are left,
    [added] being the names added so far. *)
Fixpoint addWithAliases_loop (t : topics) (tp : topic) (added : list string)
    (aliases : list string) : result (topics * option error) :=
  match aliases with
  | [] => Returned (t, None)
  | alias :: aliases =>
      r ← add t (newAlias tp alias);
      match r with
      | (t, Some err) =>
          Returned (foldl (λ t name, delete_key t name) t added, Some err)
      | (t, None) => addWithAliases_loop t tp (added ++ [alias]) aliases
      end
  end.

(** [topics.addWithAliases] *)
Definition addWithAliases (t : topics) (tp : topic)
    : result (topics * option error) :=
  r ← add t tp;
  match r with
  | (t, Some err) => Returned (t, Some err)
  | (t, None) => addWithAliases_loop t tp [topic_name tp] (topic_aliases tp)
  end.

(** [topics.addAlias] *)
Definition addAlias (t : topics) (name alias : string)
    : result (topics * option error) :=
  match index t name with
  | None => Returned (t, Some (Errorf "topic %q not found" [name]))
  | Some tp => add t (newAlias tp alias)
  end.

End topics_map.

(** ** Help topics in insertion order *)

Module topics_ordered.

(** [topic]; [long] is a function value, [None] while it is [nil]. *)
Record topic : Type := mkTopic {
  topic_name : string;
  topic_short : string;
  topic_long : option (unit → string);
  topic_aliases : list string
}.

(** The zero [topic]. *)
Definition zeroTopic : topic := mkTopic "" "" None [].

(** [newTopic] *)
Definition newTopic (name short : string) (long : option (unit → string))
    (aliases : list string) : topic :=
  mkTopic name short long aliases.

(** [topics], with the two maps as [newTopics] makes them. *)
Record topics : Type := mkTopics {
  t_order : list string;
  t_topics : gmap string topic;
  t_aliases : gmap string string
}.

(** [topics.names] *)
Definition names (t : topics) : list string := t_order t.

(** [topics.namesWithoutAliases] *)
Definition namesWithoutAliases (t : topics) : list string :=
  filter (λ name, t_aliases t !! name = None) (names t).

(** [topics.lookUp].  It calls itself for the target of an alias; [fuel]
    bounds the depth of the calls, and [None] is a lookup that did not
    return within it. *)
Fixpoint lookUp (fuel : nat) (t : topics) (name : string)
    : option (topic * bool) :=
  match fuel with
  | 0 => None
  | S fuel =>
      match t_topics t !! name with
      | Some tp => Some (tp, true)
      | None =>
          match t_aliases t !! name with
          | Some aliased => lookUp fuel t aliased
          | None => Some (zeroTopic, false)
          end
      end
  end.

(** [topics.add] *)
Definition add (fuel : nat) (t : topics) (tp : topic)
    : option (topics * option error) :=
  '(_, found) ← lookUp fuel t (topic_name tp);
  if found : bool then
    Some (t, Some (Errorf "help topic already added: %s" [topic_name tp]))
  else
    Some (mkTopics (t_order t ++ [topic_name tp])
                   (<[topic_name tp := tp]> (t_topics t))
                   (t_aliases t),
          None).

(** [topics.addAlias] *)
Definition addAlias (fuel : nat) (t : topics) (name alias : string)
    : option (topics * option error) :=
  match t_topics t !! name with
  | None => Some (t, Some (Errorf "topic %q not found" [name]))
  | Some _ =>
      '(_, ok) ← lookUp fuel t alias;
      if negb ok then
        Some (t, Some (Errorf "topic %q already added" [alias]))
      else
        Some (mkTopics (t_order t ++ [alias])
                       (t_topics t)
                       (<[alias := name]> (t_aliases t)),
              None)
  end.

(** [topics.remove] *)
Definition remove (t : topics) (name : string) : topics * topic :=
  match t_topics t !! name with
  | None =>
      match t_aliases t !! name with
      | None => (t, zeroTopic)
      | Some _ =>
          (mkTopics (fst (removeString (t_order t) name))
                    (t_topics t)
                    (delete name (t_aliases t)),
           zeroTopic)
      end
  | Some tp =>
      (mkTopics (fst (removeString (t_order t) name))
                (delete name (t_topics t))
                (t_aliases t),
       tp)
  end.

(** [topics.removeWithAliases] *)
Definition removeWithAliases (t : topics) (name : string) : topics * topic :=
  let '(t, tp) := remove t name in
  if decide (topic_name tp = "") then (t, tp)
  else
    (foldl (λ t alias,
              match t_topics t !! alias with
              | Some _ => t
              | None => fst (remove t alias)
              end)
           t (topic_aliases tp),
     tp).

(** The loop of [topics.addWithAliases] over the aliases that are left,
    [added] being the aliases added so far. *)
Fixpoint addWithAliases_loop (fuel : nat) (t : topics) (tp : topic)
    (added : list string) (aliases : list string)
    : option (topics * option error) :=
  match aliases with
  | [] => Some (t, None)
  | alias :: aliases =>
      r ← addAlias fuel t (topic_name tp) alias;
      match r : topics * option error with
      | (t, Some err) =>
          let t := fst (remove t (topic_name tp)) in
          Some (foldl (λ t name, fst (remove t name)) t added, Some err)
      | (t, None) => addWithAliases_loop fuel t tp (added ++ [alias]) aliases
      end
  end.

(** [topics.addWithAliases] *)
Definition addWithAliases (fuel : nat) (t : topics) (tp : topic)
    : option (topics * option error) :=
  r ← add fuel t tp;
  match r : topics * option error with
  | (t, Some err) => Some (t, Some err)
  | (t, None) => addWithAliases_loop fuel t tp [] (topic_aliases tp)
  end.

(** [newTopics]: on an error the topics added so far are returned with
    it. *)
Fixpoint newTopics_loop (fuel : nat) (t : topics) (initial : list topic)
    : option (topics * option error) :=
  match initial with
  | [] => Some (t, None)
  | tp :: initial =>
      r ← addWithAliases fuel t tp;
      match r : topics * option error with
      | (t, Some err) => Some (t, Some err)
      | (t, None) => newTopics_loop fuel t initial
      end
  end.

Definition newTopics (fuel : nat) (initial : list topic)
    : option (topics * option error) :=
  newTopics_loop fuel (mkTopics [] ∅ ∅) initial.

End topics_ordered.

(** The store once [addAlias] took the aliases [accepted] for [name]. *)
Definition topics_ordered_aliased (t : topics_ordered.topics) (name : string)
    (accepted : list string) : topics_ordered.topics :=
  topics_ordered.mkTopics
    (topics_ordered.t_order t ++ accepted)
    (topics_ordered.t_topics t)
    (foldl (λ m a, <[a := name]> m) (topics_ordered.t_aliases t) accepted).

Section registry_lemmas.
Implicit Types (reg : Registry) (a action : Action) (n name alias : string).

Lemma LookUp_single reg n :
  LookUp reg [n] =
    match lookUp reg n with
    | (a, true) => (a, bool_decide (Action_Name a ≠ ""))
    | (_, false) => (zeroAction, false)
    end.
Proof.
  unfold LookUp. simpl. destruct (lookUp reg n) as [a [|]].
  - assert (H : match Action_Command a with
                | Some (SuperCmd _ super) => a
                | _ => a end = a).
    { destruct (Action_Command a) as [[]|]; reflexivity. }
    rewrite H. destruct (decide (Action_Name a ≠ "")) as [Hn|Hn].
    + by rewrite bool_decide_eq_true_2.
    + by rewrite bool_decide_eq_false_2.
  - reflexivity.
Qed.

Lemma found_iff reg n : wf reg → found reg n = true ↔ n ∈ reg_order reg.
Proof.
  intros Hwf. unfold found. rewrite LookUp_single, (wf_order _ Hwf). unfold lookUp.
  destruct (reg_actions reg !! n) as [a|] eqn:Ha.
  - destruct (wf_canonical _ Hwf _ _ Ha) as [-> Hne]. simpl.
    rewrite bool_decide_eq_true. split; [|done]. intros _. left. by eexists.
  - destruct (reg_aliases reg !! n) as [t|] eqn:Ht.
    + destruct (wf_target _ Hwf _ _ Ht) as [a' Ha']. rewrite Ha'. simpl.
      rewrite bool_decide_eq_true. split; [intros _; right; by eexists|].
      intros _. apply (wf_alias _ Hwf). by eexists.
    + simpl. split; [done|]. intros [[? ?]|[? ?]]; done.
Qed.

Lemma Add_spec reg a :
  Add reg a =
    match Validate a with
    | Some err => (reg, Some err)
    | None =>
        if found reg (Action_Name a) then
          (reg, Some (Errorf "command %q already registered" [Action_Name a]))
        else
          (mkRegistry (reg_order reg ++ [Action_Name a])
                      (<[Action_Name a := a]> (reg_actions reg))
                      (reg_aliases reg) (reg_defaultName reg), None)
    end.
Proof. reflexivity. Qed.

Lemma Add_failed reg a reg' err : Add reg a = (reg', Some err) → reg' = reg.
Proof.
  rewrite Add_spec. destruct (Validate a); [congruence|].
  destruct (found reg (Action_Name a)); congruence.
Qed.

Lemma AddAlias_failed reg name alias reg' err :
  AddAlias reg name alias = (reg', Some err) → reg' = reg.
Proof.
  unfold AddAlias. destruct (reg_actions reg !! name); [|congruence].
  destruct (snd (LookUp reg [alias])); congruence.
Qed.

Lemma Validate_None a :
  Validate a = None ↔ Action_Name a ≠ "" ∧ is_Some (Action_Command a).
Proof.
  unfold Validate. destruct (decide (Action_Name a = "")) as [->|Hn].
  - split; [done|]. intros [? _]; done.
  - destruct (Action_Command a).
    + split; [|done]. intros _. split; [done|by eexists].
    + split; [done|]. intros [_ [? ?]]; done.
Qed.

Lemma Add_succeeds reg a :
  wf reg →
  snd (Add reg a) = None ↔
    Action_Name a ≠ "" ∧ is_Some (Action_Command a) ∧ Action_Name a ∉ reg_order reg.
Proof.
  intros Hwf. rewrite Add_spec. rewrite <-(found_iff _ _ Hwf).
  destruct (Validate a) eqn:Hv.
  - simpl. split; [done|]. intros (? & ? & _).
    assert (Validate a = None) by (by apply Validate_None). congruence.
  - apply Validate_None in Hv as [? ?].
    destruct (found reg (Action_Name a)); simpl.
    + split; [done|]. intros (_ & _ & ?). done.
    + split; [|done]. intros _. split_and!; [done..|]. done.
Qed.

Lemma Add_wf reg a reg' : wf reg → Add reg a = (reg', None) → wf reg'.
Proof.
  intros Hwf Hadd.
  assert (Hs : snd (Add reg a) = None) by (by rewrite Hadd).
  apply Add_succeeds in Hs as (Hne & Hcmd & Hfresh); [|done].
  rewrite Add_spec in Hadd.
  destruct (Validate a); [done|]. destruct (found reg (Action_Name a)); [done|].
  injection Hadd as <-.
  assert (Hnone : reg_actions reg !! Action_Name a = None ∧
                  reg_aliases reg !! Action_Name a = None).
  { rewrite (wf_order _ Hwf) in Hfresh.
    split; apply eq_None_not_Some; intros ?; apply Hfresh; auto. }
  destruct Hnone as [Hact Hali].
  split; simpl.
  - apply NoDup_app. split_and!; [apply Hwf| |apply NoDup_singleton].
    intros x Hx ->%list_elem_of_singleton. done.
  - intros n. rewrite elem_of_app, list_elem_of_singleton, (wf_order _ Hwf).
    rewrite lookup_insert_is_Some. clear.
    destruct (decide (Action_Name a = n)); intuition (subst; auto).
  - intros n b. rewrite lookup_insert_Some. intros [[<- <-]|[_ Hb]]; [done|].
    by apply (wf_canonical _ Hwf).
  - intros n t Ht. rewrite lookup_insert_is_Some.
    destruct (decide (Action_Name a = t)); [by left|right]. split; [done|].
    by apply (wf_target _ Hwf n).
  - intros n. rewrite lookup_insert_is_Some. intros [<-|[_ Hn]]; [done|].
    by apply (wf_disjoint _ Hwf).
  - apply (wf_alias _ Hwf).
Qed.

Lemma AddAlias_spec reg name alias :
  AddAlias reg name alias =
    match reg_actions reg !! name with
    | None => (reg, Some (Errorf "action %q not found" [name]))
    | Some _ =>
        if found reg alias then
          (reg, Some (Errorf "action %q already added" [alias]))
        else
          (mkRegistry (reg_order reg ++ [alias]) (reg_actions reg)
                      (<[alias := name]> (reg_aliases reg))
                      (reg_defaultName reg), None)
    end.
Proof. reflexivity. Qed.

Lemma AddAlias_succeeds reg name alias :
  wf reg →
  snd (AddAlias reg name alias) = None ↔
    is_Some (reg_actions reg !! name) ∧ alias ∉ reg_order reg.
Proof.
  intros Hwf. rewrite AddAlias_spec, <-(found_iff _ _ Hwf).
  destruct (reg_actions reg !! name).
  - destruct (found reg alias); simpl.
    + split; [done|]. by intros [_ ?].
    + split; [|done]. intros _. split; [by eexists|done].
  - simpl. split; [done|]. intros [[? ?] _]; done.
Qed.

Lemma AddAlias_wf reg name alias reg' :
  wf reg → alias ≠ "" → AddAlias reg name alias = (reg', None) → wf reg'.
Proof.
  intros Hwf Hne Hadd.
  assert (Hs : snd (AddAlias reg name alias) = None) by (by rewrite Hadd).
  apply AddAlias_succeeds in Hs as (Hname & Hfresh); [|done].
  rewrite AddAlias_spec in Hadd. destruct Hname as [b Hb]. rewrite Hb in Hadd.
  destruct (found reg alias); [done|]. injection Hadd as <-.
  assert (Hnone : reg_actions reg !! alias = None ∧
                  reg_aliases reg !! alias = None).
  { rewrite (wf_order _ Hwf) in Hfresh.
    split; apply eq_None_not_Some; intros ?; apply Hfresh; auto. }
  destruct Hnone as [Hact Hali].
  split; simpl.
  - apply NoDup_app. split_and!; [apply Hwf| |apply NoDup_singleton].
    intros x Hx ->%list_elem_of_singleton. done.
  - intros n. rewrite elem_of_app, list_elem_of_singleton, (wf_order _ Hwf).
    rewrite lookup_insert_is_Some. clear.
    destruct (decide (alias = n)); intuition (subst; auto).
  - apply (wf_canonical _ Hwf).
  - intros n t. rewrite lookup_insert_Some. intros [[<- <-]|[_ Ht]]; [by eexists|].
    by apply (wf_target _ Hwf n).
  - intros n Hn. rewrite lookup_insert_None. split.
    + by apply (wf_disjoint _ Hwf).
    + intros <-. rewrite Hact in Hn. by destruct Hn.
  - intros n. rewrite lookup_insert_is_Some. intros [<-|[_ Hn]]; [done|].
    by apply (wf_alias _ Hwf).
Qed.

Lemma point_at_snoc name added alias (m : gmap string string) :
  <[alias := name]> (point_at name added m) = point_at name (added ++ [alias]) m.
Proof.
  unfold point_at. rewrite foldr_app. simpl.
  induction added as [|x added IH]; simpl; [done|].
  rewrite <-IH. destruct (decide (alias = x)) as [->|Hne].
  - by rewrite insert_insert_eq.
  - by apply insert_insert_ne.
Qed.

Lemma point_at_lookup_fresh name added alias (m : gmap string string) :
  alias ∉ added → point_at name added m !! alias = m !! alias.
Proof.
  induction added as [|x added IH]; simpl; [done|].
  rewrite not_elem_of_cons. intros [Hne Hnotin].
  rewrite lookup_insert_ne by done. by apply IH.
Qed.

Lemma removeString_fresh l x l' :
  x ∉ l → removeString (l ++ x :: l') x = (l ++ l', true).
Proof.
  induction l as [|y l IH]; simpl.
  - intros _. by rewrite decide_True.
  - rewrite not_elem_of_cons. intros [Hne Hnotin].
    rewrite decide_False by done. by rewrite IH.
Qed.

Lemma eta_Registry reg :
  mkRegistry (reg_order reg) (reg_actions reg) (reg_aliases reg)
             (reg_defaultName reg) = reg.
Proof. by destruct reg. Qed.

Lemma rollback_aliases base name added :
  NoDup added →
  (∀ alias, alias ∈ added →
            (alias ∉ reg_order base) ∧ reg_actions base !! alias = None
            ∧ reg_aliases base !! alias = None) →
  foldl (λ r alias, fst (remove r alias))
        (mkRegistry (reg_order base ++ added) (reg_actions base)
                    (point_at name added (reg_aliases base))
                    (reg_defaultName base))
        added = base.
Proof.
  induction added as [|x added IH]; simpl.
  - intros _ _. rewrite app_nil_r. apply eta_Registry.
  - intros [Hx Hnd]%NoDup_cons Hfresh.
    destruct (Hfresh x) as (Hord & Hact & Hali); [by left|].
    unfold remove at 2. simpl. rewrite Hact, lookup_insert_eq. simpl.
    rewrite removeString_fresh by done. simpl.
    rewrite delete_insert_eq, delete_id
      by (by rewrite point_at_lookup_fresh).
    apply IH; [done|]. intros alias Hin. apply Hfresh. by right.
Qed.

Lemma fresh_lookups reg n :
  wf reg → n ∉ reg_order reg →
  reg_actions reg !! n = None ∧ reg_aliases reg !! n = None.
Proof.
  intros Hwf Hn. rewrite (wf_order _ Hwf) in Hn.
  split; apply eq_None_not_Some; intros ?; apply Hn; auto.
Qed.

Lemma rollback_extended base a added :
  wf base → Action_Name a ∉ reg_order base → NoDup added →
  (∀ alias, alias ∈ added → (alias ∉ reg_order base) ∧ alias ≠ Action_Name a) →
  rollback (extended base a added) (Action_Name a) added = base.
Proof.
  intros Hwf Hname Hnd Hfresh. unfold rollback, remove at 2, extended. simpl.
  rewrite lookup_insert_eq. simpl.
  rewrite removeString_fresh by done. simpl.
  destruct (fresh_lookups _ _ Hwf Hname) as [Hact _].
  rewrite delete_insert_eq, delete_id by done.
  apply rollback_aliases; [done|]. intros alias Hin.
  destruct (Hfresh _ Hin) as [Hord _].
  destruct (fresh_lookups _ _ Hwf Hord). done.
Qed.

Lemma AddWithAliases_loop_spec base a :
  wf base → Action_Name a ∉ reg_order base →
  ∀ aliases added,
    Forall (λ alias, alias ≠ "") aliases →
    wf (extended base a added) → NoDup added →
    (∀ alias, alias ∈ added → (alias ∉ reg_order base) ∧ alias ≠ Action_Name a) →
    match AddWithAliases_loop (extended base a added) (Action_Name a)
                              aliases added with
    | (r, None) =>
        r = extended base a (added ++ aliases) ∧ wf r
        ∧ NoDup (added ++ aliases)
        ∧ (∀ alias, alias ∈ added ++ aliases →
                    (alias ∉ reg_order base) ∧ alias ≠ Action_Name a)
    | (r, Some _) =>
        r = base
        ∧ ¬ (NoDup (added ++ aliases)
             ∧ ∀ alias, alias ∈ added ++ aliases →
                        (alias ∉ reg_order base) ∧ alias ≠ Action_Name a)
    end.
Proof.
  intros Hwf Hname aliases.
  induction aliases as [|alias aliases IH]; intros added Hne Hcur Hnd Hfresh;
    simpl.
  - rewrite app_nil_r. done.
  - apply Forall_cons in Hne as [Hne Hnes].
    destruct (AddAlias (extended base a added) (Action_Name a) alias)
      as [reg' [err|]] eqn:Hadd.
    + apply AddAlias_failed in Hadd as Hreg'. subst reg'.
      split; [by apply rollback_extended|].
      intros [Hnd' Hfresh'].
      assert (Hs : snd (AddAlias (extended base a added) (Action_Name a) alias)
                   ≠ None) by (by rewrite Hadd).
      apply Hs, AddAlias_succeeds; [done|]. split.
      * simpl. rewrite lookup_insert_eq. by eexists.
      * simpl. rewrite elem_of_app, elem_of_cons.
        destruct (Hfresh' alias) as [? ?]; [apply elem_of_app; right; by left|].
        apply NoDup_app in Hnd' as (_ & Hdisj & _).
        intros [?|[?|Hin]]; [done..|]. apply (Hdisj _ Hin). by left.
    + assert (Hs : snd (AddAlias (extended base a added) (Action_Name a) alias)
                   = None) by (by rewrite Hadd).
      apply AddAlias_succeeds in Hs as [_ Hnotin]; [|done].
      simpl in Hnotin. rewrite elem_of_app, elem_of_cons in Hnotin.
      assert (Hreg' : reg' = extended base a (added ++ [alias])).
      { rewrite AddAlias_spec in Hadd. simpl in Hadd.
        rewrite lookup_insert_eq in Hadd.
        destruct (found (extended base a added) alias); [done|].
        injection Hadd as <-. unfold extended. simpl.
        rewrite point_at_snoc. f_equal. by rewrite <-app_assoc. }
      assert (Hwf' : wf reg') by (by eapply AddAlias_wf).
      subst reg'. specialize (IH (added ++ [alias]) Hnes Hwf').
      rewrite <-(app_assoc added [alias] aliases) in IH. simpl in IH.
      apply IH.
      * apply NoDup_app. split_and!; [done| |apply NoDup_singleton].
        intros x Hx ->%list_elem_of_singleton. tauto.
      * intros x [Hx| ->%list_elem_of_singleton]%elem_of_app; [by apply Hfresh|].
        split; [tauto|]. intros ->. tauto.
Qed.

(** What [AddWithAliases] does to a registry that satisfies the invariants,
    for aliases that are not empty: it either registers every name, or
    fails and leaves the registry as it was. *)
Lemma AddWithAliases_spec reg a :
  wf reg → Forall (λ alias, alias ≠ "") (Action_Aliases a) →
  let names := Action_Name a :: Action_Aliases a in
  let free := Action_Name a ≠ "" ∧ is_Some (Action_Command a) ∧ NoDup names
              ∧ ∀ n, n ∈ names → n ∉ reg_order reg in
  match AddWithAliases reg a with
  | (r, None) => wf r ∧ reg_order r = reg_order reg ++ names ∧ free
  | (r, Some _) => r = reg ∧ ¬ free
  end.
Proof.
  intros Hwf Hne. simpl. unfold AddWithAliases.
  destruct (Add reg a) as [reg' [err|]] eqn:Hadd.
  - apply Add_failed in Hadd as Hreg'. split; [done|].
    intros (? & ? & _ & Hfree).
    assert (Hs : snd (Add reg a) ≠ None) by (by rewrite Hadd).
    apply Hs, Add_succeeds; [done|]. split_and!; [done..|].
    apply Hfree. by left.
  - assert (Hs : snd (Add reg a) = None) by (by rewrite Hadd).
    apply Add_succeeds in Hs as (Hname & Hcmd & Hfresh); [|done].
    assert (Hwf' : wf reg') by (by eapply Add_wf).
    assert (Hreg' : reg' = extended reg a []).
    { rewrite Add_spec in Hadd. destruct (Validate a); [done|].
      destruct (found reg (Action_Name a)); [done|]. by injection Hadd as <-. }
    subst reg'.
    pose proof (AddWithAliases_loop_spec reg a Hwf Hfresh (Action_Aliases a) []
                  Hne Hwf' NoDup_nil_2) as Hloop.
    destruct (AddWithAliases_loop (extended reg a []) (Action_Name a)
                (Action_Aliases a) []) as [r [err|]]; simpl in Hloop.
    + destruct Hloop as [-> Hnot]; [intros ? []%elem_of_nil|].
      split; [done|]. intros (_ & _ & Hnd & Hfree). apply Hnot.
      apply NoDup_cons in Hnd as [Hhead Hnd]. split; [done|].
      intros alias Hin. split; [apply Hfree; by right|]. by intros ->.
    + destruct Hloop as (-> & Hr & Hnd & Hfree); [intros ? []%elem_of_nil|].
      split_and!; [done..| |].
      * apply NoDup_cons. split; [|done]. intros Hin.
        by destruct (Hfree _ Hin).
      * intros n [->|Hin]%elem_of_cons; [done|]. by destruct (Hfree _ Hin).
Qed.

Lemma AddWithAliases_wf reg a :
  wf reg → Forall (λ alias, alias ≠ "") (Action_Aliases a) →
  wf (fst (AddWithAliases reg a)).
Proof.
  intros Hwf Hne. pose proof (AddWithAliases_spec reg a Hwf Hne) as H.
  destruct (AddWithAliases reg a) as [r [err|]]; simpl in *.
  - by destruct H as [-> _].
  - by destruct H as [? _].
Qed.

Lemma emptyRegistry_wf : wf emptyRegistry.
Proof.
  split; simpl.
  - apply NoDup_nil_2.
  - intros n. rewrite !lookup_empty. split.
    + by intros ?%elem_of_nil.
    + intros [[? ?]|[? ?]]; done.
  - intros n a. by rewrite lookup_empty.
  - intros n t. by rewrite lookup_empty.
  - intros n. rewrite lookup_empty. by intros [? ?].
  - intros n. rewrite lookup_empty. by intros [? ?].
Qed.

Lemma register_wf reg r :
  wf reg → Forall (λ alias, alias ≠ "") (aliases_of r) →
  wf (fst (register reg r)).
Proof.
  intros Hwf Hne. destruct r as [a|name alias|a]; simpl in *.
  - destruct (Add reg a) as [reg' [err|]] eqn:Hadd; simpl.
    + by apply Add_failed in Hadd as ->.
    + by eapply Add_wf.
  - destruct (AddAlias reg name alias) as [reg' [err|]] eqn:Hadd; simpl.
    + by apply AddAlias_failed in Hadd as ->.
    + apply Forall_cons in Hne as [? _]. by eapply AddAlias_wf.
  - by apply AddWithAliases_wf.
Qed.

Lemma registerAll_wf reg rs :
  wf reg → Forall (λ r, Forall (λ alias, alias ≠ "") (aliases_of r)) rs →
  wf (registerAll reg rs).
Proof.
  revert reg. induction rs as [|r rs IH]; intros reg Hwf Hne; simpl; [done|].
  apply Forall_cons in Hne as [Hr Hrs]. apply IH; [|done].
  by apply register_wf.
Qed.

(** A call that succeeds appends its names to the order, whatever the
    registry was. *)
Lemma Add_order reg a reg' :
  Add reg a = (reg', None) → reg_order reg' = reg_order reg ++ [Action_Name a].
Proof.
  rewrite Add_spec. destruct (Validate a); [done|].
  destruct (found reg (Action_Name a)); [done|]. by intros [= <-].
Qed.

Lemma AddAlias_order reg name alias reg' :
  AddAlias reg name alias = (reg', None) →
  reg_order reg' = reg_order reg ++ [alias].
Proof.
  rewrite AddAlias_spec. destruct (reg_actions reg !! name); [|done].
  destruct (found reg alias); [done|]. by intros [= <-].
Qed.

Lemma AddWithAliases_loop_order name aliases : ∀ reg added reg',
  AddWithAliases_loop reg name aliases added = (reg', None) →
  reg_order reg' = reg_order reg ++ aliases.
Proof.
  induction aliases as [|alias aliases IH]; intros reg added reg'; simpl.
  - intros [= <-]. by rewrite app_nil_r.
  - destruct (AddAlias reg name alias) as [reg1 [err|]] eqn:Hadd; [done|].
    intros Hloop. apply IH in Hloop. apply AddAlias_order in Hadd.
    by rewrite Hloop, Hadd, <-app_assoc.
Qed.

Lemma register_order reg r reg' :
  register reg r = (reg', None) → reg_order reg' = reg_order reg ++ names_of r.
Proof.
  destruct r as [a|name alias|a]; simpl.
  - apply Add_order.
  - apply AddAlias_order.
  - unfold AddWithAliases. destruct (Add reg a) as [reg1 [err|]] eqn:Hadd; [done|].
    intros Hloop%AddWithAliases_loop_order. apply Add_order in Hadd.
    by rewrite Hloop, Hadd, <-app_assoc.
Qed.

Lemma registerEach_order rs : ∀ reg reg',
  registerEach reg rs = Some reg' →
  reg_order reg' = reg_order reg ++ concat (names_of <$> rs).
Proof.
  induction rs as [|r rs IH]; intros reg reg'; simpl.
  - intros [= <-]. by rewrite app_nil_r.
  - destruct (register reg r) as [reg1 [err|]] eqn:Hreg; [done|].
    intros Hrs%IH. apply register_order in Hreg.
    by rewrite Hrs, Hreg, <-app_assoc.
Qed.

Lemma copy_make_strings (l : list string) :
  copy_strings (make_strings (length l)) l = l.
Proof.
  unfold copy_strings, make_strings. rewrite length_replicate, Nat.min_id.
  rewrite firstn_all. rewrite drop_ge by (by rewrite length_replicate).
  apply app_nil_r.
Qed.

Lemma Names_order reg : Names reg = reg_order reg.
Proof. apply copy_make_strings. Qed.
End registry_lemmas.

(** ** Resolution of a path *)

(** C1: [Registry.LookUp] with a path of more than one element.  The
    path ["s" "l"] resolves to the leaf of the nested super-command.  But
    once the first element resolved to an action [a], [LookUp] reports [a]
    as found also when the path goes on and cannot be followed: when [a]
    wraps no super-command, and when the next element is missing from the
    nested registry.  The doc comment of [LookUp] promises [false] there. *)
Theorem LookUp_partial_path_found (reg : Registry) (name : string)
    (rest : list string) (a : Action) :
  lookUp reg name = (a, true) →
  Action_Name a ≠ "" →
  match Action_Command a with
  | Some (SuperCmd _ super) =>
      match super_subcmds super, rest with
      | Some sub, next :: _ => snd (lookUp sub next) = false
      | _, _ => True
      end
  | _ => True
  end →
  LookUp reg (name :: rest) = (a, true).
Proof.
  intros Hlook Hname Hrest. unfold LookUp. simpl. rewrite Hlook.
  assert (Hloop : match Action_Command a with
                  | Some (SuperCmd _ super) =>
                      LookUp_loop (super_subcmds super) a rest
                  | _ => a
                  end = a).
  { destruct (Action_Command a) as [[| | |ptr super]|]; try reflexivity.
    destruct (super_subcmds super) as [sub|], rest as [|next rest];
      try reflexivity.
    simpl. destruct (lookUp sub next) as [b ok]. simpl in Hrest.
    by subst ok. }
  rewrite Hloop. by rewrite decide_True.
Qed.

(** The path that can be followed: a leaf of a nested super-command is
    found under the two names. *)
Lemma LookUp_nested (reg sub : Registry) (name leaf : string)
    (a b : Action) (ptr : positive) (super : SuperCommand) :
  lookUp reg name = (a, true) →
  Action_Command a = Some (SuperCmd ptr super) →
  super_subcmds super = Some sub →
  lookUp sub leaf = (b, true) →
  Action_Name b ≠ "" →
  LookUp reg [name; leaf] = (b, true).
Proof.
  intros Ha Hcmd Hsub Hb Hname. unfold LookUp. simpl.
  rewrite Ha, Hcmd. simpl. rewrite Hsub, Hb.
  assert (Hend : match Action_Command b with
                 | Some (SuperCmd _ super') => b
                 | _ => b
                 end = b) by (by destruct (Action_Command b) as [[]|]).
  rewrite Hend. by rewrite decide_True.
Qed.

Lemma LookUp_partial_path_found_witness :
  LookUp registry_D ["s"; "l"] =
    (mkAction "l" "" (Some (leafCommand 3 "l" [])) [] "", true)
  ∧ LookUp registry_D ["leafname"; "anything"] =
      (mkAction "leafname" "" (Some (leafCommand 4 "leafname" [])) [] "", true)
  ∧ LookUp registry_D ["s"; "x"] =
      (mkAction "s" "" (Some (SuperCmd 10 super_S)) [] "", true).
Proof.
  split; [vm_compute; reflexivity|]. split.
  - apply (LookUp_partial_path_found registry_D "leafname" ["anything"]).
    + vm_compute; reflexivity.
    + discriminate.
    + exact I.
  - apply (LookUp_partial_path_found registry_D "s" ["x"]).
    + vm_compute; reflexivity.
    + discriminate.
    + vm_compute; reflexivity.
Defined.

(** ** A sub-command that is not registered *)

(** C2: [SuperCommand.Init] with a missing-command call-back and a first
    argument that the registry does not know.  [Init] builds the
    [missingCommand] and hands it to [newActionFromCommand], which calls
    [Info] on it; [missingCommand.Info] returns [nil], so reading
    [info.Name] faults and [Init] does not return. *)
Theorem Init_missing_command_panics (new_missingCommand : positive)
    (parseFlags : SuperCommand → Command → list string
                  → result (error + list string * bool))
    (Command_Init : Command → list string → result (option error))
    (c : SuperCommand) (callback : MissingCallback)
    (name : string) (args : list string) :
  super_showDescription c = false →
  super_missingCallback c = Some callback →
  (∀ reg, super_subcmds c = Some reg → found reg name = false) →
  Init new_missingCommand parseFlags Command_Init c (name :: args)
  = Panicked PanicNilDereference.
Proof.
  intros Hdesc Hcb Hmiss. unfold Init. rewrite Hdesc, Hcb.
  destruct (super_subcmds c) as [reg|] eqn:Hreg.
  - specialize (Hmiss reg eq_refl). unfold found in Hmiss.
    unfold subcmds_LookUp, mbind, result_bind.
    destruct (LookUp reg [name]) as [a ok]. simpl in Hmiss. subst ok.
    reflexivity.
  - reflexivity.
Qed.

Lemma Init_missing_command_panics_witness :
  Init 20 (λ _ _ args, Returned (inr (args, false))) (λ _ _, Returned None)
       super_with_callback ["frobnicate"; "--force"]
  = Panicked PanicNilDereference.
Proof.
  apply (Init_missing_command_panics 20 _ _ super_with_callback sample_callback).
  - reflexivity.
  - reflexivity.
  - intros reg [= <-]. vm_compute. reflexivity.
Defined.

(** ** Rolling back [AddWithAliases] *)

(** C3: [Registry.AddWithAliases] where the third of three aliases
    collides.  With the empty string among the aliases the roll-back is
    incomplete: [AddAlias] takes the empty alias twice, since [LookUp]
    never reports it as found, and [remove] drops only one of the two
    entries of the order; the registry is left with a name it did not
    have.  When the empty string already was an alias, the roll-back
    deletes that older alias. *)
Theorem AddWithAliases_rollback_incomplete :
  let a := mkAction "a" "" (Some (leafCommand 6 "a" [])) [""; ""; "x"] "" in
  let b := mkAction "a" "" (Some (leafCommand 6 "a" [])) [""; "x"] "" in
  snd (AddWithAliases registry_x a) = Some (Errorf "action %q already added" ["x"])
  ∧ Names registry_x = ["x"]
  ∧ Names (fst (AddWithAliases registry_x a)) = ["x"; ""]
  ∧ snd (AddWithAliases registry_x_empty_alias b)
    = Some (Errorf "action %q already added" ["x"])
  ∧ reg_aliases registry_x_empty_alias !! "" = Some "x"
  ∧ reg_aliases (fst (AddWithAliases registry_x_empty_alias b)) !! "" = None.
Proof. vm_compute. repeat split. Qed.

(** ** The invariants of the registry *)

(** C7: a sequence of [Add] and [AddAlias] calls from a new registry after
    which a name is twice in the order.  [AddAlias] does not reject the
    empty alias, and [LookUp] does not report it as found, so it can be
    added again and again; every call returns [nil]. *)
Theorem registerAll_repeats_empty_alias :
  let calls := [DoAdd (mkAction "x" "" (Some (leafCommand 2 "x" [])) [] "");
                DoAddAlias "x" ""; DoAddAlias "x" ""] in
  registerEach emptyRegistry calls = Some (registerAll emptyRegistry calls)
  ∧ reg_order (registerAll emptyRegistry calls) = ["x"; ""; ""]
  ∧ ¬ NoDup (reg_order (registerAll emptyRegistry calls)).
Proof.
  intros calls.
  assert (H : reg_order (registerAll emptyRegistry calls) = ["x"; ""; ""])
    by (vm_compute; reflexivity).
  split; [vm_compute; reflexivity|]. split; [exact H|].
  rewrite H. intros [_ [Hin _]%NoDup_cons]%NoDup_cons.
  apply Hin. by left.
Qed.

(** ** Alias views *)

(** C4 as stated fails: the alias view does not keep the [Aliases] of the
    canonical action. *)
Lemma alias_view_drops_aliases :
  ∃ canonical,
    reg_actions registry_deprecated !! "install" = Some canonical
    ∧ reg_aliases registry_deprecated !! "setup" = Some "install"
    ∧ Action_Aliases canonical = ["setup"]
    ∧ Action_Aliases (fst (lookUp registry_deprecated "setup")) = []
    ∧ Action_Aliases (fst (lookUp registry_deprecated "setup"))
      ≠ Action_Aliases canonical.
Proof.
  eexists. split; [vm_compute; reflexivity|]. split; [vm_compute; reflexivity|].
  split; [vm_compute; reflexivity|]. split; [vm_compute; reflexivity|].
  vm_compute. discriminate.
Qed.

(** C4, amended: in a registry that satisfies the invariants, looking up an
    alias finds a new action whose [Name] is the alias, whose
    [AliasedName] is the canonical name, and whose [Command] is the very
    command of the canonical action; its [Aliases] are empty, whatever
    aliases the canonical action has. *)
Theorem lookUp_alias_view (reg : Registry) (alias name : string) :
  wf reg →
  reg_aliases reg !! alias = Some name →
  ∃ canonical view,
    reg_actions reg !! name = Some canonical
    ∧ Action_Name canonical = name
    ∧ lookUp reg alias = (view, true)
    ∧ Action_Name view = alias
    ∧ Action_AliasedName view = name
    ∧ Action_Command view = Action_Command canonical
    ∧ Action_Aliases view = [].
Proof.
  intros Hwf Halias.
  destruct (wf_target _ Hwf _ _ Halias) as [canonical Hcanon].
  destruct (wf_canonical _ Hwf _ _ Hcanon) as [Hname _].
  exists canonical, (NewAlias canonical alias).
  assert (Hnone : reg_actions reg !! alias = None).
  { destruct (reg_actions reg !! alias) eqn:Ha; [|done].
    assert (reg_aliases reg !! alias = None)
      by (apply (wf_disjoint _ Hwf); by eexists).
    congruence. }
  split_and!; [done..| |done|done|done|done].
  unfold lookUp. by rewrite Hnone, Halias, Hcanon.
Qed.

Lemma wf_defaultName reg d :
  wf reg → wf (mkRegistry (reg_order reg) (reg_actions reg) (reg_aliases reg) d).
Proof. intros [? ? ? ? ? ?]. by split. Qed.

Lemma registry_deprecated_wf : wf registry_deprecated.
Proof.
  assert (H : registry_deprecated =
    let reg := registerAll emptyRegistry
      [DoAddWithAliases (mkAction "help" "" (Some helpCommand) [] "");
       DoAddWithAliases (mkAction "install" ""
                           (Some (leafCommand 5 "install" ["setup"]))
                           ["setup"] "deploy")] in
    mkRegistry (reg_order reg) (reg_actions reg) (reg_aliases reg) "help")
    by (vm_compute; reflexivity).
  rewrite H. apply wf_defaultName, registerAll_wf; [apply emptyRegistry_wf|].
  repeat constructor. discriminate.
Qed.

Lemma lookUp_alias_view_witness :
  ∃ canonical view,
    reg_actions registry_deprecated !! "install" = Some canonical
    ∧ Action_Name canonical = "install"
    ∧ lookUp registry_deprecated "setup" = (view, true)
    ∧ Action_Name view = "setup"
    ∧ Action_AliasedName view = "install"
    ∧ Action_Command view = Action_Command canonical
    ∧ Action_Aliases view = [].
Proof.
  apply (lookUp_alias_view registry_deprecated "setup" "install").
  - apply registry_deprecated_wf.
  - vm_compute. reflexivity.
Defined.

(** ** Errors of the run step *)

(** C5: [SuperCommand.run] returns [ErrSilent] and pass-through errors as
    they are; any other error is logged once, at error level, and
    [ErrSilent] is returned in its place.  Nothing but [ErrSilent] or a
    pass-through error leaves [run]. *)
Theorem run_classifies_errors
    (Command_Run : Command → result (option error)) (c : SuperCommand)
    (r : option error) :
  Action_Run Command_Run (super_action c) = Returned r →
  ∃ out logs,
    run Command_Run c = Returned (out, logs)
    ∧ match r with
      | None => out = None ∧ logged_errors logs = []
      | Some e =>
          if decide (e = ErrSilent) then
            out = Some e ∧ logged_errors logs = []
          else if IsRcPassthroughError e then
            out = Some e ∧ logged_errors logs = [e]
          else out = Some ErrSilent ∧ logged_errors logs = [e]
      end
    ∧ ∀ e', out = Some e' → e' = ErrSilent ∨ IsRcPassthroughError e' = true.
Proof.
  intros Hrun. unfold run. rewrite Hrun. simpl.
  destruct r as [e|].
  - destruct (decide (e = ErrSilent)) as [->|Hne].
    + rewrite decide_False by (by intros ?). do 2 eexists.
      split; [reflexivity|]. split; [done|]. intros e' [= <-]. by left.
    + rewrite decide_True by done.
      destruct (IsRcPassthroughError e) eqn:Hrc; simpl; do 2 eexists;
        (split; [reflexivity|]); (split; [done|]); intros e' [= <-]; auto.
  - do 2 eexists. split; [reflexivity|]. split; [done|]. by intros e' [=].
Qed.

Lemma run_classifies_errors_witness :
  ∃ out logs,
    run (λ _, Returned (Some (Errorf "cannot connect" [])))
        (set_action super_D (fst (LookUp registry_D ["leafname"])))
    = Returned (out, logs)
    ∧ (out = Some ErrSilent ∧ logged_errors logs = [Errorf "cannot connect" []])
    ∧ ∀ e', out = Some e' → e' = ErrSilent ∨ IsRcPassthroughError e' = true.
Proof.
  apply (run_classifies_errors
           (λ _, Returned (Some (Errorf "cannot connect" [])))
           (set_action super_D (fst (LookUp registry_D ["leafname"])))
           (Some (Errorf "cannot connect" []))).
  vm_compute. reflexivity.
Defined.

(** ** Running a plugin *)

(** C6 as stated fails: a plugin that is found and cannot be started is no
    unrecognized command; [RunPlugin] returns the error of the operating
    system. *)
Lemma RunPlugin_start_failure_passes :
  RunPlugin [] sample_exec_Run sample_flags_Parse sample_Plugins "broken" []
  = Some (PathError "fork/exec" "/usr/bin/juju-broken" "exec format error")
  ∧ RunPlugin [] sample_exec_Run sample_flags_Parse sample_Plugins "broken" []
    ≠ Some (UnrecognizedCommand "broken").
Proof. split; [vm_compute; reflexivity|vm_compute; discriminate]. Qed.

(** C6, amended: for every argument vector, a plugin that was started
    and exited with a status [N] other than 0 makes [PluginCommand.Run]
    return the pass-through error that carries [N]; and when the
    executable is not located, so that running it gives an [*exec.Error],
    and the ignored flags parsed, [RunPlugin] returns
    [UnrecognizedCommand] for the sub-command. *)
Theorem plugin_exit_status_and_not_found (os_Environ : list string)
    (exec_Run : string → list string → list string → option error)
    (flags_Parse : string → list string → option error) :
  (∀ (c : PluginCommand) (N : Z),
     N ≠ 0%Z →
     exec_Run (plugin_name c) (plugin_args c) (os_Environ ++ plugin_env c)
     = Cmd_Run_error (ExitedWith N) →
     PluginCommand_Run os_Environ exec_Run c = Some (RcPassthroughError N))
  ∧ (∀ (p : Plugins) (subcommand : string) (args : list string)
       (file : string),
       flags_Parse (Prefix p +:+ subcommand) (extractIgnoredArgs p args) = None →
       exec_Run (Prefix p +:+ subcommand) args (os_Environ ++ Env p)
       = Cmd_Run_error (NotLocated file) →
       RunPlugin os_Environ exec_Run flags_Parse p subcommand args
       = Some (UnrecognizedCommand subcommand)).
Proof.
  split.
  - intros c N HN Hexit. unfold PluginCommand_Run. rewrite Hexit.
    unfold Cmd_Run_error. by rewrite decide_False.
  - intros p subcommand args file Hparse Hexec.
    unfold RunPlugin. rewrite Hparse. simpl.
    unfold PluginCommand_Run. simpl. by rewrite Hexec.
Qed.

Lemma plugin_exit_status_and_not_found_witness :
  PluginCommand_Run [] sample_exec_Run
    (mkPluginCommand "juju-fail" ["some params"] [])
  = Some (RcPassthroughError 2)
  ∧ RunPlugin [] sample_exec_Run sample_flags_Parse sample_Plugins
      "nothing" ["-e"; "env"; "arg"]
    = Some (UnrecognizedCommand "nothing").
Proof.
  destruct (plugin_exit_status_and_not_found [] sample_exec_Run
              sample_flags_Parse) as [Hexit Hmissing].
  split.
  - apply (Hexit (mkPluginCommand "juju-fail" ["some params"] []) 2%Z).
    + discriminate.
    + vm_compute. reflexivity.
  - apply (Hmissing sample_Plugins "nothing" ["-e"; "env"; "arg"]
             "juju-nothing").
    + reflexivity.
    + vm_compute. reflexivity.
Defined.

(** ** The names of a registry *)

Lemma slice_elems_agree (h1 h2 : heap) (s : slice) :
  slice_len s = 0 ∨ h1 !! slice_array s = h2 !! slice_array s →
  slice_elems h1 s = slice_elems h2 s.
Proof.
  unfold slice_elems. intros [->| ->]; [by rewrite !take_0|done].
Qed.

Lemma slice_elems_length (h : heap) (s : slice) :
  slice_ok h s → length (slice_elems h s) = slice_len s.
Proof.
  unfold slice_ok, slice_elems. destruct (h !! slice_array s) as [arr|]; simpl.
  - intros Hle. rewrite length_take, length_drop. lia.
  - intros ->. by rewrite take_0.
Qed.

Lemma slice_fresh (h : heap) (s : slice) :
  slice_ok h s → slice_len s = 0 ∨ slice_array s ≠ fresh (dom h).
Proof.
  unfold slice_ok. destruct (h !! slice_array s) as [arr|] eqn:Harr.
  - intros _. right. intros Heq.
    apply (is_fresh (dom h)). rewrite <-Heq. apply elem_of_dom. by eexists.
  - intros ->. by left.
Qed.

(** [Names] on the heap: the slice it returns has the elements of the
    order and an array of its own, so a store through it leaves the order
    as it is. *)
Lemma Names_heap_copy (h : heap) (order : slice) :
  slice_ok h order →
  ∀ h' copied, Names_heap h order = (h', copied) →
    slice_elems h' copied = slice_elems h order
    ∧ slice_elems h' order = slice_elems h order
    ∧ ∀ i v h'', heap_store h' copied i v = Returned h'' →
                 slice_elems h'' order = slice_elems h order.
Proof.
  intros Hok h' copied. unfold Names_heap, heap_make. intros [= <- <-].
  set (a := fresh (dom h)). set (n := slice_len order).
  set (h1 := <[a := replicate n ""]> h).
  pose proof (slice_fresh h order Hok) as Hfresh. fold a in Hfresh.
  assert (H1 : slice_elems h1 order = slice_elems h order).
  { apply slice_elems_agree. destruct Hfresh as [?|Hne]; [by left|right].
    unfold h1. by rewrite lookup_insert_ne. }
  assert (Hcopy : ∀ f, slice_elems (alter f a h1) order = slice_elems h order).
  { intros f. rewrite <-H1. apply slice_elems_agree.
    destruct Hfresh as [?|Hne]; [by left|right]. by rewrite lookup_alter_ne. }
  split_and!.
  - unfold heap_copy. simpl. rewrite H1, Nat.min_id. fold n.
    unfold slice_elems at 1. simpl.
    rewrite lookup_alter_eq. unfold h1. rewrite lookup_insert_eq. simpl.
    rewrite drop_0, drop_ge by (by rewrite length_replicate).
    rewrite app_nil_r, take_idemp.
    apply take_ge. by rewrite slice_elems_length.
  - apply Hcopy.
  - intros i v h''. unfold heap_store. simpl. case_decide; [|done].
    intros [= <-]. unfold heap_copy. simpl.
    rewrite <-H1. apply slice_elems_agree.
    destruct Hfresh as [?|Hne]; [by left|right].
    by rewrite !lookup_alter_ne.
Qed.

(** C8: after registrations none of which failed, [Names] gives the names
    in the order they were registered, aliases at the place they were
    added; and the list is a copy: with the order held in the slice
    [order] of a heap, [Names] returns a slice with the same elements in
    a new array, and a store through that slice does not change what
    [order] holds. *)
Theorem Names_insertion_order_copy (calls : list registration)
    (reg : Registry) (h : heap) (order : slice) :
  registerEach emptyRegistry calls = Some reg →
  slice_ok h order →
  slice_elems h order = reg_order reg →
  Names reg = concat (names_of <$> calls)
  ∧ ∀ h' copied, Names_heap h order = (h', copied) →
      slice_elems h' copied = Names reg
      ∧ ∀ i v h'', heap_store h' copied i v = Returned h'' →
                   slice_elems h'' order = reg_order reg.
Proof.
  intros Hcalls Hok Horder.
  apply registerEach_order in Hcalls. simpl in Hcalls.
  rewrite Names_order. split; [done|].
  intros h' copied Hnames.
  destruct (Names_heap_copy h order Hok h' copied Hnames) as (Hc & _ & Hs).
  rewrite <-Horder. split; [done|]. apply Hs.
Qed.

Lemma Names_insertion_order_copy_witness :
  let calls :=
    [DoAddWithAliases (mkAction "help" "" (Some helpCommand) [] "");
     DoAddWithAliases (mkAction "install" ""
                         (Some (leafCommand 5 "install" ["setup"]))
                         ["setup"] "deploy")] in
  let reg := registerAll emptyRegistry calls in
  Names reg = ["help"; "install"; "setup"]
  ∧ ∀ h' copied, Names_heap sample_heap sample_order = (h', copied) →
      slice_elems h' copied = Names reg
      ∧ ∀ i v h'', heap_store h' copied i v = Returned h'' →
                   slice_elems h'' sample_order = reg_order reg.
Proof.
  intros calls reg.
  apply (Names_insertion_order_copy calls reg sample_heap sample_order).
  - vm_compute. reflexivity.
  - vm_compute. lia.
  - vm_compute. reflexivity.
Defined.

(** ** Descriptions of the plugins *)

Lemma substring_all (s : string) : String.substring 0 (String.length s) s = s.
Proof. induction s as [|c s IH]; simpl; [done|]. by rewrite IH. Qed.

Lemma length_app_string (s t : string) :
  String.length (s +:+ t) = String.length s + String.length t.
Proof. induction s as [|c s IH]; simpl; [done|]. by rewrite IH. Qed.

Lemma substring_app (pre key : string) :
  String.substring (String.length pre)
                   (String.length (pre +:+ key) - String.length pre)
                   (pre +:+ key) = key.
Proof.
  induction pre as [|c pre IH]; simpl.
  - rewrite Nat.sub_0_r. apply substring_all.
  - apply IH.
Qed.

Lemma HasPrefix_app (s pre : string) :
  HasPrefix s pre = true → ∃ key, s = pre +:+ key.
Proof.
  unfold HasPrefix. revert s. induction pre as [|c pre IH]; intros s; simpl.
  - intros _. by exists s.
  - destruct s as [|d s]; [done|]. simpl.
    destruct (Ascii.ascii_dec c d) as [->|]; [|done].
    intros [key ->]%IH. by exists key.
Qed.

Lemma strip_app (p : Plugins) (key : string) : strip p (Prefix p +:+ key) = key.
Proof. apply substring_app. Qed.

Lemma sliceFrom_app (pre key : string) :
  sliceFrom (pre +:+ key) (String.length pre) = Returned key.
Proof.
  unfold sliceFrom. rewrite decide_True by (rewrite length_app_string; lia).
  by rewrite substring_app.
Qed.

Lemma FindAll_HasPrefix (p : Plugins) path :
  Forall (λ name, HasPrefix name (Prefix p) = true) (FindAll p path).
Proof.
  unfold FindAll, sort_Strings. rewrite merge_sort_Permutation.
  apply Forall_forall. intros name Hin.
  apply list_elem_of_In, in_flat_map in Hin as (dir & _ & Hin).
  destruct dir as [entries|]; [|done].
  apply list_elem_of_In, list_elem_of_fmap in Hin as (entry & -> & Hentry).
  by apply list_elem_of_filter in Hentry as [[? _] _].
Qed.

Lemma gather_gathered (p : Plugins) (received : list pluginDescription) :
  Forall (λ r, HasPrefix (pd_name r) (Prefix p) = true) received →
  gather p received = Returned (gathered p received).
Proof.
  unfold gather, gathered.
  induction received as [|r received IH] using rev_ind; [done|].
  intros [Hall [Hr _]%Forall_cons]%Forall_app.
  rewrite !foldl_app. simpl. rewrite IH by done. simpl.
  destruct (HasPrefix_app _ _ Hr) as [key Hkey]. rewrite Hkey.
  unfold mbind, result_bind. by rewrite sliceFrom_app, strip_app.
Qed.

Lemma gathered_lookup_Some (p : Plugins) received key description :
  gathered p received !! key = Some description →
  ∃ r, r ∈ received ∧ strip p (pd_name r) = key ∧ pd_description r = description.
Proof.
  unfold gathered.
  induction received as [|r received IH] using rev_ind; [done|].
  rewrite foldl_app. simpl. rewrite lookup_insert_Some.
  intros [[Hk Hd]|[_ Hrest]].
  - exists r. split; [|done]. apply elem_of_app. right. by left.
  - destruct (IH Hrest) as (r' & Hin & ?). exists r'. split; [|done].
    apply elem_of_app. by left.
Qed.

Lemma gathered_lookup_elem (p : Plugins) received r :
  (∀ r1 r2, r1 ∈ received → r2 ∈ received →
            strip p (pd_name r1) = strip p (pd_name r2) →
            pd_description r1 = pd_description r2) →
  r ∈ received →
  gathered p received !! strip p (pd_name r) = Some (pd_description r).
Proof.
  unfold gathered.
  induction received as [|r' received IH] using rev_ind;
    [by intros _ ?%elem_of_nil|].
  intros Hcons Hin. rewrite foldl_app. simpl.
  destruct (decide (strip p (pd_name r') = strip p (pd_name r))) as [Heq|Hne].
  - rewrite Heq, lookup_insert_eq. f_equal. apply Hcons; [| |done].
    + apply elem_of_app. right. by left.
    + done.
  - rewrite lookup_insert_ne by done.
    apply elem_of_app in Hin as [Hin|Hin%list_elem_of_singleton]; [|by subst].
    apply IH; [|done]. intros r1 r2 H1 H2. apply Hcons; apply elem_of_app; by left.
Qed.

Lemma consistent_strip (p : Plugins) received :
  Forall (λ r, HasPrefix (pd_name r) (Prefix p) = true) received →
  consistent received →
  ∀ r1 r2, r1 ∈ received → r2 ∈ received →
           strip p (pd_name r1) = strip p (pd_name r2) →
           pd_description r1 = pd_description r2.
Proof.
  intros Hall Hcons r1 r2 H1 H2 Hstrip. apply Hcons; [done..|].
  rewrite Forall_forall in Hall.
  destruct (HasPrefix_app _ _ (Hall _ H1)) as [k1 Hk1].
  destruct (HasPrefix_app _ _ (Hall _ H2)) as [k2 Hk2].
  rewrite Hk1, Hk2 in *. rewrite !strip_app in Hstrip. by subst.
Qed.

Lemma gathered_Permutation (p : Plugins) received1 received2 :
  Forall (λ r, HasPrefix (pd_name r) (Prefix p) = true) received1 →
  consistent received1 →
  received1 ≡ₚ received2 →
  gathered p received1 = gathered p received2.
Proof.
  intros Hall Hcons Hperm.
  assert (Hall2 : Forall (λ r, HasPrefix (pd_name r) (Prefix p) = true) received2)
    by (by rewrite <-Hperm).
  assert (Hcons2 : consistent received2).
  { intros r1 r2 H1 H2. apply Hcons; by rewrite Hperm. }
  pose proof (consistent_strip p _ Hall Hcons) as Hs1.
  pose proof (consistent_strip p _ Hall2 Hcons2) as Hs2.
  apply map_eq. intros key.
  destruct (gathered p received1 !! key) as [d|] eqn:H1.
  - apply gathered_lookup_Some in H1 as (r & Hin & <- & <-).
    symmetry. apply gathered_lookup_elem; [done|]. by rewrite <-Hperm.
  - destruct (gathered p received2 !! key) as [d|] eqn:H2; [|done].
    apply gathered_lookup_Some in H2 as (r & Hin & <- & <-).
    rewrite gathered_lookup_elem in H1; [done..|]. by rewrite Hperm.
Qed.

Lemma sent_length plugins outs :
  length outs = length plugins → length (sent plugins outs) = length plugins.
Proof. intros H. unfold sent. rewrite length_zip_with. lia. Qed.

Lemma sent_elem plugins outs r :
  r ∈ sent plugins outs ↔
  ∃ i plugin out, plugins !! i = Some plugin ∧ outs !! i = Some out
                  ∧ r = mkPluginDescription plugin (description_of plugin out).
Proof.
  unfold sent. rewrite list_elem_of_lookup. split.
  - intros [i Hi]. apply lookup_zip_with_Some in Hi as (plugin & out & -> & ? & ?).
    exists i, plugin, out. split_and!; [done..|]. by destruct out as [? [|]].
  - intros (i & plugin & out & Hp & Ho & ->). exists i.
    apply lookup_zip_with_Some. exists plugin, out. split_and!; [|done..].
    by destruct out as [? [|]].
Qed.

Lemma Descriptions_gathered (p : Plugins) plugins outs received :
  Forall (λ name, HasPrefix name (Prefix p) = true) plugins →
  length outs = length plugins →
  received ≡ₚ sent plugins outs →
  Descriptions p plugins received = Returned (gathered p received).
Proof.
  intros Hall Hlen Hperm.
  assert (Hrl : length received = length plugins).
  { rewrite Hperm. by apply sent_length. }
  unfold Descriptions. destruct plugins as [|plugin plugins].
  - destruct received; [done|]. done.
  - rewrite <-Hrl, firstn_all. apply gather_gathered.
    rewrite Hperm. apply Forall_forall. intros r Hr.
    apply sent_elem in Hr as (i & pl & out & Hpl & _ & ->). simpl.
    rewrite Forall_forall in Hall. apply Hall. by eapply list_elem_of_lookup_2.
Qed.

(** C9 as stated fails: with the same plugin name found in two
    directories and two probes of it that report differently, the map
    depends on which of the two values is received last. *)
Lemma Descriptions_duplicate_names_order :
  let plugins := FindAll sample_Plugins sample_path in
  let received := sent plugins sample_outs in
  plugins = ["juju-foo"; "juju-foo"]
  ∧ reverse received ≡ₚ received
  ∧ Descriptions sample_Plugins plugins received
    = Returned {[ "foo" := "error occurred running 'juju-foo --description'" ]}
  ∧ Descriptions sample_Plugins plugins (reverse received)
    = Returned {[ "foo" := "foo description" ]}
  ∧ Descriptions sample_Plugins plugins received
    ≠ Descriptions sample_Plugins plugins (reverse received).
Proof.
  intros plugins received.
  assert (H1 : Descriptions sample_Plugins plugins received
    = Returned {[ "foo" := "error occurred running 'juju-foo --description'" ]})
    by (vm_compute; reflexivity).
  assert (H2 : Descriptions sample_Plugins plugins (reverse received)
    = Returned {[ "foo" := "foo description" ]})
    by (vm_compute; reflexivity).
  split_and!; [vm_compute; reflexivity|apply reverse_Permutation|exact H1|exact H2|].
  rewrite H1, H2. intros Heq.
  pose proof (f_equal (λ r : result (gmap string string),
                         match r with
                         | Returned m => m !! "foo"
                         | Panicked _ => None
                         end) Heq) as Hfoo.
  vm_compute in Hfoo. discriminate.
Qed.

(** C9, amended: when the probes of one name agree (as they do when the
    names found are distinct), the map that [Descriptions] returns is the
    same for every order in which the values are received; it maps a name
    without the prefix to the first line of the output of its probe, or
    to the fixed string that names the plugin when the probe failed. *)
Theorem Descriptions_order_independent (p : Plugins)
    (path : list (option (list DirEntry)))
    (outs : list (string * option error))
    (received1 received2 : list pluginDescription) :
  let plugins := FindAll p path in
  length outs = length plugins →
  consistent (sent plugins outs) →
  received1 ≡ₚ sent plugins outs →
  received2 ≡ₚ sent plugins outs →
  ∃ results,
    Descriptions p plugins received1 = Returned results
    ∧ Descriptions p plugins received2 = Returned results
    ∧ ∀ key description,
        results !! key = Some description ↔
        ∃ i plugin out,
          plugins !! i = Some plugin ∧ outs !! i = Some out
          ∧ plugin = Prefix p +:+ key
          ∧ description = description_of plugin out.
Proof.
  intros plugins Hlen Hcons Hperm1 Hperm2.
  pose proof (FindAll_HasPrefix p path) as Hall. fold plugins in Hall.
  assert (Hsent : Forall (λ r, HasPrefix (pd_name r) (Prefix p) = true)
                         (sent plugins outs)).
  { apply Forall_forall. intros r (i & pl & out & Hpl & _ & ->)%sent_elem.
    simpl. rewrite Forall_forall in Hall. apply Hall.
    by eapply list_elem_of_lookup_2. }
  exists (gathered p (sent plugins outs)). split_and!.
  - rewrite (Descriptions_gathered p plugins outs) by done.
    f_equal. symmetry. by apply gathered_Permutation.
  - rewrite (Descriptions_gathered p plugins outs) by done.
    f_equal. symmetry. by apply gathered_Permutation.
  - intros key description. split.
    + intros (r & Hin & Hkey & Hdesc)%gathered_lookup_Some.
      apply sent_elem in Hin as (i & plugin & out & Hpl & Hout & ->).
      simpl in *. exists i, plugin, out. split_and!; [done..| |done].
      rewrite Forall_forall in Hall.
      destruct (HasPrefix_app plugin (Prefix p)) as [k Hk].
      { apply Hall. by eapply list_elem_of_lookup_2. }
      rewrite Hk in Hkey. rewrite strip_app in Hkey. by subst.
    + intros (i & plugin & out & Hpl & Hout & -> & ->).
      rewrite <-(strip_app p key) at 1.
      apply (gathered_lookup_elem p (sent plugins outs)
               (mkPluginDescription (Prefix p +:+ key)
                                    (description_of (Prefix p +:+ key) out))).
      * by apply consistent_strip.
      * apply sent_elem. by exists i, (Prefix p +:+ key), out.
Qed.

Lemma Descriptions_order_independent_witness :
  let plugins := FindAll sample_Plugins sample_path_distinct in
  let received := sent plugins sample_outs_distinct in
  ∃ results,
    Descriptions sample_Plugins plugins (reverse received) = Returned results
    ∧ Descriptions sample_Plugins plugins received = Returned results
    ∧ ∀ key description,
        results !! key = Some description ↔
        ∃ i plugin out,
          plugins !! i = Some plugin ∧ sample_outs_distinct !! i = Some out
          ∧ plugin = "juju-" +:+ key
          ∧ description = description_of plugin out.
Proof.
  intros plugins received.
  apply (Descriptions_order_independent sample_Plugins sample_path_distinct
           sample_outs_distinct (reverse received) received).
  - vm_compute. reflexivity.
  - intros r1 r2 H1 H2 Hname. unfold plugins in H1, H2.
    remember (sent (FindAll sample_Plugins sample_path_distinct)
                   sample_outs_distinct) as l eqn:Hl.
    vm_compute in Hl. subst l.
    repeat (apply elem_of_cons in H1 as [->|H1]);
      [..|by apply elem_of_nil in H1];
      repeat (apply elem_of_cons in H2 as [->|H2]);
      try (by apply elem_of_nil in H2);
      first [reflexivity|discriminate Hname].
  - apply reverse_Permutation.
  - reflexivity.
Defined.

(** ** Registering sub-commands *)

Lemma found_false_iff reg n : wf reg → found reg n = false ↔ n ∉ reg_order reg.
Proof.
  intros Hwf. rewrite <-(found_iff reg n Hwf). by destruct (found reg n).
Qed.

Lemma AddWithAliases_free (reg : Registry) (a : Action) :
  wf reg → Forall (λ alias, alias ≠ "") (Action_Aliases a) →
  is_Some (Action_Command a) →
  let names := Action_Name a :: Action_Aliases a in
  let free := Action_Name a ≠ "" ∧ NoDup names
              ∧ ∀ n, n ∈ names → found reg n = false in
  match AddWithAliases reg a with
  | (r, None) => free ∧ reg_order r = reg_order reg ++ names
  | (r, Some _) => ¬ free ∧ r = reg
  end.
Proof.
  intros Hwf Hne Hcmd. simpl.
  pose proof (AddWithAliases_spec reg a Hwf Hne) as Hspec. simpl in Hspec.
  destruct (AddWithAliases reg a) as [r [err|]].
  - destruct Hspec as [-> Hnot]. split; [|done].
    intros (Hname & Hnd & Hfree). apply Hnot. split_and!; [done..|].
    intros n Hn. apply found_false_iff; [done|]. by apply Hfree.
  - destruct Hspec as (_ & Hord & Hname & _ & Hnd & Hfree).
    split; [|done]. split_and!; [done..|].
    intros n Hn. apply found_false_iff; [done|]. by apply Hfree.
Qed.

Lemma Register_Some (c : SuperCommand) (reg : Registry) (cmd : Command)
    (info : Info) :
  super_subcmds c = Some reg → Command_Info cmd = Returned (Some info) →
  Register c (Some cmd)
  = (let '(reg', err) := AddWithAliases reg (action_of_info cmd info) in
     panic_on_error c (Some reg', err)).
Proof.
  intros Hsub Hinfo.
  unfold Register, newActionFromCommand, subcmds_AddWithAliases.
  unfold mbind, result_bind. rewrite Hinfo, Hsub.
  fold (action_of_info cmd info).
  by destruct (AddWithAliases reg (action_of_info cmd info)).
Qed.

Lemma RegisterDeprecated_Some (c : SuperCommand) (reg : Registry)
    (cmd : Command) (info : Info) (check : DeprecationCheck) :
  super_subcmds c = Some reg → Command_Info cmd = Returned (Some info) →
  check_Obsolete check = false →
  RegisterDeprecated c (Some cmd) (Some check)
  = (let '(reg', err) :=
       AddWithAliases reg (deprecated_action check (action_of_info cmd info)) in
     c' ← panic_on_error c (Some reg', err);
     Returned (c', [])).
Proof.
  intros Hsub Hinfo Hobs.
  unfold RegisterDeprecated, newActionFromCommand, subcmds_AddWithAliases.
  unfold mbind, result_bind. rewrite Hinfo, Hobs, Hsub.
  fold (action_of_info cmd info).
  fold (deprecated_action check (action_of_info cmd info)).
  by destruct (AddWithAliases reg _) as [reg' [err|]].
Qed.

(** C10 as stated fails: a sub-command whose check says obsolete is
    skipped without a panic although its name is taken; and a sub-command
    that lists one alias twice makes [Register] panic although its name
    and its alias are free. *)
Lemma Register_not_exactly_when_free :
  found registry_juju "help" = true
  ∧ returns (RegisterDeprecated super_juju (Some (leafCommand 8 "help" []))
                                (Some obsolete_check)) = true
  ∧ found registry_juju "status" = false
  ∧ found registry_juju "st" = false
  ∧ Register super_juju (Some (leafCommand 9 "status" ["st"; "st"]))
    = Panicked (PanicError (Errorf "action %q already added" ["st"])).
Proof. vm_compute. repeat split. Qed.

(** C10, amended: [Register] and [RegisterDeprecated] ignore a [nil]
    sub-command, whatever the check.  For a sub-command with an info, on
    a registry that satisfies the invariants and with aliases that are
    not empty, [Register] registers the name and the aliases and returns
    exactly when the name is not empty and name and aliases are distinct
    and not found in the registry; otherwise it panics with the text of
    the error of [AddWithAliases].  [RegisterDeprecated] with a check
    that is not [nil] and says obsolete returns without registering,
    whatever the names; with a check that is not [nil] and does not say
    obsolete, it does as [Register] does, for the action with its
    replacement. *)
Theorem Register_panics_or_registers (c : SuperCommand) (reg : Registry)
    (cmd : Command) (info : Info) (check : DeprecationCheck) :
  super_subcmds c = Some reg →
  wf reg →
  Command_Info cmd = Returned (Some info) →
  Forall (λ alias, alias ≠ "") (Info_Aliases info) →
  let names := Info_Name info :: Info_Aliases info in
  let action := action_of_info cmd info in
  let deprecated := deprecated_action check action in
  Register c None = Returned c
  ∧ (∀ any, RegisterDeprecated c None any = Returned (c, []))
  ∧ (returns (Register c (Some cmd)) = true ↔ names_free reg info)
  ∧ match AddWithAliases reg action with
    | (reg', None) =>
        Register c (Some cmd) = Returned (set_subcmds c (Some reg'))
        ∧ reg_order reg' = reg_order reg ++ names
    | (_, Some err) => Register c (Some cmd) = Panicked (PanicError err)
    end
  ∧ (check_Obsolete check = true →
     ∃ logs, RegisterDeprecated c (Some cmd) (Some check) = Returned (c, logs))
  ∧ (check_Obsolete check = false →
     (returns (RegisterDeprecated c (Some cmd) (Some check)) = true
      ↔ names_free reg info)
     ∧ match AddWithAliases reg deprecated with
       | (reg', None) =>
           RegisterDeprecated c (Some cmd) (Some check)
           = Returned (set_subcmds c (Some reg'), [])
           ∧ reg_order reg' = reg_order reg ++ names
       | (_, Some err) =>
           RegisterDeprecated c (Some cmd) (Some check)
           = Panicked (PanicError err)
       end).
Proof.
  intros Hsub Hwf Hinfo Hne names action deprecated.
  assert (Hdep : Action_Name deprecated = Info_Name info
                 ∧ Action_Aliases deprecated = Info_Aliases info
                 ∧ Action_Command deprecated = Some cmd).
  { unfold deprecated, deprecated_action.
    by destruct (check_Deprecated check) as [[|] ?]. }
  destruct Hdep as (Hdn & Hda & Hdc).
  pose proof (AddWithAliases_free reg action Hwf Hne (mk_is_Some _ _ eq_refl))
    as Hact.
  pose proof (AddWithAliases_free reg deprecated Hwf) as Hdepr.
  rewrite Hdn, Hda, Hdc in Hdepr. specialize (Hdepr Hne (mk_is_Some _ _ eq_refl)).
  simpl in Hact, Hdepr. fold (names_free reg info) in Hact, Hdepr.
  split_and!; [done..| | | |].
  - rewrite (Register_Some c reg cmd info) by done. fold action.
    destruct (AddWithAliases reg action) as [r [err|]]; simpl.
    + destruct Hact as [Hnot _]. split; [done|]. by intros ?.
    + by destruct Hact as [Hfree _].
  - rewrite (Register_Some c reg cmd info) by done. fold action.
    destruct (AddWithAliases reg action) as [r [err|]]; simpl; [done|].
    by destruct Hact as [_ ?].
  - intros Hobs. unfold RegisterDeprecated, newActionFromCommand.
    rewrite Hinfo. simpl. rewrite Hobs. by eexists.
  - intros Hobs.
    rewrite (RegisterDeprecated_Some c reg cmd info check) by done.
    fold action deprecated.
    destruct (AddWithAliases reg deprecated) as [r [err|]]; simpl.
    + destruct Hdepr as [Hnot _]. split; [|done]. split; [done|]. by intros ?.
    + destruct Hdepr as [Hfree ?]. done.
Qed.

Lemma registry_juju_wf : wf registry_juju.
Proof.
  assert (H : registry_juju =
    let reg := registerAll emptyRegistry
      [DoAddWithAliases (mkAction "help" "" (Some helpCommand) [] "")] in
    mkRegistry (reg_order reg) (reg_actions reg) (reg_aliases reg) "help")
    by (vm_compute; reflexivity).
  rewrite H. apply wf_defaultName, registerAll_wf; [apply emptyRegistry_wf|].
  repeat constructor.
Qed.

Lemma Register_panics_or_registers_witness :
  let cmd := leafCommand 9 "status" ["st"] in
  let info := mkInfo "status" "runs status" ["st"] in
  (returns (Register super_juju (Some cmd)) = true
   ↔ names_free registry_juju info)
  ∧ (returns (RegisterDeprecated super_juju (Some cmd) (Some deprecated_check))
     = true ↔ names_free registry_juju info).
Proof.
  intros cmd info.
  destruct (Register_panics_or_registers super_juju registry_juju cmd info
              deprecated_check) as (_ & _ & Hreg & _ & _ & Hdep).
  - reflexivity.
  - apply registry_juju_wf.
  - reflexivity.
  - repeat constructor. discriminate.
  - split; [exact Hreg|]. apply Hdep. reflexivity.
Defined.

(** ** What holds when no alias is empty *)

(** [AddWithAliases] on a registry that satisfies the invariants, with
    aliases that are not empty: a call that fails leaves the registry as
    it was. *)
Lemma AddWithAliases_atomic (reg : Registry) (a : Action) (err : error) :
  wf reg → Forall (λ alias, alias ≠ "") (Action_Aliases a) →
  snd (AddWithAliases reg a) = Some err →
  fst (AddWithAliases reg a) = reg.
Proof.
  intros Hwf Hne Herr. pose proof (AddWithAliases_spec reg a Hwf Hne) as Hspec.
  destruct (AddWithAliases reg a) as [r [e|]]; simpl in *; [|done].
  by destruct Hspec as [-> _].
Qed.

(** Any sequence of [Add], [AddAlias] and [AddWithAliases] from a new
    registry keeps the invariants, as long as no alias is the empty
    string: no name is twice in the order, every alias points at a
    canonical entry, and no alias points at an alias. *)
Lemma registerAll_invariants (calls : list registration) :
  Forall (λ r, Forall (λ alias, alias ≠ "") (aliases_of r)) calls →
  let reg := registerAll emptyRegistry calls in
  NoDup (reg_order reg)
  ∧ (∀ n, n ∈ reg_order reg ↔
          is_Some (reg_actions reg !! n) ∨ is_Some (reg_aliases reg !! n))
  ∧ (∀ alias name, reg_aliases reg !! alias = Some name →
                   is_Some (reg_actions reg !! name)
                   ∧ reg_aliases reg !! name = None).
Proof.
  intros Hne reg.
  assert (Hwf : wf reg) by (by apply registerAll_wf; [apply emptyRegistry_wf|]).
  split_and!; [apply Hwf..|].
  intros alias name Halias.
  pose proof (wf_target _ Hwf _ _ Halias) as Hname.
  split; [done|]. by apply (wf_disjoint _ Hwf).
Qed.

(** * More of the code *)

(** ** Adding to the registry and looking up *)

(** X1: in a registry that satisfies the invariants, [LookUp] of one name
    finds it exactly when [Names] lists it. *)
Theorem LookUp_found_iff_listed (reg : Registry) (name : string) :
  wf reg →
  snd (LookUp reg [name]) = true ↔ name ∈ Names reg.
Proof. intros Hwf. rewrite Names_order. by apply found_iff. Qed.

Lemma sample_registry_wf : wf sample_registry.
Proof.
  apply registerAll_wf; [apply emptyRegistry_wf|].
  repeat constructor; discriminate.
Qed.

Lemma LookUp_found_iff_listed_witness :
  snd (LookUp sample_registry ["setup"]) = true ↔ "setup" ∈ Names sample_registry.
Proof.
  apply (LookUp_found_iff_listed sample_registry "setup").
  apply sample_registry_wf.
Defined.

Lemma lookUp_insert_action (reg : Registry) (a : Action) (n : string) :
  wf reg → Action_Name a ∉ reg_order reg → n ≠ Action_Name a →
  lookUp (mkRegistry (reg_order reg ++ [Action_Name a])
                     (<[Action_Name a := a]> (reg_actions reg))
                     (reg_aliases reg) (reg_defaultName reg)) n
  = lookUp reg n.
Proof.
  intros Hwf Hfresh Hne. unfold lookUp. simpl.
  rewrite lookup_insert_ne by done.
  destruct (reg_actions reg !! n); [done|].
  destruct (reg_aliases reg !! n) as [t|] eqn:Ht; [|done].
  destruct (wf_target _ Hwf _ _ Ht) as [b Hb].
  rewrite lookup_insert_ne; [done|]. intros <-.
  apply Hfresh, (wf_order _ Hwf). left. by eexists.
Qed.

Lemma LookUp_cons_ext (reg reg' : Registry) (n : string) (rest : list string) :
  lookUp reg' n = lookUp reg n → LookUp reg' (n :: rest) = LookUp reg (n :: rest).
Proof. intros H. unfold LookUp. simpl. by rewrite H. Qed.

Lemma Add_wf_spec (reg : Registry) (a : Action) :
  wf reg →
  (snd (Add reg a) = None ↔
     Action_Name a ≠ "" ∧ is_Some (Action_Command a)
     ∧ Action_Name a ∉ Names reg)
  ∧ match Add reg a with
    | (reg', None) =>
        wf reg' ∧ Names reg' = Names reg ++ [Action_Name a]
        ∧ LookUp reg' [Action_Name a] = (a, true)
        ∧ ∀ n rest, n ≠ Action_Name a →
                    LookUp reg' (n :: rest) = LookUp reg (n :: rest)
    | (reg', Some _) => reg' = reg
    end.
Proof.
  intros Hwf. rewrite !Names_order. split; [by apply Add_succeeds|].
  destruct (Add reg a) as [reg' [err|]] eqn:Hadd; [by eapply Add_failed|].
  assert (Hs : snd (Add reg a) = None) by (by rewrite Hadd).
  apply Add_succeeds in Hs as (Hname & Hcmd & Hfresh); [|done].
  pose proof (Add_wf _ _ _ Hwf Hadd) as Hwf'.
  pose proof (Add_order _ _ _ Hadd) as Hord.
  rewrite Add_spec in Hadd. destruct (Validate a); [done|].
  destruct (found reg (Action_Name a)); [done|]. injection Hadd as <-.
  rewrite !Names_order. split_and!; [done..| |].
  - rewrite LookUp_single. unfold lookUp. simpl. rewrite lookup_insert_eq.
    by rewrite bool_decide_eq_true_2.
  - intros n rest Hne. apply LookUp_cons_ext. by apply lookUp_insert_action.
Qed.

(** X2: [Add] on a registry that satisfies the invariants.  It succeeds
    exactly when the action has a name and a command and [Names] does not
    list the name; then the name is appended to [Names], the invariants
    still hold, [LookUp] of the name gives the action as it was added, and
    paths that start with another name resolve as before.  A failed [Add]
    leaves the registry as it was. *)
Theorem Add_then_LookUp (reg : Registry) (a : Action) :
  wf reg →
  (snd (Add reg a) = None ↔
     Action_Name a ≠ "" ∧ is_Some (Action_Command a)
     ∧ Action_Name a ∉ Names reg)
  ∧ match Add reg a with
    | (reg', None) =>
        wf reg' ∧ Names reg' = Names reg ++ [Action_Name a]
        ∧ LookUp reg' [Action_Name a] = (a, true)
        ∧ ∀ n rest, n ≠ Action_Name a →
                    LookUp reg' (n :: rest) = LookUp reg (n :: rest)
    | (reg', Some _) => reg' = reg
    end.
Proof. intros Hwf. by apply Add_wf_spec. Qed.

Lemma Add_then_LookUp_witness :
  let a := mkAction "deploy" "" (Some (leafCommand 11 "deploy" [])) [] "" in
  LookUp (fst (Add sample_registry a)) ["deploy"] = (a, true).
Proof.
  intros a.
  destruct (Add_then_LookUp sample_registry a sample_registry_wf) as [_ H].
  destruct (Add sample_registry a) as [reg' [err|]] eqn:Hadd.
  - exfalso. vm_compute in Hadd. discriminate.
  - simpl. apply H.
Defined.

Lemma AddAlias_wf_spec (reg : Registry) (name alias : string) :
  wf reg → alias ≠ "" →
  (snd (AddAlias reg name alias) = None ↔
     is_Some (reg_actions reg !! name) ∧ alias ∉ Names reg)
  ∧ match AddAlias reg name alias with
    | (reg', None) =>
        wf reg' ∧ Names reg' = Names reg ++ [alias]
        ∧ (∃ canonical,
             reg_actions reg !! name = Some canonical
             ∧ LookUp reg' [alias] = (NewAlias canonical alias, true))
        ∧ ∀ n rest, n ≠ alias →
                    LookUp reg' (n :: rest) = LookUp reg (n :: rest)
    | (reg', Some _) => reg' = reg
    end.
Proof.
  intros Hwf Hne. rewrite !Names_order. split; [by apply AddAlias_succeeds|].
  destruct (AddAlias reg name alias) as [reg' [err|]] eqn:Hadd;
    [by eapply AddAlias_failed|].
  assert (Hs : snd (AddAlias reg name alias) = None) by (by rewrite Hadd).
  apply AddAlias_succeeds in Hs as ([canonical Hcanon] & Hfresh); [|done].
  pose proof (AddAlias_wf _ _ _ _ Hwf Hne Hadd) as Hwf'.
  destruct (fresh_lookups _ _ Hwf Hfresh) as [Hact Hali].
  rewrite AddAlias_spec, Hcanon in Hadd.
  destruct (found reg alias); [done|]. injection Hadd as <-.
  rewrite !Names_order. split_and!; [done..| |].
  - exists canonical. split; [done|].
    rewrite LookUp_single. unfold lookUp. simpl.
    rewrite Hact, lookup_insert_eq, Hcanon. simpl.
    by rewrite bool_decide_eq_true_2.
  - intros n rest Hn. apply LookUp_cons_ext. unfold lookUp. simpl.
    by rewrite lookup_insert_ne.
Qed.

(** X3: [AddAlias] on a registry that satisfies the invariants, for an
    alias that is not empty.  It succeeds exactly when [name] has a
    canonical entry and [Names] does not list the alias; then the alias is
    appended to [Names], the invariants still hold, [LookUp] of the alias
    gives the alias view of the canonical action, and paths that start
    with another name resolve as before.  A failed [AddAlias] leaves the
    registry as it was. *)
Theorem AddAlias_then_LookUp (reg : Registry) (name alias : string) :
  wf reg → alias ≠ "" →
  (snd (AddAlias reg name alias) = None ↔
     is_Some (reg_actions reg !! name) ∧ alias ∉ Names reg)
  ∧ match AddAlias reg name alias with
    | (reg', None) =>
        wf reg' ∧ Names reg' = Names reg ++ [alias]
        ∧ (∃ canonical,
             reg_actions reg !! name = Some canonical
             ∧ LookUp reg' [alias] = (NewAlias canonical alias, true))
        ∧ ∀ n rest, n ≠ alias →
                    LookUp reg' (n :: rest) = LookUp reg (n :: rest)
    | (reg', Some _) => reg' = reg
    end.
Proof. intros Hwf Hne. by apply AddAlias_wf_spec. Qed.

Lemma AddAlias_then_LookUp_witness :
  snd (AddAlias sample_registry "install" "add") = None ↔
    is_Some (reg_actions sample_registry !! "install")
    ∧ "add" ∉ Names sample_registry.
Proof.
  apply (AddAlias_then_LookUp sample_registry "install" "add").
  - apply sample_registry_wf.
  - discriminate.
Defined.

Lemma point_at_lookup_elem name added alias (m : gmap string string) :
  alias ∈ added → point_at name added m !! alias = Some name.
Proof.
  induction added as [|x added IH]; simpl; [by intros ?%elem_of_nil|].
  intros [->|Hin]%elem_of_cons; [by rewrite lookup_insert_eq|].
  destruct (decide (x = alias)) as [->|Hne]; [by rewrite lookup_insert_eq|].
  rewrite lookup_insert_ne by done. by apply IH.
Qed.

Lemma AddWithAliases_extended (reg : Registry) (a : Action) (reg' : Registry) :
  wf reg → Forall (λ alias, alias ≠ "") (Action_Aliases a) →
  AddWithAliases reg a = (reg', None) →
  reg' = extended reg a (Action_Aliases a).
Proof.
  intros Hwf Hne. unfold AddWithAliases.
  destruct (Add reg a) as [reg1 [err|]] eqn:Hadd; [done|].
  assert (Hs : snd (Add reg a) = None) by (by rewrite Hadd).
  apply Add_succeeds in Hs as (Hname & Hcmd & Hfresh); [|done].
  assert (Hwf1 : wf reg1) by (by eapply Add_wf).
  assert (Hreg1 : reg1 = extended reg a []).
  { rewrite Add_spec in Hadd. destruct (Validate a); [done|].
    destruct (found reg (Action_Name a)); [done|]. by injection Hadd as <-. }
  subst reg1. intros Hloop.
  pose proof (AddWithAliases_loop_spec reg a Hwf Hfresh (Action_Aliases a) []
                Hne Hwf1 NoDup_nil_2) as Hspec.
  rewrite Hloop in Hspec. simpl in Hspec.
  destruct Hspec as [-> _]; [intros ? []%elem_of_nil|done].
Qed.

(** X4: [AddWithAliases] on a registry that satisfies the invariants, with
    aliases that are not empty.  It either fails and leaves the registry
    exactly as it was, or registers the name and then the aliases in
    their order; then [LookUp] of the name gives the action, [LookUp] of
    each alias gives its alias view, and paths that start with any other
    name resolve as before. *)
Theorem AddWithAliases_all_or_nothing (reg : Registry) (a : Action) :
  wf reg → Forall (λ alias, alias ≠ "") (Action_Aliases a) →
  match AddWithAliases reg a with
  | (reg', None) =>
      wf reg'
      ∧ Names reg' = Names reg ++ Action_Name a :: Action_Aliases a
      ∧ LookUp reg' [Action_Name a] = (a, true)
      ∧ (∀ alias, alias ∈ Action_Aliases a →
                  LookUp reg' [alias] = (NewAlias a alias, true))
      ∧ ∀ n rest, n ∉ Action_Name a :: Action_Aliases a →
                  LookUp reg' (n :: rest) = LookUp reg (n :: rest)
  | (reg', Some _) => reg' = reg
  end.
Proof.
  intros Hwf Hne.
  pose proof (AddWithAliases_spec reg a Hwf Hne) as Hspec. simpl in Hspec.
  destruct (AddWithAliases reg a) as [reg' [err|]] eqn:Hadd;
    [by destruct Hspec|].
  destruct Hspec as (Hwf' & Hord & Hname & Hcmd & Hnd & Hfree).
  apply AddWithAliases_extended in Hadd; [|done..]. subst reg'.
  apply NoDup_cons in Hnd as [Hhead Hnd].
  assert (Hact : reg_actions reg !! Action_Name a = None).
  { apply (fresh_lookups _ _ Hwf). apply Hfree. by left. }
  rewrite !Names_order. split_and!; [done..| | |].
  - rewrite LookUp_single. unfold lookUp. simpl. rewrite lookup_insert_eq.
    by rewrite bool_decide_eq_true_2.
  - intros alias Hin. rewrite LookUp_single. unfold lookUp. simpl.
    assert (alias ≠ Action_Name a) by (by intros ->).
    rewrite lookup_insert_ne by done.
    destruct (fresh_lookups reg alias Hwf) as [Hal _];
      [apply Hfree; by right|].
    rewrite Hal, point_at_lookup_elem, lookup_insert_eq by done. simpl.
    rewrite Forall_forall in Hne. by rewrite bool_decide_eq_true_2 by auto.
  - intros n rest [Hn Hnotin]%not_elem_of_cons. apply LookUp_cons_ext.
    unfold lookUp. simpl. rewrite lookup_insert_ne by done.
    destruct (reg_actions reg !! n); [done|].
    rewrite point_at_lookup_fresh by done.
    destruct (reg_aliases reg !! n) as [t|] eqn:Ht; [|done].
    destruct (wf_target _ Hwf _ _ Ht) as [b Hb].
    rewrite lookup_insert_ne; [done|]. intros <-. congruence.
Qed.

Lemma AddWithAliases_all_or_nothing_witness :
  let a := mkAction "deploy" "" (Some (leafCommand 11 "deploy" []))
                    ["push"; "setup"] "" in
  fst (AddWithAliases sample_registry a) = sample_registry.
Proof.
  intros a.
  assert (Hne : Forall (λ alias : string, alias ≠ "") (Action_Aliases a))
    by (repeat constructor; discriminate).
  pose proof (AddWithAliases_all_or_nothing sample_registry a
                sample_registry_wf Hne) as H.
  destruct (AddWithAliases sample_registry a) as [reg' [err|]] eqn:Hadd.
  - exact H.
  - exfalso. vm_compute in Hadd. discriminate.
Defined.

(** X5: any sequence of [Add], [AddAlias] and [AddWithAliases] calls on a
    new registry in which no alias is the empty string, failed calls
    included, leaves a registry in which no name is listed twice, the
    names listed are exactly those with a canonical or an alias entry,
    every alias points at a canonical entry that is no alias, and every
    canonical entry is kept under the name of its action. *)
Theorem registerAll_keeps_invariants (calls : list registration) :
  Forall (λ r, Forall (λ alias, alias ≠ "") (aliases_of r)) calls →
  let reg := registerAll emptyRegistry calls in
  NoDup (Names reg)
  ∧ (∀ n, n ∈ Names reg ↔
          is_Some (reg_actions reg !! n) ∨ is_Some (reg_aliases reg !! n))
  ∧ (∀ alias name, reg_aliases reg !! alias = Some name →
                   is_Some (reg_actions reg !! name)
                   ∧ reg_aliases reg !! name = None)
  ∧ (∀ n a, reg_actions reg !! n = Some a → Action_Name a = n ∧ n ≠ "").
Proof.
  intros Hne reg. rewrite Names_order.
  destruct (registerAll_invariants calls Hne) as (Hnd & Hord & Hali).
  split_and!; [done..|].
  assert (Hwf : wf reg) by (by apply registerAll_wf; [apply emptyRegistry_wf|]).
  apply (wf_canonical _ Hwf).
Qed.

Lemma registerAll_keeps_invariants_witness :
  NoDup (Names sample_registry).
Proof.
  apply (registerAll_keeps_invariants sample_calls).
  repeat constructor; discriminate.
Defined.

(** ** Removing from the registry *)

Lemma removeString_split (items : list string) (target : string) :
  (target ∉ items → removeString items target = (items, false))
  ∧ (target ∈ items →
     ∃ before after,
       items = before ++ target :: after ∧ (target ∉ before)
       ∧ removeString items target = (before ++ after, true)).
Proof.
  induction items as [|item items [IHout IHin]]; simpl.
  - split; [done|]. by intros ?%elem_of_nil.
  - destruct (decide (item = target)) as [->|Hne].
    + split; [intros Hn; exfalso; apply Hn; by left|].
      intros _. exists [], items. split_and!; [done| |done].
      by intros ?%elem_of_nil.
    + split.
      * intros [_ Hn]%not_elem_of_cons. by rewrite IHout.
      * intros [->|Hin]%elem_of_cons; [done|].
        destruct (IHin Hin) as (before & after & -> & Hb & ->).
        exists (item :: before), after. split_and!; [done| |done].
        apply not_elem_of_cons. split; [by intros ->|done].
Qed.

(** X6: [removeString] takes out the first occurrence of the target and
    nothing else: a list without the target comes back as it is, with
    [false]; otherwise the list splits at the first occurrence, and the
    two parts come back joined, with [true]. *)
Theorem removeString_first_occurrence (items : list string) (target : string) :
  (target ∉ items → removeString items target = (items, false))
  ∧ (target ∈ items →
     ∃ before after,
       items = before ++ target :: after ∧ (target ∉ before)
       ∧ removeString items target = (before ++ after, true)).
Proof. apply removeString_split. Qed.

Lemma removeString_first_occurrence_witness :
  ∃ before after,
    ["a"; "b"; "c"; "b"] = before ++ "b" :: after ∧ ("b" ∉ before)
    ∧ removeString ["a"; "b"; "c"; "b"] "b" = (before ++ after, true).
Proof.
  apply (removeString_first_occurrence ["a"; "b"; "c"; "b"] "b").
  apply elem_of_cons. right. by left.
Defined.

Lemma removeString_NoDup_elem (items : list string) (target x : string) :
  NoDup items →
  x ∈ fst (removeString items target) ↔ x ∈ items ∧ x ≠ target.
Proof.
  intros Hnd.
  destruct (removeString_split items target) as [Hout Hin].
  destruct (decide (target ∈ items)) as [Ht|Ht].
  - destruct (Hin Ht) as (before & after & -> & Hb & ->). simpl.
    apply NoDup_app in Hnd as (_ & Hdisj & [Hafter _]%NoDup_cons).
    rewrite !elem_of_app, elem_of_cons. split.
    + intros [Hx|Hx]; (split; [tauto|]); intros ->; [done|done].
    + intros [[Hx|[->|Hx]] Hne]; [by left|done|by right].
  - rewrite (Hout Ht). simpl. split; [|tauto].
    intros Hx. split; [done|]. by intros ->.
Qed.

(** X7: [remove] undoes a registration.  In a registry that satisfies the
    invariants, removing the name that [Add] just registered gives back
    the registry as it was, and the action; removing the alias that
    [AddAlias] just registered gives back the registry as it was; and
    removing a name that is not registered changes nothing. *)
Theorem remove_undoes_registration (reg : Registry) :
  wf reg →
  (∀ a reg', Add reg a = (reg', None) → remove reg' (Action_Name a) = (reg, a))
  ∧ (∀ name alias reg',
       AddAlias reg name alias = (reg', None) →
       remove reg' alias = (reg, zeroAction))
  ∧ (∀ name, name ∉ Names reg → remove reg name = (reg, zeroAction)).
Proof.
  intros Hwf. split_and!.
  - intros a reg' Hadd.
    assert (Hs : snd (Add reg a) = None) by (by rewrite Hadd).
    apply Add_succeeds in Hs as (_ & _ & Hfresh); [|done].
    destruct (fresh_lookups _ _ Hwf Hfresh) as [Hact _].
    rewrite Add_spec in Hadd. destruct (Validate a); [done|].
    destruct (found reg (Action_Name a)); [done|]. injection Hadd as <-.
    unfold remove. simpl. rewrite lookup_insert_eq.
    rewrite removeString_fresh by done. simpl.
    rewrite delete_insert_eq, delete_id, app_nil_r by done.
    by rewrite eta_Registry.
  - intros name alias reg' Hadd.
    assert (Hs : snd (AddAlias reg name alias) = None) by (by rewrite Hadd).
    apply AddAlias_succeeds in Hs as (_ & Hfresh); [|done].
    destruct (fresh_lookups _ _ Hwf Hfresh) as [Hact Hali].
    rewrite AddAlias_spec in Hadd.
    destruct (reg_actions reg !! name); [|done].
    destruct (found reg alias); [done|]. injection Hadd as <-.
    unfold remove. simpl. rewrite Hact, lookup_insert_eq.
    rewrite removeString_fresh by done. simpl.
    rewrite delete_insert_eq, delete_id, app_nil_r by done.
    by rewrite eta_Registry.
  - intros name. rewrite Names_order. intros Hfresh.
    destruct (fresh_lookups _ _ Hwf Hfresh) as [Hact Hali].
    unfold remove. by rewrite Hact, Hali.
Qed.

Lemma remove_undoes_registration_witness :
  remove sample_registry "nothing" = (sample_registry, zeroAction).
Proof.
  destruct (remove_undoes_registration sample_registry sample_registry_wf)
    as (_ & _ & H).
  apply H. vm_compute. intros Hin.
  repeat (apply elem_of_cons in Hin as [Hin|Hin]; [discriminate Hin|]).
  by apply elem_of_nil in Hin.
Defined.

(** X8: [remove] of a canonical name does not take its aliases along.  In
    a registry that satisfies the invariants, once the target of an alias
    is removed the alias is still listed by [Names] and still in the alias
    map, but [LookUp] no longer finds it; the removed name is no longer
    listed. *)
Theorem remove_leaves_aliases (reg : Registry) (alias name : string) :
  wf reg →
  reg_aliases reg !! alias = Some name →
  let reg' := fst (remove reg name) in
  (name ∉ Names reg')
  ∧ alias ∈ Names reg'
  ∧ reg_aliases reg' !! alias = Some name
  ∧ LookUp reg' [alias] = (zeroAction, false).
Proof.
  intros Hwf Halias reg'.
  destruct (wf_target _ Hwf _ _ Halias) as [canonical Hcanon].
  assert (Hne : alias ≠ name).
  { intros ->. rewrite (wf_disjoint _ Hwf name) in Halias; [done|by eexists]. }
  assert (Hnone : reg_actions reg !! alias = None).
  { destruct (reg_actions reg !! alias) eqn:Ha; [|done].
    rewrite (wf_disjoint _ Hwf alias) in Halias; [done|by eexists]. }
  assert (Hreg' : reg' = mkRegistry (fst (removeString (reg_order reg) name))
                                    (delete name (reg_actions reg))
                                    (reg_aliases reg) (reg_defaultName reg)).
  { unfold reg', remove. by rewrite Hcanon. }
  rewrite !Names_order, LookUp_single, Hreg'. unfold lookUp. simpl.
  split_and!.
  - rewrite removeString_NoDup_elem by apply Hwf. tauto.
  - rewrite removeString_NoDup_elem by apply Hwf. split; [|done].
    apply (wf_order _ Hwf). right. by eexists.
  - done.
  - rewrite lookup_delete_ne by done.
    by rewrite Hnone, Halias, lookup_delete_eq.
Qed.

Lemma remove_leaves_aliases_witness :
  LookUp (fst (remove sample_registry "install")) ["setup"] = (zeroAction, false).
Proof.
  apply (remove_leaves_aliases sample_registry "setup" "install").
  - apply sample_registry_wf.
  - vm_compute. reflexivity.
Defined.

(** ** New registries *)

Lemma AddWithAliases_defaultName (reg : Registry) (a : Action) :
  wf reg → Forall (λ alias, alias ≠ "") (Action_Aliases a) →
  reg_defaultName (fst (AddWithAliases reg a)) = reg_defaultName reg.
Proof.
  intros Hwf Hne.
  pose proof (AddWithAliases_spec reg a Hwf Hne) as Hspec.
  destruct (AddWithAliases reg a) as [reg' [err|]] eqn:Hadd; simpl in *.
  - by destruct Hspec as [-> _].
  - by apply AddWithAliases_extended in Hadd as ->.
Qed.

Lemma all_names_cons (a : Action) (initial : list Action) :
  all_names (a :: initial)
  = (Action_Name a :: Action_Aliases a) ++ all_names initial.
Proof. reflexivity. Qed.

Lemma NewRegistry_loop_spec (initial : list Action) : ∀ reg : Registry,
  wf reg →
  Forall (λ a : Action, Forall (λ alias, alias ≠ "") (Action_Aliases a)) initial →
  let fits :=
    Forall (λ a : Action, Action_Name a ≠ "" ∧ is_Some (Action_Command a)) initial
    ∧ NoDup (all_names initial)
    ∧ ∀ n, n ∈ all_names initial → n ∉ reg_order reg in
  match NewRegistry_loop reg initial with
  | (Some reg', None) =>
      wf reg' ∧ reg_order reg' = reg_order reg ++ all_names initial
      ∧ reg_defaultName reg' = reg_defaultName reg ∧ fits
  | (None, Some _) => ¬ fits
  | _ => False
  end.
Proof.
  induction initial as [|a initial IH]; intros reg Hwf Hne.
  - simpl. rewrite app_nil_r. split_and!; [done..| |].
    + unfold all_names. simpl. apply NoDup_nil_2.
    + by intros n ?%elem_of_nil.
  - apply Forall_cons in Hne as [Ha Hrest].
    pose proof (AddWithAliases_spec reg a Hwf Ha) as Hspec. simpl in Hspec.
    pose proof (AddWithAliases_defaultName reg a Hwf Ha) as Hdef.
    cbn [NewRegistry_loop]. cbv zeta. rewrite all_names_cons.
    destruct (AddWithAliases reg a) as [reg1 [err|]]; simpl in Hdef.
    + destruct Hspec as [_ Hnot]. intros (Hvalid & Hnd & Hfresh).
      apply Hnot. apply Forall_cons in Hvalid as [[? ?] _].
      apply NoDup_app in Hnd as (Hnd & _ & _).
      split_and!; [done..|]. intros n Hn. apply Hfresh.
      apply elem_of_app. by left.
    + destruct Hspec as (Hwf1 & Hord1 & Hname & Hcmd & Hnd1 & Hfresh1).
      specialize (IH reg1 Hwf1 Hrest). cbv zeta in IH.
      destruct (NewRegistry_loop reg1 initial) as [[reg'|] [err|]]; try done.
      * destruct IH as (Hwf' & Hord' & Hdef' & Hvalid & Hnd & Hfresh).
        rewrite Hord1 in Hord', Hfresh.
        split_and!; [done|by rewrite Hord', <-app_assoc|congruence| | |].
        -- by apply Forall_cons.
        -- apply NoDup_app. split_and!; [done| |done].
           intros n Hn Hn'. apply (Hfresh n Hn'). apply elem_of_app. by right.
        -- intros n [Hn|Hn]%elem_of_app; [by apply Hfresh1|].
           intros Hin. apply (Hfresh n Hn). apply elem_of_app. by left.
      * intros (Hvalid & Hnd & Hfresh). apply IH.
        apply Forall_cons in Hvalid as [_ Hvalid].
        apply NoDup_app in Hnd as (_ & Hdisj & Hnd).
        split_and!; [done..|]. intros n Hn. rewrite Hord1.
        intros [Hin|Hin]%elem_of_app.
        -- apply (Hfresh n); [|done]. apply elem_of_app. by right.
        -- by apply (Hdisj n Hin).
Qed.

(** X9: [NewRegistry] with actions whose aliases are not empty.  It
    returns a registry exactly when every action has a name and a command
    and all the names and aliases are distinct; the registry satisfies
    the invariants, [Names] lists the names of each action followed by
    its aliases, in the order given, and with no default set [LookUp] of
    the empty path finds nothing.  Otherwise it returns no registry and
    an error. *)
Theorem NewRegistry_all_or_nil (initial : list Action) :
  Forall (λ a : Action, Forall (λ alias, alias ≠ "") (Action_Aliases a)) initial →
  let fits :=
    Forall (λ a : Action, Action_Name a ≠ "" ∧ is_Some (Action_Command a)) initial
    ∧ NoDup (all_names initial) in
  match NewRegistry initial with
  | (Some reg, None) =>
      fits ∧ wf reg ∧ Names reg = all_names initial
      ∧ LookUp reg [] = (zeroAction, false)
  | (None, Some _) => ¬ fits
  | _ => False
  end.
Proof.
  intros Hne. simpl. unfold NewRegistry.
  pose proof (NewRegistry_loop_spec initial emptyRegistry emptyRegistry_wf Hne)
    as Hspec. simpl in Hspec.
  destruct (NewRegistry_loop emptyRegistry initial) as [[reg|] [err|]];
    try done.
  - destruct Hspec as (Hwf & Hord & Hdef & Hvalid & Hnd & _).
    rewrite Names_order. split_and!; [done..|].
    unfold LookUp. rewrite Hdef. unfold lookUp.
    destruct (reg_actions reg !! "") as [b|] eqn:Hb.
    { by destruct (wf_canonical _ Hwf _ _ Hb). }
    destruct (reg_aliases reg !! "") as [t|] eqn:Ht; [|done].
    exfalso. apply (wf_alias _ Hwf ""); [by eexists|done].
  - intros [Hvalid Hnd]. apply Hspec. split_and!; [done..|].
    by intros n _ ?%elem_of_nil.
Qed.

Lemma NewRegistry_all_or_nil_witness :
  let initial :=
    [mkAction "help" "" (Some helpCommand) [] "";
     mkAction "install" "" (Some (leafCommand 5 "install" ["setup"]))
              ["setup"] ""] in
  match NewRegistry initial with
  | (Some reg, None) => Names reg = ["help"; "install"; "setup"]
  | _ => False
  end.
Proof.
  intros initial.
  assert (Hne : Forall (λ a : Action,
                  Forall (λ alias : string, alias ≠ "") (Action_Aliases a))
                  initial) by (repeat constructor; discriminate).
  pose proof (NewRegistry_all_or_nil initial Hne) as H.
  destruct (NewRegistry initial) as [[reg|] [err|]] eqn:Hnew;
    try (exfalso; vm_compute in Hnew; discriminate Hnew).
  apply H.
Defined.

(** X10: [NewRegistryWithDefault] for an action whose aliases are not
    empty.  It returns a registry exactly when the action has a name and
    a command and its name and aliases are distinct; then [Names] lists
    the name and the aliases, and [LookUp] of the empty path gives the
    action itself.  Otherwise it returns no registry and an error. *)
Theorem NewRegistryWithDefault_default (dflt : Action) :
  Forall (λ alias, alias ≠ "") (Action_Aliases dflt) →
  let fits := Action_Name dflt ≠ "" ∧ is_Some (Action_Command dflt)
              ∧ NoDup (Action_Name dflt :: Action_Aliases dflt) in
  match NewRegistryWithDefault dflt with
  | (Some reg, None) =>
      fits ∧ wf reg
      ∧ Names reg = Action_Name dflt :: Action_Aliases dflt
      ∧ LookUp reg [] = (dflt, true)
  | (None, Some _) => ¬ fits
  | _ => False
  end.
Proof.
  intros Hne. simpl. unfold NewRegistryWithDefault, NewRegistry. simpl.
  pose proof (AddWithAliases_spec emptyRegistry dflt emptyRegistry_wf Hne)
    as Hspec. simpl in Hspec.
  destruct (AddWithAliases emptyRegistry dflt) as [reg [err|]] eqn:Hadd.
  - destruct Hspec as [_ Hnot]. intros (? & ? & ?). apply Hnot.
    split_and!; [done..|]. by intros n _ ?%elem_of_nil.
  - destruct Hspec as (Hwf & Hord & Hname & Hcmd & Hnd & _).
    apply AddWithAliases_extended in Hadd; [|apply emptyRegistry_wf|done].
    subst reg. rewrite Names_order. simpl.
    split_and!; [done..|by apply (wf_defaultName _ _ Hwf)|done|].
    unfold LookUp, lookUp. simpl. by rewrite lookup_insert_eq.
Qed.

Lemma NewRegistryWithDefault_default_witness :
  match NewRegistryWithDefault (mkAction "help" "" (Some helpCommand) ["?"] "")
  with
  | (Some reg, None) =>
      LookUp reg [] = (mkAction "help" "" (Some helpCommand) ["?"] "", true)
  | _ => False
  end.
Proof.
  assert (Hne : Forall (λ alias : string, alias ≠ "")
                  (Action_Aliases (mkAction "help" "" (Some helpCommand) ["?"] "")))
    by (repeat constructor; discriminate).
  pose proof (NewRegistryWithDefault_default _ Hne) as H.
  destruct (NewRegistryWithDefault _) as [[reg|] [err|]] eqn:Hnew;
    try (exfalso; vm_compute in Hnew; discriminate Hnew).
  apply H.
Defined.

(** ** Deprecation warnings and summaries *)

Lemma LookUp_alias (reg : Registry) (alias name : string) (canonical : Action) :
  wf reg →
  reg_aliases reg !! alias = Some name →
  reg_actions reg !! name = Some canonical →
  LookUp reg [alias] = (NewAlias canonical alias, true).
Proof.
  intros Hwf Halias Hcanon. rewrite LookUp_single. unfold lookUp.
  assert (Hnone : reg_actions reg !! alias = None).
  { destruct (reg_actions reg !! alias) eqn:Ha; [|done].
    rewrite (wf_disjoint _ Hwf alias) in Halias; [done|by eexists]. }
  rewrite Hnone, Halias, Hcanon. simpl.
  rewrite bool_decide_eq_true_2; [done|].
  apply (wf_alias _ Hwf). by eexists.
Qed.

Lemma LookUp_canonical (reg : Registry) (name : string) (canonical : Action) :
  wf reg →
  reg_actions reg !! name = Some canonical →
  LookUp reg [name] = (canonical, true).
Proof.
  intros Hwf Hcanon. rewrite LookUp_single. unfold lookUp. rewrite Hcanon.
  destruct (wf_canonical _ Hwf _ _ Hcanon) as [-> Hne].
  by rewrite bool_decide_eq_true_2.
Qed.

(** X11: [Action.PreRun] never fails, and warns of a deprecated command
    only under its own name.  In a registry that satisfies the
    invariants, the action looked up by the canonical name of a
    deprecated command logs one warning that names the command and its
    replacement; the action looked up by an alias of the same command
    logs nothing. *)
Theorem PreRun_warns_by_name_only (reg : Registry) (alias name : string)
    (canonical : Action) :
  wf reg →
  reg_aliases reg !! alias = Some name →
  reg_actions reg !! name = Some canonical →
  Action_Replacement canonical ≠ "" →
  PreRun (fst (LookUp reg [name]))
  = ([mkLogEntry LevelInfo "WARNING: %q is deprecated, please use %q"
                 [LogString name; LogString (Action_Replacement canonical)]],
     None)
  ∧ PreRun (fst (LookUp reg [alias])) = ([], None)
  ∧ ∀ a, snd (PreRun a) = None.
Proof.
  intros Hwf Halias Hcanon Hdep.
  rewrite (LookUp_alias reg alias name canonical),
    (LookUp_canonical reg name canonical) by done.
  destruct (wf_canonical _ Hwf _ _ Hcanon) as [Hname _].
  unfold PreRun. simpl. rewrite decide_True by done.
  rewrite Hname. split_and!; [done..|].
  intros a. by destruct (decide (Action_Replacement a ≠ "")).
Qed.

Lemma PreRun_warns_by_name_only_witness :
  PreRun (fst (LookUp sample_registry ["install"]))
  = ([mkLogEntry LevelInfo "WARNING: %q is deprecated, please use %q"
                 [LogString "install"; LogString "deploy"]], None)
  ∧ PreRun (fst (LookUp sample_registry ["setup"])) = ([], None)
  ∧ ∀ a, snd (PreRun a) = None.
Proof.
  apply (PreRun_warns_by_name_only sample_registry "setup" "install"
           (mkAction "install" "" (Some (leafCommand 5 "install" ["setup"]))
                     ["setup"] "deploy")).
  - apply sample_registry_wf.
  - vm_compute. reflexivity.
  - vm_compute. reflexivity.
  - discriminate.
Defined.

(** X12: [Action.Summary] of what the registry finds.  In a registry that
    satisfies the invariants, for a canonical action whose command
    reports an info, the action found under an alias is summarised as an
    alias for the canonical name, and the action found under the
    canonical name, when it is no alias itself, by the purpose of its
    command.  When the command reports no info, [Summary] faults under
    either name. *)
Theorem Summary_of_lookup (reg : Registry) (alias name : string)
    (canonical : Action) (cmd : Command) :
  wf reg →
  reg_aliases reg !! alias = Some name →
  reg_actions reg !! name = Some canonical →
  Action_Command canonical = Some cmd →
  match Command_Info cmd with
  | Returned (Some info) =>
      Summary (fst (LookUp reg [alias]))
      = Returned ("alias for '" +:+ name +:+ "'")
      ∧ (Action_AliasedName canonical = "" →
         Summary (fst (LookUp reg [name])) = Returned (Info_Purpose info))
  | Returned None =>
      Summary (fst (LookUp reg [alias])) = Panicked PanicNilDereference
      ∧ Summary (fst (LookUp reg [name])) = Panicked PanicNilDereference
  | Panicked p =>
      Summary (fst (LookUp reg [alias])) = Panicked p
      ∧ Summary (fst (LookUp reg [name])) = Panicked p
  end.
Proof.
  intros Hwf Halias Hcanon Hcmd.
  rewrite (LookUp_alias reg alias name canonical),
    (LookUp_canonical reg name canonical) by done.
  destruct (wf_canonical _ Hwf _ _ Hcanon) as [Hname Hne].
  unfold Summary. simpl. rewrite Hcmd, Hname.
  destruct (Command_Info cmd) as [[info|]|p]; simpl; [|done..].
  rewrite decide_True by done. split; [done|].
  intros ->. by rewrite decide_False by (by intros ?).
Qed.

Lemma Summary_of_lookup_witness :
  Summary (fst (LookUp sample_registry ["st"])) = Returned "alias for 'status'"
  ∧ (Action_AliasedName (mkAction "status" ""
                           (Some (leafCommand 9 "status" [])) [] "") = "" →
     Summary (fst (LookUp sample_registry ["status"]))
     = Returned "runs status").
Proof.
  apply (Summary_of_lookup sample_registry "st" "status"
           (mkAction "status" "" (Some (leafCommand 9 "status" [])) [] "")
           (leafCommand 9 "status" [])).
  - apply sample_registry_wf.
  - vm_compute. reflexivity.
  - vm_compute. reflexivity.
  - reflexivity.
Defined.

(** ** A new super-command and its first steps *)

Lemma NewSuperCommand_subcmds (name purpose : string) (aliases : list string)
    (missing : option MissingCallback) (help : Command)
    (version : option Command) :
  let helpAction := mkAction "help" "" (Some help) [] "" in
  let reg := mkRegistry ["help"] {[ "help" := helpAction ]} ∅ "help" in
  NewSuperCommand name purpose aliases missing help version
  = mkSuperCommand name purpose aliases
      (Some match version with
            | None => reg
            | Some v =>
                mkRegistry ["help"; "version"]
                  (<["version" := mkAction "version" "" (Some v) [] ""]>
                     {[ "help" := helpAction ]}) ∅ "help"
            end)
      zeroAction false false missing.
Proof.
  intros helpAction reg.
  assert (Hnew : NewRegistryWithDefault helpAction = (Some reg, None)).
  { unfold NewRegistryWithDefault, NewRegistry. simpl.
    unfold AddWithAliases. rewrite Add_spec. simpl.
    assert (Hf : found emptyRegistry "help" = false) by (vm_compute; reflexivity).
    rewrite Hf. reflexivity. }
  unfold NewSuperCommand, SuperCommand_init. simpl.
  fold helpAction. rewrite Hnew. simpl. destruct version as [v|]; [|done].
  assert (Hf : found reg "version" = false).
  { unfold found. rewrite LookUp_single. unfold lookUp, reg. simpl.
    rewrite lookup_singleton_ne by discriminate. by rewrite lookup_empty. }
  rewrite Add_spec. simpl. rewrite Hf. reflexivity.
Qed.

Lemma NewSuperCommand_registry (name purpose : string) (aliases : list string)
    (missing : option MissingCallback) (help : Command)
    (version : option Command) :
  let c := NewSuperCommand name purpose aliases missing help version in
  let helpAction := mkAction "help" "" (Some help) [] "" in
  ∃ reg,
    super_subcmds c = Some reg
    ∧ wf reg
    ∧ Names reg = "help" :: match version with Some _ => ["version"] | None => [] end
    ∧ LookUp reg [] = (helpAction, true)
    ∧ LookUp reg ["help"] = (helpAction, true)
    ∧ (snd (LookUp reg ["version"]) = true ↔ is_Some version)
    ∧ super_action c = zeroAction.
Proof.
  intros c helpAction. unfold c. rewrite NewSuperCommand_subcmds. simpl.
  eexists. split; [reflexivity|].
  assert (Hwf0 : wf (mkRegistry ["help"] {[ "help" := helpAction ]} ∅ "help")).
  { assert (Hadd : Add (mkRegistry [] ∅ ∅ "help") helpAction
             = (mkRegistry ["help"] {[ "help" := helpAction ]} ∅ "help", None))
      by (rewrite Add_spec; reflexivity).
    eapply Add_wf; [|exact Hadd].
    apply (wf_defaultName emptyRegistry "help"), emptyRegistry_wf. }
  assert (Hwf : wf match version with
                   | None => mkRegistry ["help"] {[ "help" := helpAction ]} ∅ "help"
                   | Some v =>
                       mkRegistry ["help"; "version"]
                         (<["version" := mkAction "version" "" (Some v) [] ""]>
                            {[ "help" := helpAction ]}) ∅ "help"
                   end).
  { destruct version as [v|]; [|done].
    assert (Hadd : Add (mkRegistry ["help"] {[ "help" := helpAction ]} ∅ "help")
                       (mkAction "version" "" (Some v) [] "")
             = (mkRegistry ["help"; "version"]
                  (<["version" := mkAction "version" "" (Some v) [] ""]>
                     {[ "help" := helpAction ]}) ∅ "help", None)).
    { rewrite Add_spec. simpl.
      assert (Hf : found (mkRegistry ["help"] {[ "help" := helpAction ]} ∅ "help")
                         "version" = false).
      { unfold found. rewrite LookUp_single. unfold lookUp. simpl.
        rewrite lookup_singleton_ne by discriminate. by rewrite lookup_empty. }
      by rewrite Hf. }
    by eapply Add_wf. }
  split; [done|]. rewrite Names_order.
  assert (Hhelp : ∀ reg : Registry,
            wf reg → reg_actions reg !! "help" = Some helpAction →
            reg_defaultName reg = "help" →
            LookUp reg [] = (helpAction, true)
            ∧ LookUp reg ["help"] = (helpAction, true)).
  { intros reg Hreg Hact Hdef. split; [|by apply LookUp_canonical].
    unfold LookUp, lookUp. by rewrite Hdef, Hact. }
  destruct version as [v|].
  - destruct (Hhelp _ Hwf) as [H1 H2]; [simpl; by rewrite lookup_insert_ne|done|].
    split_and!; [done..| |done].
    split; [by eexists|]. intros _.
    apply (found_iff _ "version" Hwf). simpl.
    apply elem_of_cons. right. by left.
  - destruct (Hhelp _ Hwf) as [H1 H2]; [simpl; by rewrite lookup_singleton_eq|done|].
    split_and!; [done..| |done].
    split; [|by intros [? ?]]. intros Hf. exfalso.
    apply (found_iff _ "version" Hwf) in Hf. simpl in Hf.
    apply elem_of_cons in Hf as [Hf|Hf]; [discriminate Hf|].
    by apply elem_of_nil in Hf.
Qed.

(** X13: the registry of a new super-command.  Whatever its parameters,
    [NewSuperCommand] gives a super-command with a registry that
    satisfies the invariants, in which [help] is registered and is the
    default, and [version] is registered exactly when a version command
    was given; no action is selected yet. *)
Theorem NewSuperCommand_has_help (name purpose : string) (aliases : list string)
    (missing : option MissingCallback) (help : Command)
    (version : option Command) :
  let c := NewSuperCommand name purpose aliases missing help version in
  let helpAction := mkAction "help" "" (Some help) [] "" in
  ∃ reg,
    super_subcmds c = Some reg
    ∧ wf reg
    ∧ Names reg = "help" :: match version with Some _ => ["version"] | None => [] end
    ∧ LookUp reg [] = (helpAction, true)
    ∧ LookUp reg ["help"] = (helpAction, true)
    ∧ (snd (LookUp reg ["version"]) = true ↔ is_Some version)
    ∧ super_action c = zeroAction.
Proof. apply NewSuperCommand_registry. Qed.

(** X14: [Init] of a new super-command without arguments selects the
    help action and initialises its command with no arguments; the error
    is the one that command's [Init] returns. *)
Theorem Init_without_arguments_selects_help (new_missingCommand : positive)
    (parseFlags : SuperCommand → Command → list string
                  → result (error + list string * bool))
    (Command_Init : Command → list string → result (option error))
    (name purpose : string) (aliases : list string)
    (missing : option MissingCallback) (help : Command)
    (version : option Command) :
  let c := NewSuperCommand name purpose aliases missing help version in
  Init new_missingCommand parseFlags Command_Init c []
  = (err ← Command_Init help [];
     Returned (set_action c (mkAction "help" "" (Some help) [] ""), err)).
Proof.
  intros c.
  destruct (NewSuperCommand_registry name purpose aliases missing help version)
    as (reg & Hsub & _ & _ & Hdefault & _).
  fold c in Hsub.
  assert (Hdesc : super_showDescription c = false).
  { unfold c. by rewrite NewSuperCommand_subcmds. }
  unfold Init. rewrite Hdesc, Hsub.
  unfold subcmds_LookUp, mbind, result_bind. rewrite Hdefault. reflexivity.
Qed.

(** ** Info and Run of the super-command *)

Lemma NewSuperCommand_Info (name purpose : string) (aliases : list string)
    (missing : option MissingCallback) (help : Command)
    (version : option Command) (b : bool) :
  let c := set_showDescription
             (NewSuperCommand name purpose aliases missing help version) b in
  SuperCommand_Info c
  = if Summary_returns (Some (Command_Info help))
       && match version with
          | Some v => Summary_returns (Some (Command_Info v))
          | None => true
          end
    then Returned (Some (mkInfo name purpose aliases))
    else Panicked PanicNilDereference.
Proof.
  intros c. unfold c, SuperCommand_Info. rewrite NewSuperCommand_subcmds.
  unfold set_showDescription. cbn [Command_Info super_action super_subcmds
    super_Name super_Purpose super_Aliases Validate zeroAction Action_Name].
  assert (Hv : Validate zeroAction = Some (Errorf "action missing name" []))
    by reflexivity.
  rewrite Hv. clear Hv.
  destruct version as [v|].
  - rewrite Names_order. cbn [reg_order forallb reg_actions].
    unfold describeCommands_step. rewrite !LookUp_single. unfold lookUp.
    cbn [reg_actions reg_aliases].
    rewrite (lookup_insert_ne _ "version" "help") by discriminate.
    rewrite lookup_singleton_eq, lookup_insert_eq. cbn.
    rewrite !lookup_fmap, lookup_insert_eq.
    rewrite (lookup_insert_ne _ "version" "help") by discriminate.
    rewrite lookup_singleton_eq. cbn.
    rewrite !decide_False by (intros H; by apply H).
    by destruct (Command_Info help) as [[?|]|?],
         (Command_Info v) as [[?|]|?].
  - rewrite Names_order. cbn [reg_order forallb reg_actions].
    unfold describeCommands_step. rewrite !LookUp_single. unfold lookUp.
    cbn [reg_actions reg_aliases].
    rewrite lookup_singleton_eq. cbn.
    rewrite !lookup_fmap, lookup_singleton_eq. cbn.
    rewrite !decide_False by (intros H; by apply H).
    by destruct (Command_Info help) as [[?|]|?].
Qed.

(** X15: [Info] of a new super-command.  When the help command, and the
    version command if there is one, report an info, the super-command
    reports its own name, purpose and aliases.  When the help command
    reports none, [Info] of the super-command faults: to fill in its
    [Doc] it summarises every sub-command. *)
Theorem NewSuperCommand_reports_itself (name purpose : string)
    (aliases : list string) (missing : option MissingCallback)
    (help : Command) (version : option Command) :
  let c := NewSuperCommand name purpose aliases missing help version in
  ((∃ info, Command_Info help = Returned (Some info))
   ∧ (∀ v, version = Some v → ∃ info, Command_Info v = Returned (Some info)) →
   SuperCommand_Info c = Returned (Some (mkInfo name purpose aliases))
   ∧ newActionFromCommand (SuperCmd 1 c)
     = Returned (mkAction name "" (Some (SuperCmd 1 c)) aliases ""))
  ∧ (Command_Info help = Returned None →
     SuperCommand_Info c = Panicked PanicNilDereference).
Proof.
  intros c.
  pose proof (NewSuperCommand_Info name purpose aliases missing help version
                false) as Hinfo.
  assert (Hc : set_showDescription
                 (NewSuperCommand name purpose aliases missing help version)
                 false = c).
  { unfold c. by rewrite NewSuperCommand_subcmds. }
  rewrite Hc in Hinfo. simpl in Hinfo. split.
  - intros [[hi Hhelp] Hversion]. rewrite Hhelp in Hinfo. simpl in Hinfo.
    assert (Hc' : SuperCommand_Info c = Returned (Some (mkInfo name purpose aliases))).
    { destruct version as [v|]; [|done].
      destruct (Hversion v eq_refl) as [vi Hv]. by rewrite Hv in Hinfo. }
    split; [done|]. unfold newActionFromCommand.
    unfold SuperCommand_Info in Hc'. by rewrite Hc'.
  - intros Hhelp. by rewrite Hhelp in Hinfo.
Qed.

Lemma NewSuperCommand_reports_itself_witness :
  SuperCommand_Info (NewSuperCommand "juju" "the tool" ["jj"] None helpCommand None)
  = Returned (Some (mkInfo "juju" "the tool" ["jj"])).
Proof.
  destruct (NewSuperCommand_reports_itself "juju" "the tool" ["jj"] None
              helpCommand None) as [H _].
  apply H. split.
  - by eexists.
  - intros v Hv. discriminate Hv.
Defined.

(** X16: [Run] of a super-command on which [Init] was not called.
    Without the description flag it panics with the message that names
    the missing sub-command.  With the flag it runs nothing and returns
    [nil]: it prints the purpose and a line feed or, for an empty
    purpose, the name of the super-command with the fixed text. *)
Theorem Run_before_Init (Command_Run : Command → result (option error))
    (f : RunFields) (name purpose : string) (aliases : list string)
    (missing : option MissingCallback) (help : Command)
    (version : option Command) :
  let c := NewSuperCommand name purpose aliases missing help version in
  Run Command_Run f c
  = Panicked (PanicMessage "Run: missing subcommand; Init failed or not called" [])
  ∧ (purpose ≠ "" →
     Run Command_Run f (set_showDescription c true)
     = Returned (None, [Printed (purpose +:+ String LF "")]))
  ∧ (purpose = "" →
     (∃ info, Command_Info help = Returned (Some info)) →
     (∀ v, version = Some v → ∃ info, Command_Info v = Returned (Some info)) →
     Run Command_Run f (set_showDescription c true)
     = Returned (None, [Printed (name +:+ ": no description available"
                                 +:+ String LF "")])).
Proof.
  intros c.
  pose proof (NewSuperCommand_Info name purpose aliases missing help version true)
    as Hinfo.
  fold c in Hinfo. cbv zeta in Hinfo.
  assert (Hc : c = mkSuperCommand name purpose aliases (super_subcmds c)
                     zeroAction false false missing).
  { unfold c. by rewrite NewSuperCommand_subcmds. }
  split_and!.
  - rewrite Hc. reflexivity.
  - intros Hp. unfold Run. rewrite Hc. simpl. by rewrite decide_True.
  - intros -> [hi Hhelp] Hversion. unfold Run.
    assert (Hd : super_showDescription (set_showDescription c true) = true)
      by reflexivity.
    assert (Hpur : super_Purpose (set_showDescription c true) = "")
      by (by rewrite Hc).
    rewrite Hd, Hpur, decide_False by (intros H; by apply H).
    rewrite Hinfo, Hhelp.
    destruct version as [v|]; [|reflexivity].
    destruct (Hversion v eq_refl) as [vi ->]. reflexivity.
Qed.

Lemma Run_before_Init_witness :
  Run (λ _, Returned None) (mkRunFields "" false None)
      (set_showDescription
         (NewSuperCommand "juju" "" [] None helpCommand None) true)
  = Returned (None, [Printed ("juju: no description available" +:+ String LF "")]).
Proof.
  destruct (Run_before_Init (λ _, Returned None) (mkRunFields "" false None)
              "juju" "" [] None helpCommand None) as (_ & _ & H).
  apply H; [reflexivity|by eexists|].
  intros v Hv. discriminate Hv.
Defined.

Lemma run_outcome (Command_Run : Command → result (option error))
    (c : SuperCommand) (r : option error) :
  Action_Run Command_Run (super_action c) = Returned r →
  ∃ logs,
    run Command_Run c
    = Returned (match r with
                | None => None
                | Some e =>
                    if decide (e = ErrSilent) then Some e
                    else if IsRcPassthroughError e then Some e
                    else Some ErrSilent
                end, logs).
Proof.
  intros Hrun. unfold run. rewrite Hrun. simpl. destruct r as [e|].
  - destruct (decide (e = ErrSilent)) as [->|Hne].
    + rewrite decide_False by (by intros ?). by eexists.
    + rewrite decide_True by done.
      destruct (IsRcPassthroughError e); by eexists.
  - by eexists.
Qed.

Lemma notifications_Logged (logs : list LogEntry) :
  notifications (Logged <$> logs) = [].
Proof. induction logs as [|l logs IH]; [done|]. exact IH. Qed.

Lemma notifications_app (l k : list event) :
  notifications (l ++ k) = notifications l ++ notifications k.
Proof. apply omap_app. Qed.

Lemma notifications_LogStarted (l : list event) :
  notifications (LogStarted :: l) = notifications l.
Proof. reflexivity. Qed.

(** X17: the errors of [Run] once an action is selected.  When the log
    cannot be started, [Run] returns that error as it is and goes no
    further: the action is not run and [notifyRun] is not called.
    Otherwise, when the action returns, [Run] returns [nil] exactly when
    the action does, and any error it returns is [ErrSilent] or a
    pass-through error; [notifyRun], when set, was called once, with the
    name of the super-command under its usage prefix. *)
Theorem Run_error_channel (Command_Run : Command → result (option error))
    (f : RunFields) (c : SuperCommand) :
  super_showDescription c = false →
  Validate (super_action c) = None →
  match run_Log f with
  | Some (Some err) => Run Command_Run f c = Returned (Some err, [LogStarted])
  | _ =>
      ∀ r, Action_Run Command_Run (super_action c) = Returned r →
        ∃ out events,
          Run Command_Run f c = Returned (out, events)
          ∧ (out = None ↔ r = None)
          ∧ (∀ e, out = Some e → e = ErrSilent ∨ IsRcPassthroughError e = true)
          ∧ notifications events
            = if run_notifyRun f then [notified_name f c] else []
  end.
Proof.
  intros Hdesc Hvalid. unfold Run. rewrite Hdesc, Hvalid.
  destruct (run_Log f) as [[err|]|] eqn:Hlog;
    [unfold preRun; by rewrite Hlog|..].
  all: intros r Hr; destruct (run_outcome Command_Run c r Hr) as [logs Hrun].
  all: unfold preRun; rewrite Hlog.
  all: destruct (PreRun (super_action c)) as [plogs perr] eqn:Hpre.
  all: assert (perr = None) as ->
         by (unfold PreRun in Hpre;
             destruct (decide (Action_Replacement (super_action c) ≠ ""));
             congruence).
  all: rewrite Hrun; simpl; do 2 eexists; (split; [reflexivity|]).
  all: split_and!.
  all: try (destruct r as [e|]; [|done];
            destruct (decide (e = ErrSilent)); [done|];
            by destruct (IsRcPassthroughError e)).
  all: try (intros e; destruct r as [e0|]; [|done];
            destruct (decide (e0 = ErrSilent)) as [->|?];
            [intros [= <-]; by left|];
            destruct (IsRcPassthroughError e0) eqn:Hrc; intros [= <-]; auto).
  all: rewrite ?notifications_LogStarted, !notifications_app,
         !notifications_Logged, !app_nil_r.
  all: unfold notified_name; destruct (run_notifyRun f); [|done].
  all: by destruct (decide (run_usagePrefix f ≠ ""
                            ∧ run_usagePrefix f ≠ super_Name c)).
Qed.

Lemma Run_error_channel_witness :
  ∃ out events,
    Run (λ _, Returned (Some (Errorf "cannot connect" [])))
        (mkRunFields "juju" true None)
        (set_action super_S (fst (LookUp registry_S ["l"])))
    = Returned (out, events)
    ∧ (out = None ↔ Some (Errorf "cannot connect" []) = None)
    ∧ (∀ e, out = Some e → e = ErrSilent ∨ IsRcPassthroughError e = true)
    ∧ notifications events = ["juju s"].
Proof.
  apply (Run_error_channel (λ _, Returned (Some (Errorf "cannot connect" [])))
           (mkRunFields "juju" true None)
           (set_action super_S (fst (LookUp registry_S ["l"])))
           eq_refl eq_refl).
  reflexivity.
Defined.

(** ** Aliases on the super-command *)

(** X18: [RegisterAlias] on a super-command whose registry satisfies the
    invariants, for a new name that is not empty.  A check that says
    obsolete makes it return with nothing registered.  Otherwise it
    returns exactly when [forName] is a canonical name and the new name
    is not yet listed; the new name then resolves to the alias view of
    that command.  In any other case, also when [forName] is itself an
    alias, it panics with the error of [AddAlias]. *)
Theorem RegisterAlias_of_canonical (c : SuperCommand) (reg : Registry)
    (name forName : string) (check : option DeprecationCheck) :
  super_subcmds c = Some reg →
  wf reg →
  name ≠ "" →
  match check with
  | Some chk => check_Obsolete chk = true
  | None => False
  end
  ∧ (∃ logs, RegisterAlias c name forName check = Returned (c, logs))
  ∨ match check with
    | Some chk => check_Obsolete chk = false
    | None => True
    end
    ∧ match reg_actions reg !! forName with
      | Some canonical =>
          if decide (name ∈ Names reg) then
            RegisterAlias c name forName check
            = Panicked (PanicError (Errorf "action %q already added" [name]))
          else
            ∃ reg',
              RegisterAlias c name forName check
              = Returned (set_subcmds c (Some reg'), [])
              ∧ Names reg' = Names reg ++ [name]
              ∧ LookUp reg' [name] = (NewAlias canonical name, true)
      | None =>
          RegisterAlias c name forName check
          = Panicked (PanicError (Errorf "action %q not found" [forName]))
      end.
Proof.
  intros Hsub Hwf Hne.
  assert (Hobs : match check with Some chk => check_Obsolete chk | None => false end
                 = true
                 ∨ match check with Some chk => check_Obsolete chk | None => false end
                   = false)
    by (destruct (match check with Some chk => check_Obsolete chk | None => false end);
        auto).
  destruct Hobs as [Hobs|Hobs].
  - left. split; [by destruct check|].
    unfold RegisterAlias. rewrite Hobs. by eexists.
  - right. split; [by destruct check|].
    unfold RegisterAlias. rewrite Hobs, Hsub.
    unfold subcmds_AddAlias, mbind, result_bind.
    pose proof (AddAlias_wf_spec reg forName name Hwf Hne) as [Hiff Hres].
    rewrite Names_order in *.
    destruct (reg_actions reg !! forName) as [canonical|] eqn:Hcanon.
    + destruct (decide (name ∈ reg_order reg)) as [Hin|Hnotin].
      * rewrite AddAlias_spec, Hcanon.
        apply (found_iff _ _ Hwf) in Hin. by rewrite Hin.
      * assert (Hs : snd (AddAlias reg forName name) = None)
          by (apply Hiff; split; [by eexists|done]).
        destruct (AddAlias reg forName name) as [reg' [err|]]; [done|].
        destruct Hres as (_ & Hord & (canonical' & Hc' & Hlook) & _).
        exists reg'. rewrite Names_order in Hord.
        split_and!; [done|by rewrite Names_order|congruence].
    + rewrite AddAlias_spec, Hcanon. reflexivity.
Qed.

Lemma RegisterAlias_of_canonical_witness :
  RegisterAlias super_deprecated "add" "setup" None
  = Panicked (PanicError (Errorf "action %q not found" ["setup"])).
Proof.
  destruct (RegisterAlias_of_canonical super_deprecated registry_deprecated
              "add" "setup" None) as [[[] _]|[_ H]].
  - reflexivity.
  - apply registry_deprecated_wf.
  - discriminate.
  - exact H.
Defined.

(** X19: [RegisterSuperAlias] for a sub-command of a nested
    super-command.  When [super] is the canonical name of a
    super-command and [forName] a canonical name in its registry, both
    registries satisfying the invariants, and the new name is not empty
    and not yet listed, the new name is registered as an action of its
    own: it wraps the very command of the nested action and carries
    [super forName] as its aliased name. *)
Theorem RegisterSuperAlias_of_nested (IsSuperCommand : Command → bool)
    (c : SuperCommand) (reg sub : Registry) (name super forName : string)
    (check : option DeprecationCheck) (outer nested : Action)
    (ptr : positive) (sc : SuperCommand) (cmd : Command) :
  super_subcmds c = Some reg → wf reg →
  name ≠ "" → name ∉ Names reg →
  match check with Some chk => check_Obsolete chk = false | None => True end →
  reg_actions reg !! super = Some outer →
  Action_Command outer = Some (SuperCmd ptr sc) →
  super_subcmds sc = Some sub → wf sub →
  reg_actions sub !! forName = Some nested →
  Action_Command nested = Some cmd →
  let view := mkAction name (super +:+ " " +:+ forName) (Some cmd) [] "" in
  ∃ reg',
    RegisterSuperAlias IsSuperCommand c name super forName check
    = Returned (set_subcmds c (Some reg'), [])
    ∧ Names reg' = Names reg ++ [name]
    ∧ LookUp reg' [name] = (view, true)
    ∧ Summary view = (info ← Command_Info cmd;
                      match info with
                      | Some _ =>
                          Returned ("alias for '"
                                    +:+ (super +:+ " " +:+ forName) +:+ "'")
                      | None => Panicked PanicNilDereference
                      end).
Proof.
  intros Hsub Hwf Hne Hfresh Hobs Houter Hcmd Hnested Hwfsub Hleaf Hleafcmd view.
  assert (Hobs' : match check with Some chk => check_Obsolete chk | None => false end
                  = false) by (by destruct check).
  assert (Hlook : LookUp reg [super; forName] = (nested, true)).
  { apply (LookUp_nested reg sub super forName outer nested ptr sc);
      [unfold lookUp; by rewrite Houter|done|done
      |unfold lookUp; by rewrite Hleaf|].
    destruct (wf_canonical _ Hwfsub _ _ Hleaf) as [-> ?]. done. }
  pose proof (Add_wf_spec reg view Hwf) as [Hiff Hres].
  assert (Hs : snd (Add reg view) = None)
    by (apply Hiff; split_and!; [done|by eexists|done]).
  unfold RegisterSuperAlias. rewrite Hobs', Hsub.
  unfold subcmds_LookUp, subcmds_Add, mbind, result_bind. rewrite Hlook.
  assert (Hview : with_AliasedName (NewAlias nested name)
                    (super +:+ " " +:+ forName) = view).
  { unfold with_AliasedName, NewAlias, view. simpl. by rewrite Hleafcmd. }
  rewrite Hview.
  destruct (Add reg view) as [reg' [err|]]; [done|].
  destruct Hres as (_ & Hord & Hl & _).
  exists reg'. split_and!; [done..|].
  unfold Summary, view. simpl.
  destruct (Command_Info cmd) as [[info|]|p]; [|done..]. simpl.
  rewrite decide_True; [done|]. destruct super; discriminate.
Qed.

Lemma RegisterSuperAlias_of_nested_witness :
  ∃ reg',
    RegisterSuperAlias (λ _, false) super_D "list" "s" "l" None
    = Returned (set_subcmds super_D (Some reg'), [])
    ∧ Names reg' = ["help"; "s"; "leafname"; "list"]
    ∧ LookUp reg' ["list"]
      = (mkAction "list" "s l" (Some (leafCommand 3 "l" [])) [] "", true).
Proof.
  assert (HwfS : wf registry_S).
  { assert (H : registry_S =
      let reg := registerAll emptyRegistry
        [DoAddWithAliases (mkAction "help" "" (Some helpCommand) [] "");
         DoAddWithAliases (mkAction "l" "" (Some (leafCommand 3 "l" [])) [] "")] in
      mkRegistry (reg_order reg) (reg_actions reg) (reg_aliases reg) "help")
      by (vm_compute; reflexivity).
    rewrite H. apply wf_defaultName, registerAll_wf; [apply emptyRegistry_wf|].
    repeat constructor. }
  assert (HwfD : wf registry_D).
  { assert (H : registry_D =
      let reg := registerAll emptyRegistry
        [DoAddWithAliases (mkAction "help" "" (Some helpCommand) [] "");
         DoAddWithAliases (mkAction "s" "" (Some (SuperCmd 10 super_S)) [] "");
         DoAddWithAliases (mkAction "leafname" ""
                             (Some (leafCommand 4 "leafname" [])) [] "")] in
      mkRegistry (reg_order reg) (reg_actions reg) (reg_aliases reg) "help")
      by (vm_compute; reflexivity).
    rewrite H. apply wf_defaultName, registerAll_wf; [apply emptyRegistry_wf|].
    repeat constructor. }
  destruct (RegisterSuperAlias_of_nested (λ _, false) super_D registry_D
              registry_S "list" "s" "l" None
              (mkAction "s" "" (Some (SuperCmd 10 super_S)) [] "")
              (mkAction "l" "" (Some (leafCommand 3 "l" [])) [] "")
              10 super_S (leafCommand 3 "l" []))
    as (reg' & H1 & H2 & H3 & _).
  - reflexivity.
  - exact HwfD.
  - discriminate.
  - vm_compute. intros Hin.
    repeat (apply elem_of_cons in Hin as [Hin|Hin]; [discriminate Hin|]).
    by apply elem_of_nil in Hin.
  - exact I.
  - vm_compute. reflexivity.
  - reflexivity.
  - reflexivity.
  - exact HwfS.
  - vm_compute. reflexivity.
  - reflexivity.
  - exists reg'. split_and!; [exact H1|exact H2|exact H3].
Defined.

(** X20: [RegisterSuperAlias] for a super-command that is not
    registered.  In a registry that satisfies the invariants, when
    [super] is not listed and the check does not say obsolete, the lookup
    gives the zero action, and asking its command whether it is a
    super-command is what faults: neither of the two messages of
    [RegisterSuperAlias] is reached. *)
Theorem RegisterSuperAlias_unknown_super (IsSuperCommand : Command → bool)
    (c : SuperCommand) (reg : Registry) (name super forName : string)
    (check : option DeprecationCheck) :
  super_subcmds c = Some reg → wf reg →
  super ∉ Names reg →
  match check with Some chk => check_Obsolete chk = false | None => True end →
  RegisterSuperAlias IsSuperCommand c name super forName check
  = Panicked PanicNilDereference.
Proof.
  intros Hsub Hwf Hfresh Hobs.
  assert (Hobs' : match check with Some chk => check_Obsolete chk | None => false end
                  = false) by (by destruct check).
  rewrite Names_order in Hfresh.
  destruct (fresh_lookups _ _ Hwf Hfresh) as [Hact Hali].
  assert (Hlook : LookUp reg [super; forName] = (zeroAction, false)).
  { unfold LookUp. simpl. unfold lookUp. by rewrite Hact, Hali. }
  unfold RegisterSuperAlias. rewrite Hobs', Hsub.
  unfold subcmds_LookUp, mbind, result_bind. by rewrite Hlook.
Qed.

Lemma RegisterSuperAlias_unknown_super_witness :
  RegisterSuperAlias (λ _, false) super_juju "list" "machines" "list" None
  = Panicked PanicNilDereference.
Proof.
  apply (RegisterSuperAlias_unknown_super (λ _, false) super_juju registry_juju).
  - reflexivity.
  - apply registry_juju_wf.
  - vm_compute. intros Hin.
    repeat (apply elem_of_cons in Hin as [Hin|Hin]; [discriminate Hin|]).
    by apply elem_of_nil in Hin.
  - exact I.
Defined.

(** ** The order of strings *)

Lemma string_leb_trans (s1 s2 s3 : string) :
  String.leb s1 s2 = true → String.leb s2 s3 = true → String.leb s1 s3 = true.
Proof.
  unfold String.leb. revert s2 s3.
  induction s1 as [|a s1 IH]; intros [|b s2] [|c s3]; simpl; try done.
  unfold Ascii.compare.
  destruct (N.compare_spec (Ascii.N_of_ascii a) (Ascii.N_of_ascii b)) as [Hab|Hab|Hab],
           (N.compare_spec (Ascii.N_of_ascii b) (Ascii.N_of_ascii c)) as [Hbc|Hbc|Hbc],
           (N.compare_spec (Ascii.N_of_ascii a) (Ascii.N_of_ascii c)) as [Hac|Hac|Hac];
    try done; try lia.
  apply IH.
Qed.

Global Instance string_le_trans : Transitive string_le.
Proof. intros s1 s2 s3. apply string_leb_trans. Qed.

Global Instance string_le_total : Total string_le.
Proof. intros s1 s2. apply String.leb_total. Qed.

Global Instance string_le_antisym : AntiSymm (=) string_le.
Proof. intros s1 s2 H1 H2. by apply String.leb_antisym. Qed.

Lemma sort_Strings_Permutation (l : list string) : sort_Strings l ≡ₚ l.
Proof. apply merge_sort_Permutation. Qed.

Lemma sort_Strings_Sorted (l : list string) : StronglySorted string_le (sort_Strings l).
Proof. apply StronglySorted_merge_sort; apply _. Qed.

Lemma sort_Strings_unique (l k : list string) :
  l ≡ₚ k → sort_Strings l = sort_Strings k.
Proof.
  intros Hperm. apply (StronglySorted_unique string_le).
  - apply sort_Strings_Sorted.
  - apply sort_Strings_Sorted.
  - by rewrite !sort_Strings_Permutation.
Qed.

(** ** More of the plugins *)

Lemma extractIgnoredArgs_cons (p : Plugins) (arg : string) (rest : list string) :
  extractIgnoredArgs p (arg :: rest)
  = if bool_decide (arg ∈ IgnoredFlags p) then
      match rest with
      | [] => [arg]
      | value :: rest' => arg :: value :: extractIgnoredArgs p rest'
      end
    else extractIgnoredArgs p rest.
Proof. reflexivity. Qed.

Lemma extractIgnoredArgs_ind (p : Plugins) (P : list string → Prop) :
  P [] →
  (∀ arg rest, arg ∉ IgnoredFlags p → P rest → P (arg :: rest)) →
  (∀ arg, arg ∈ IgnoredFlags p → P [arg]) →
  (∀ arg value rest, arg ∈ IgnoredFlags p → P rest → P (arg :: value :: rest)) →
  ∀ args, P args.
Proof.
  intros Hnil Hskip Hlast Hpair args.
  assert (H : P args ∧ ∀ arg, P (arg :: args)); [|by destruct H].
  induction args as [|value rest [IH1 IH2]].
  - split; [done|]. intros arg.
    destruct (decide (arg ∈ IgnoredFlags p)); [by apply Hlast|by apply Hskip].
  - split; [apply IH2|]. intros arg.
    destruct (decide (arg ∈ IgnoredFlags p)); [by apply Hpair|].
    apply Hskip; [done|]. apply IH2.
Qed.

(** X21: [extractIgnoredArgs] only copies: its result is a sub-list of
    the arguments, in their order; it starts with a recognized flag
    unless it is empty; it is empty when no argument is a recognized
    flag; and extracting from the result gives the result again. *)
Theorem extractIgnoredArgs_copies (p : Plugins) (args : list string) :
  extractIgnoredArgs p args `sublist_of` args
  ∧ (∀ first rest, extractIgnoredArgs p args = first :: rest →
                   first ∈ IgnoredFlags p)
  ∧ (Forall (λ arg, arg ∉ IgnoredFlags p) args → extractIgnoredArgs p args = [])
  ∧ extractIgnoredArgs p (extractIgnoredArgs p args) = extractIgnoredArgs p args.
Proof.
  induction args as [|arg rest Harg IH|arg Harg|arg value rest Harg IH]
    using (extractIgnoredArgs_ind p).
  - split_and!; [done| |done|done]. by intros first rest.
  - destruct IH as (IH1 & IH2 & IH3 & IH4).
    rewrite extractIgnoredArgs_cons, bool_decide_eq_false_2 by done.
    split_and!; [by apply sublist_cons|done| |done].
    intros [_ Hall]%Forall_cons. by apply IH3.
  - rewrite extractIgnoredArgs_cons, bool_decide_eq_true_2 by done.
    split_and!; [done| | |].
    + by intros first rest [= <- _].
    + by intros [? _]%Forall_cons.
    + by rewrite extractIgnoredArgs_cons, bool_decide_eq_true_2.
  - destruct IH as (IH1 & IH2 & IH3 & IH4).
    rewrite extractIgnoredArgs_cons, bool_decide_eq_true_2 by done.
    split_and!.
    + by do 2 apply sublist_skip.
    + by intros first rest' [= <- _].
    + by intros [? _]%Forall_cons.
    + rewrite extractIgnoredArgs_cons, bool_decide_eq_true_2 by done.
      by rewrite IH4.
Qed.

Lemma extractIgnoredArgs_copies_witness :
  extractIgnoredArgs sample_Plugins ["status"; "--format"; "yaml"] = [].
Proof.
  destruct (extractIgnoredArgs_copies sample_Plugins
              ["status"; "--format"; "yaml"]) as (_ & _ & H & _).
  apply H. repeat constructor; by apply (bool_decide_unpack _).
Defined.

(** X22: [FindAll] returns the names in ascending order, and a name is
    among them exactly when a directory of the path that can be read
    holds an entry of that name which starts with the prefix and has one
    of the three execute bits set. *)
Theorem FindAll_sorted_executables (p : Plugins)
    (path : list (option (list DirEntry))) :
  StronglySorted string_le (FindAll p path)
  ∧ ∀ name,
      name ∈ FindAll p path ↔
      ∃ entries entry,
        Some entries ∈ path ∧ entry ∈ entries ∧ entry_Name entry = name
        ∧ HasPrefix name (Prefix p) = true
        ∧ N.land (entry_Mode entry) 73 ≠ 0%N.
Proof.
  split; [apply sort_Strings_Sorted|].
  intros name. unfold FindAll. rewrite sort_Strings_Permutation.
  rewrite list_elem_of_In, in_flat_map. split.
  - intros (dir & Hdir%list_elem_of_In & Hin%list_elem_of_In).
    destruct dir as [entries|]; [|by apply elem_of_nil in Hin].
    apply list_elem_of_fmap in Hin as (entry & -> & Hentry).
    apply list_elem_of_filter in Hentry as [[Hpre Hmode] Hentry].
    by exists entries, entry.
  - intros (entries & entry & Hdir & Hentry & <- & Hpre & Hmode).
    exists (Some entries). split; [by apply list_elem_of_In|].
    apply list_elem_of_In, list_elem_of_fmap. exists entry. split; [done|].
    by apply list_elem_of_filter.
Qed.

Lemma firstLine_app (s : string) :
  ∃ rest, s = firstLine s +:+ rest ∧ (rest = "" ∨ ∃ r, rest = String LF r).
Proof.
  induction s as [|c s (rest & Hs & Hrest)]; simpl.
  - exists "". auto.
  - destruct (decide (c = LF)) as [->|Hne].
    + exists (String LF s). split; [done|]. right. by eexists.
    + exists rest. split; [|done]. change (String c s = String c (firstLine s +:+ rest)). by f_equal.
Qed.

(** X23: [firstLine], the description kept of a probe's output: it
    holds no line feed, the output is this line followed by nothing or
    by a line feed and the rest, and an output without a line feed is
    kept whole. *)
Theorem firstLine_is_first_line (output : string) :
  (LF ∉ chars (firstLine output))
  ∧ (∃ rest, output = firstLine output +:+ rest
             ∧ (rest = "" ∨ ∃ r, rest = String LF r))
  ∧ (LF ∉ chars output → firstLine output = output).
Proof.
  split_and!; [|apply firstLine_app|].
  - induction output as [|c s IH]; simpl; [by intros ?%elem_of_nil|].
    destruct (decide (c = LF)) as [->|Hne]; [by intros ?%elem_of_nil|].
    unfold chars. simpl. fold (chars (firstLine s)).
    apply not_elem_of_cons. split; [congruence|done].
  - induction output as [|c s IH]; simpl; [done|].
    unfold chars. simpl. fold (chars s).
    intros [Hne Hs]%not_elem_of_cons.
    rewrite decide_False by congruence. by rewrite IH.
Qed.

Lemma firstLine_is_first_line_witness :
  firstLine "foo description" = "foo description".
Proof.
  destruct (firstLine_is_first_line "foo description") as (_ & _ & H).
  apply H. by apply (bool_decide_unpack _).
Defined.

(** X24: [RunPlugin] starts at most one process: the executable named
    by the prefix and the sub-command, with all the arguments (the
    ignored flags among them) and the environment of the process
    followed by [Env]; it starts none when the ignored flags do not
    parse.  So two operating systems that agree on that one call, where
    it is reached, give the same result. *)
Theorem RunPlugin_runs_one_process (os_Environ : list string)
    (exec1 exec2 : string → list string → list string → option error)
    (flags_Parse : string → list string → option error)
    (p : Plugins) (subcommand : string) (args : list string) :
  (flags_Parse (Prefix p +:+ subcommand) (extractIgnoredArgs p args) = None →
   exec1 (Prefix p +:+ subcommand) args (os_Environ ++ Env p)
   = exec2 (Prefix p +:+ subcommand) args (os_Environ ++ Env p)) →
  RunPlugin os_Environ exec1 flags_Parse p subcommand args
  = RunPlugin os_Environ exec2 flags_Parse p subcommand args.
Proof.
  intros Hagree. unfold RunPlugin, PluginCommand_Init, PluginCommand_Run. simpl.
  destruct (flags_Parse _ _) as [err|]; [done|].
  by rewrite Hagree.
Qed.

Lemma RunPlugin_runs_one_process_witness :
  RunPlugin ["HOME=/root"] sample_exec_Run strict_flags_Parse sample_Plugins
    "fail" ["-e"; "env"; "arg"]
  = RunPlugin ["HOME=/root"] succeeding_exec_Run strict_flags_Parse
      sample_Plugins "fail" ["-e"; "env"; "arg"].
Proof.
  apply (RunPlugin_runs_one_process ["HOME=/root"] sample_exec_Run
           succeeding_exec_Run strict_flags_Parse sample_Plugins "fail"
           ["-e"; "env"; "arg"]).
  intros Hparse. vm_compute in Hparse. discriminate Hparse.
Defined.

Lemma gathered_lookup_is_Some (p : Plugins) received r :
  r ∈ received → is_Some (gathered p received !! strip p (pd_name r)).
Proof.
  unfold gathered.
  induction received as [|r' received IH] using rev_ind;
    [by intros ?%elem_of_nil|].
  intros Hin. rewrite foldl_app. simpl.
  destruct (decide (strip p (pd_name r') = strip p (pd_name r))) as [Heq|Hne].
  - rewrite Heq, lookup_insert_eq. by eexists.
  - rewrite lookup_insert_ne by done.
    apply elem_of_app in Hin as [Hin|Hin%list_elem_of_singleton]; [|by subst].
    by apply IH.
Qed.

(** X25: for the plugins that [FindAll] found and one probe of each,
    received in any order, [Descriptions] returns a map and no slice
    expression faults; its keys are exactly the names found, without the
    prefix, and the value of a key is what a probe of a plugin of that
    name reported, also when one name was found more than once. *)
Theorem Descriptions_keys (p : Plugins)
    (path : list (option (list DirEntry)))
    (outs : list (string * option error))
    (received : list pluginDescription) :
  let plugins := FindAll p path in
  length outs = length plugins →
  received ≡ₚ sent plugins outs →
  ∃ results,
    Descriptions p plugins received = Returned results
    ∧ (∀ key, is_Some (results !! key) ↔ Prefix p +:+ key ∈ plugins)
    ∧ ∀ key description,
        results !! key = Some description →
        ∃ i out,
          plugins !! i = Some (Prefix p +:+ key) ∧ outs !! i = Some out
          ∧ description = description_of (Prefix p +:+ key) out.
Proof.
  intros plugins Hlen Hperm.
  pose proof (FindAll_HasPrefix p path) as Hall. fold plugins in Hall.
  exists (gathered p received). split_and!.
  - by apply (Descriptions_gathered p plugins outs).
  - intros key. split.
    + intros [description Hkey].
      apply gathered_lookup_Some in Hkey as (r & Hin & Hkey & _).
      rewrite Hperm in Hin.
      apply sent_elem in Hin as (i & plugin & out & Hpl & _ & ->). simpl in Hkey.
      rewrite Forall_forall in Hall.
      destruct (HasPrefix_app plugin (Prefix p)) as [k Hk].
      { apply Hall. by eapply list_elem_of_lookup_2. }
      rewrite Hk, strip_app in Hkey. subst k. rewrite <-Hk.
      by eapply list_elem_of_lookup_2.
    + intros [i Hi]%list_elem_of_lookup.
      assert (Hout : is_Some (outs !! i)).
      { apply lookup_lt_is_Some. rewrite Hlen. by eapply lookup_lt_Some. }
      destruct Hout as [out Hout].
      rewrite <-(strip_app p key).
      apply (gathered_lookup_is_Some p received
               (mkPluginDescription (Prefix p +:+ key)
                  (description_of (Prefix p +:+ key) out))).
      rewrite Hperm. apply sent_elem. by exists i, (Prefix p +:+ key), out.
  - intros key description (r & Hin & Hkey & Hdesc)%gathered_lookup_Some.
    rewrite Hperm in Hin.
    apply sent_elem in Hin as (i & plugin & out & Hpl & Hout & ->).
    simpl in *. rewrite Forall_forall in Hall.
    destruct (HasPrefix_app plugin (Prefix p)) as [k Hk].
    { apply Hall. by eapply list_elem_of_lookup_2. }
    rewrite Hk, strip_app in Hkey. subst k. subst plugin.
    by exists i, out.
Qed.

Lemma Descriptions_keys_witness :
  let plugins := FindAll sample_Plugins sample_path in
  let received := reverse (sent plugins sample_outs) in
  ∃ results,
    Descriptions sample_Plugins plugins received = Returned results
    ∧ (∀ key, is_Some (results !! key) ↔ "juju-" +:+ key ∈ plugins)
    ∧ ∀ key description,
        results !! key = Some description →
        ∃ i out,
          plugins !! i = Some ("juju-" +:+ key) ∧ sample_outs !! i = Some out
          ∧ description = description_of ("juju-" +:+ key) out.
Proof.
  intros plugins received.
  apply (Descriptions_keys sample_Plugins sample_path sample_outs received).
  - vm_compute. reflexivity.
  - apply reverse_Permutation.
Defined.

(** ** The help topic *)

Lemma longest_foldl (acc : nat) (names : list string) :
  foldl (λ longest name,
           if decide (longest < String.length name) then String.length name
           else longest)
        acc names
  = acc `max` max_list_with String.length names.
Proof.
  revert acc. induction names as [|name names IH]; intros acc; simpl; [lia|].
  rewrite IH. destruct (decide (acc < String.length name)); lia.
Qed.

Lemma longest_max (names : list string) :
  longest names = max_list_with String.length names.
Proof. unfold longest. by rewrite longest_foldl. Qed.

Lemma longest_Permutation (names1 names2 : list string) :
  names1 ≡ₚ names2 → longest names1 = longest names2.
Proof. intros Hperm. rewrite !longest_max. by rewrite Hperm. Qed.

Lemma longest_bound (names : list string) (name : string) :
  name ∈ names → String.length name ≤ longest names.
Proof.
  rewrite longest_max. induction names as [|n names IH];
    [by intros ?%elem_of_nil|].
  simpl. intros [->|Hin]%elem_of_cons; [lia|]. specialize (IH Hin). lia.
Qed.

Lemma longest_attained (names : list string) :
  names ≠ [] → ∃ name, name ∈ names ∧ String.length name = longest names.
Proof.
  rewrite longest_max. induction names as [|n names IH]; [done|]. intros _.
  simpl. destruct names as [|n' names].
  - exists n. split; [by left|]. simpl. lia.
  - destruct IH as (name & Hin & Hlen); [done|].
    destruct (decide (max_list_with String.length (n' :: names)
                      ≤ String.length n)).
    + exists n. split; [by left|]. lia.
    + exists name. split; [by right|]. lia.
Qed.

(** X26: the text of [HelpTopic] does not depend on the order in which
    the map hands out its keys: the names are sorted before the lines are
    written, and the width of the name column is the length of the
    longest key, which no key exceeds and one key has.  Without plugins
    the text is the introduction and the line [No plugins found.]. *)
Theorem HelpTopic_order_independent (pad : nat → string → string)
    (p : Plugins) (existingPlugins : gmap string string)
    (keys1 keys2 : list string) :
  keys1 ≡ₚ (map_to_list existingPlugins).*1 →
  keys2 ≡ₚ (map_to_list existingPlugins).*1 →
  HelpTopic pad p existingPlugins keys1 = HelpTopic pad p existingPlugins keys2
  ∧ longest keys1 = longest keys2
  ∧ (∀ name, is_Some (existingPlugins !! name) →
             String.length name ≤ longest keys1)
  ∧ (existingPlugins ≠ ∅ →
     ∃ name, is_Some (existingPlugins !! name)
             ∧ String.length name = longest keys1)
  ∧ (existingPlugins = ∅ →
     HelpTopic pad p existingPlugins keys1
     = pluginTopicText (Title p) (Prefix p) +:+ "No plugins found." +:+ NL).
Proof.
  intros Hkeys1 Hkeys2.
  assert (Hperm : keys1 ≡ₚ keys2) by (by rewrite Hkeys1, Hkeys2).
  assert (Hin : ∀ name, name ∈ keys1 ↔ is_Some (existingPlugins !! name)).
  { intros name. rewrite Hkeys1, list_elem_of_fmap. split.
    - intros ([k v] & -> & Hkv%elem_of_map_to_list). by exists v.
    - intros [v Hv]. exists (name, v). split; [done|].
      by apply elem_of_map_to_list. }
  split_and!.
  - unfold HelpTopic. destruct (decide (size existingPlugins = 0)); [done|].
    by rewrite (longest_Permutation _ _ Hperm), (sort_Strings_unique _ _ Hperm).
  - by apply longest_Permutation.
  - intros name Hname. apply longest_bound. by apply Hin.
  - intros Hne. destruct (longest_attained keys1) as (name & Hname & Hlen).
    + intros ->. apply Hne, map_empty. intros name.
      apply eq_None_not_Some. rewrite <-Hin. by intros ?%elem_of_nil.
    + exists name. split; [by apply Hin|done].
  - intros ->. unfold HelpTopic. by rewrite decide_True by apply map_size_empty.
Qed.

Lemma HelpTopic_order_independent_witness :
  let existingPlugins : gmap string string :=
    {[ "foo" := "foo description"; "bar" := "bar description";
       "status" := "show the status" ]} in
  HelpTopic pad_spaces sample_Plugins existingPlugins ["status"; "foo"; "bar"]
  = HelpTopic pad_spaces sample_Plugins existingPlugins ["bar"; "status"; "foo"]
  ∧ longest ["status"; "foo"; "bar"] = longest ["bar"; "status"; "foo"]
  ∧ (∀ name, is_Some (existingPlugins !! name) →
             String.length name ≤ longest ["status"; "foo"; "bar"])
  ∧ (existingPlugins ≠ ∅ →
     ∃ name, is_Some (existingPlugins !! name)
             ∧ String.length name = longest ["status"; "foo"; "bar"])
  ∧ (existingPlugins = ∅ →
     HelpTopic pad_spaces sample_Plugins existingPlugins ["status"; "foo"; "bar"]
     = pluginTopicText "Juju Plugins" "juju-" +:+ "No plugins found." +:+ NL).
Proof.
  intros existingPlugins.
  apply (HelpTopic_order_independent pad_spaces sample_Plugins existingPlugins
           ["status"; "foo"; "bar"] ["bar"; "status"; "foo"]).
  - apply (bool_decide_unpack _). vm_compute. exact I.
  - apply (bool_decide_unpack _). vm_compute. exact I.
Defined.

(** ** A sub-command that is not found *)

(** X27: [missingCommand.Run] hands back what the call-back returns,
    except an [UnrecognizedCommand], which it replaces by one that names
    the super-command and the sub-command; so an [UnrecognizedCommand] it
    returns always carries that qualified name.  With [RunPlugin] as the
    call-back and ignored flags that parse, a plugin that succeeds gives
    no error, one that exits with a status gives the pass-through error
    of that status, and an executable that is not found gives the
    qualified [UnrecognizedCommand]. *)
Theorem missingCommand_Run_qualifies (os_Environ : list string)
    (exec_Run : string → list string → list string → option error)
    (flags_Parse : string → list string → option error)
    (p : Plugins) (callback : MissingCallback)
    (superName name : string) (args : list string) :
  let qualified := superName +:+ " " +:+ name in
  let ran := exec_Run (Prefix p +:+ name) args (os_Environ ++ Env p) in
  let plugins :=
    mkMissingCommand (RunPlugin os_Environ exec_Run flags_Parse p)
                     superName name args in
  flags_Parse (Prefix p +:+ name) (extractIgnoredArgs p args) = None →
  ((∀ n, callback name args ≠ Some (UnrecognizedCommand n)) →
   missingCommand_Run (mkMissingCommand callback superName name args)
   = callback name args)
  ∧ (∀ n, missingCommand_Run (mkMissingCommand callback superName name args)
          = Some (UnrecognizedCommand n) ↔
          n = qualified ∧ ∃ n', callback name args = Some (UnrecognizedCommand n'))
  ∧ (ran = None → missingCommand_Run plugins = None)
  ∧ (∀ code, ran = Some (ExitError (WExited code)) →
             missingCommand_Run plugins = Some (RcPassthroughError code))
  ∧ (∀ n, ran = Some (ExecError n) →
          missingCommand_Run plugins = Some (UnrecognizedCommand qualified)).
Proof.
  intros qualified ran plugins Hparse.
  unfold missingCommand_Run. cbn [missing_Callback missing_Name missing_Args
                                  missing_SuperName plugins].
  split_and!.
  - intros Hne. destruct (callback name args) as [[]|]; try done.
    by edestruct Hne.
  - intros n. destruct (callback name args) as [[]|]; split;
      try (by intros [= <-]; eauto); try (by intros [_ [n' [=]]]);
      try done.
    by intros [-> _].
  - intros Hran. unfold RunPlugin, PluginCommand_Init, PluginCommand_Run.
    cbn [plugin_name plugin_args plugin_env]. fold ran.
    by rewrite Hparse, Hran.
  - intros code Hran. unfold RunPlugin, PluginCommand_Init, PluginCommand_Run.
    cbn [plugin_name plugin_args plugin_env]. fold ran.
    by rewrite Hparse, Hran.
  - intros n Hran. unfold RunPlugin, PluginCommand_Init, PluginCommand_Run.
    cbn [plugin_name plugin_args plugin_env]. fold ran.
    by rewrite Hparse, Hran.
Qed.

Lemma missingCommand_Run_qualifies_witness :
  let ran := sample_exec_Run "juju-fail" ["-e"; "env"] ["HOME=/root"] in
  let plugins :=
    mkMissingCommand
      (RunPlugin ["HOME=/root"] sample_exec_Run sample_flags_Parse sample_Plugins)
      "juju" "fail" ["-e"; "env"] in
  ((∀ n, sample_callback "fail" ["-e"; "env"] ≠ Some (UnrecognizedCommand n)) →
   missingCommand_Run
     (mkMissingCommand sample_callback "juju" "fail" ["-e"; "env"])
   = sample_callback "fail" ["-e"; "env"])
  ∧ (∀ n, missingCommand_Run
            (mkMissingCommand sample_callback "juju" "fail" ["-e"; "env"])
          = Some (UnrecognizedCommand n) ↔
          n = "juju fail"
          ∧ ∃ n', sample_callback "fail" ["-e"; "env"]
                  = Some (UnrecognizedCommand n'))
  ∧ (ran = None → missingCommand_Run plugins = None)
  ∧ (∀ code, ran = Some (ExitError (WExited code)) →
             missingCommand_Run plugins = Some (RcPassthroughError code))
  ∧ (∀ n, ran = Some (ExecError n) →
          missingCommand_Run plugins = Some (UnrecognizedCommand "juju fail")).
Proof.
  apply (missingCommand_Run_qualifies ["HOME=/root"] sample_exec_Run
           sample_flags_Parse sample_Plugins sample_callback "juju" "fail"
           ["-e"; "env"]).
  reflexivity.
Defined.

Lemma append_empty_r (s : string) : s +:+ "" = s.
Proof.
  induction s as [|c s IH]; [done|].
  change (String c (s +:+ "") = String c s). by rewrite IH.
Qed.

Lemma Init_no_callback (new_missingCommand : positive)
    (parseFlags : SuperCommand → Command → list string
                  → result (error + list string * bool))
    (Command_Init : Command → list string → result (option error))
    (c : SuperCommand) (name : string) (args : list string) :
  super_showDescription c = false →
  super_missingCallback c = None →
  (∀ reg, super_subcmds c = Some reg → (name ∉ Names reg) ∧ wf reg) →
  Init new_missingCommand parseFlags Command_Init c (name :: args)
  = Returned (c, Some (Errorf "unrecognized command: %s %s"
                              [super_Name c; name])).
Proof.
  intros Hdesc Hcb Hmiss. unfold Init. rewrite Hdesc, Hcb.
  destruct (super_subcmds c) as [reg|] eqn:Hreg; [|done].
  destruct (Hmiss reg eq_refl) as [Hnotin Hwf].
  rewrite Names_order in Hnotin.
  apply (found_false_iff _ _ Hwf) in Hnotin. unfold found in Hnotin.
  unfold subcmds_LookUp, mbind, result_bind.
  destruct (LookUp reg [name]) as [a ok]. simpl in Hnotin. by subst ok.
Qed.

(** X28: a sub-command that is not found is reported in the same words
    on both ways.  [Init] with a first argument that the registry does
    not know, when no call-back is set and no description was asked for,
    selects nothing and returns the error that names the super-command
    and the argument, whatever the other arguments are; the
    [UnrecognizedCommand] that [missingCommand.Run] makes of the one of
    its call-back has the same text: [unrecognized command: ], the name
    of the super-command, a space and the name of the sub-command. *)
Theorem unrecognized_command_same_text (new_missingCommand : positive)
    (parseFlags : SuperCommand → Command → list string
                  → result (error + list string * bool))
    (Command_Init : Command → list string → result (option error))
    (c : SuperCommand) (callback : MissingCallback)
    (name reported : string) (args : list string) :
  super_showDescription c = false →
  super_missingCallback c = None →
  (∀ reg, super_subcmds c = Some reg → (name ∉ Names reg) ∧ wf reg) →
  callback name args = Some (UnrecognizedCommand reported) →
  let err1 := Errorf "unrecognized command: %s %s" [super_Name c; name] in
  let err2 := UnrecognizedCommand (super_Name c +:+ " " +:+ name) in
  let text := "unrecognized command: " +:+ super_Name c +:+ " " +:+ name in
  Init new_missingCommand parseFlags Command_Init c (name :: args)
  = Returned (c, Some err1)
  ∧ missingCommand_Run (mkMissingCommand callback (super_Name c) name args)
    = Some err2
  ∧ Error_text err1 = Some text
  ∧ Error_text err2 = Some text.
Proof.
  intros Hdesc Hcb Hmiss Hreported err1 err2 text.
  assert (Htext : ∀ s t : string,
            Sprintf_s "unrecognized command: %s %s" [s; t]
            = Some ("unrecognized command: " +:+ s +:+ " " +:+ t)).
  { intros s t.
    transitivity (Some ("unrecognized command: " +:+ s +:+ " " +:+ (t +:+ "")));
      [reflexivity|by rewrite append_empty_r]. }
  split_and!.
  - by apply Init_no_callback.
  - unfold missingCommand_Run. cbn [missing_Callback missing_Name missing_Args
                                    missing_SuperName]. by rewrite Hreported.
  - apply Htext.
  - unfold err2, text. cbn [Error_text]. unfold UnrecognizedCommand_Error.
    transitivity (Some ("unrecognized command: "
                        +:+ ((super_Name c +:+ " " +:+ name) +:+ "")));
      [reflexivity|by rewrite append_empty_r].
Qed.

Lemma unrecognized_command_same_text_witness :
  Init 20 (λ _ _ args, Returned (inr (args, false))) (λ _ _, Returned None)
       super_juju ["frobnicate"; "--force"]
  = Returned (super_juju,
              Some (Errorf "unrecognized command: %s %s" ["juju"; "frobnicate"]))
  ∧ missingCommand_Run
      (mkMissingCommand sample_callback "juju" "frobnicate" ["--force"])
    = Some (UnrecognizedCommand "juju frobnicate")
  ∧ Error_text (Errorf "unrecognized command: %s %s" ["juju"; "frobnicate"])
    = Some "unrecognized command: juju frobnicate"
  ∧ Error_text (UnrecognizedCommand "juju frobnicate")
    = Some "unrecognized command: juju frobnicate".
Proof.
  apply (unrecognized_command_same_text 20 _ _ super_juju sample_callback
           "frobnicate" "frobnicate" ["--force"]).
  - reflexivity.
  - reflexivity.
  - intros reg [= <-]. split; [|apply registry_juju_wf].
    vm_compute. intros Hin.
    repeat (apply elem_of_cons in Hin as [Hin|Hin]; [discriminate Hin|]).
    by apply elem_of_nil in Hin.
  - reflexivity.
Defined.

(** ** Help topics in a map *)

Lemma delete_all_lookup {A} (m : gmap string A) (added : list string) (n : string) :
  foldl (λ m name, delete name m) m added !! n
  = if decide (n ∈ added) then None else m !! n.
Proof.
  revert m. induction added as [|a added IH]; intros m.
  - by destruct (decide (n ∈ [])) as [?%elem_of_nil|].
  - cbn [foldl]. rewrite IH.
    destruct (decide (n ∈ added)) as [Hin|Hnotin].
    + by rewrite decide_True by (by right).
    + destruct (decide (n = a)) as [->|Hne].
      * rewrite lookup_delete_eq. by rewrite decide_True by (by left).
      * rewrite lookup_delete_ne by done. rewrite decide_False; [done|].
        by intros [?|?]%elem_of_cons.
Qed.

Lemma topics_map_delete_all (m : gmap string topics_map.topic)
    (added : list string) :
  foldl (λ t name, topics_map.delete_key t name) (Some m) added
  = Some (foldl (λ m name, delete name m) m added).
Proof. revert m. induction added as [|a added IH]; intros m; simpl; [done|]. apply IH. Qed.

Lemma topics_map_loop_spec (m0 : gmap string topics_map.topic)
    (tp : topics_map.topic) (aliases added : list string)
    (m : gmap string topics_map.topic) :
  (∀ n, m0 !! n = if decide (n ∈ added) then None else m !! n) →
  ∃ m' err,
    topics_map.addWithAliases_loop (Some m) tp added aliases
    = Returned (Some m', err)
    ∧ match err with
      | None =>
          NoDup aliases ∧ (∀ a, a ∈ aliases → m !! a = None)
          ∧ (∀ a, a ∈ aliases → m' !! a = Some (topics_map.newAlias tp a))
          ∧ (∀ n, n ∉ aliases → m' !! n = m !! n)
      | Some e =>
          m' = m0
          ∧ ¬ (NoDup aliases ∧ ∀ a, a ∈ aliases → m !! a = None)
          ∧ ∃ a, a ∈ aliases
                 ∧ e = Errorf "help topic already added: %s" [a]
      end.
Proof.
  revert added m. induction aliases as [|alias aliases IH]; intros added m Hinv.
  - exists m, None. split; [done|]. split_and!.
    + constructor.
    + by intros a ?%elem_of_nil.
    + by intros a ?%elem_of_nil.
    + done.
  - cbn [topics_map.addWithAliases_loop]. unfold topics_map.add.
    cbn [topics_map.index topics_map.newAlias topics_map.topic_name mbind
         option_bind].
    destruct (m !! alias) as [old|] eqn:Halias.
    + cbn [mbind result_bind]. rewrite topics_map_delete_all.
      exists m0, (Some (Errorf "help topic already added: %s" [alias])).
      split.
      * do 2 f_equal. f_equal. apply map_eq. intros n.
        by rewrite delete_all_lookup, Hinv.
      * split_and!; [done| |].
        -- intros [_ Hfree]. specialize (Hfree alias). rewrite Halias in Hfree.
           discriminate Hfree. by left.
        -- exists alias. split; [by left|done].
    + cbn [topics_map.assign mbind result_bind].
      destruct (IH (added ++ [alias])
                   (<[alias := topics_map.newAlias tp alias]> m))
        as (m' & err & Hloop & Hspec).
      { intros n. rewrite Hinv. destruct (decide (n = alias)) as [->|Hne].
        - rewrite (decide_True (P := alias ∈ added ++ [alias])); [|set_solver].
          by destruct (decide _).
        - rewrite lookup_insert_ne by done.
          destruct (decide (n ∈ added)) as [Hin|Hnotin].
          + by rewrite decide_True by (apply elem_of_app; by left).
          + rewrite decide_False; [done|].
            intros [?|?%list_elem_of_singleton]%elem_of_app; done. }
      exists m', err. split; [exact Hloop|].
      destruct err as [e|].
      * destruct Hspec as (-> & Hnot & a & Ha & ->). split_and!; [done| |].
        -- intros [Hnd Hfree]. apply Hnot.
           apply NoDup_cons in Hnd as [Hnotin Hnd]. split; [done|].
           intros a' Ha'. rewrite lookup_insert_ne by (by intros <-).
           apply Hfree. by right.
        -- exists a. split; [by right|done].
      * destruct Hspec as (Hnd & Hfree & Hnew & Hold).
        assert (Hnotin : alias ∉ aliases).
        { intros Hin. specialize (Hfree alias Hin).
          by rewrite lookup_insert_eq in Hfree. }
        split_and!.
        -- by constructor.
        -- intros a [->|Ha]%elem_of_cons; [done|].
           specialize (Hfree a Ha).
           rewrite lookup_insert_ne in Hfree by (by intros <-). done.
        -- intros a [->|Ha]%elem_of_cons; [|by apply Hnew].
           by rewrite Hold, lookup_insert_eq.
        -- intros n [Hne Hn]%not_elem_of_cons.
           by rewrite Hold, lookup_insert_ne.
Qed.

(** X29: [topics.addWithAliases] on a map that is not [nil] is all or
    nothing, for every topic.  It succeeds exactly when the name and the
    aliases of the topic are distinct and none is a key of the map; the
    map then holds the topic under its name and an alias entry (the
    name of the alias, marked as alias, no aliases of its own, the same
    texts) under each alias, and is unchanged elsewhere.  Otherwise it
    returns the error of the name that was already there and the map is
    as it was before the call. *)
Theorem topics_addWithAliases_all_or_nothing
    (m : gmap string topics_map.topic) (tp : topics_map.topic) :
  let names := topics_map.topic_name tp :: topics_map.topic_aliases tp in
  ∃ m' err,
    topics_map.addWithAliases (Some m) tp = Returned (Some m', err)
    ∧ (err = None ↔ NoDup names ∧ ∀ n, n ∈ names → m !! n = None)
    ∧ match err with
      | None =>
          m' !! topics_map.topic_name tp = Some tp
          ∧ (∀ a, a ∈ topics_map.topic_aliases tp →
                  m' !! a = Some (topics_map.newAlias tp a))
          ∧ (∀ n, n ∉ names → m' !! n = m !! n)
      | Some e =>
          m' = m
          ∧ ∃ n, n ∈ names ∧ e = Errorf "help topic already added: %s" [n]
      end.
Proof.
  intros names. unfold topics_map.addWithAliases, topics_map.add.
  cbn [topics_map.index mbind option_bind].
  destruct (m !! topics_map.topic_name tp) as [old|] eqn:Hname.
  - cbn [mbind result_bind].
    exists m, (Some (Errorf "help topic already added: %s"
                            [topics_map.topic_name tp])).
    split; [done|]. split.
    + split; [done|]. intros [_ Hfree].
      specialize (Hfree (topics_map.topic_name tp)).
      rewrite Hname in Hfree. discriminate Hfree. by left.
    + split; [done|]. exists (topics_map.topic_name tp). split; [by left|done].
  - cbn [topics_map.assign mbind result_bind].
    destruct (topics_map_loop_spec m tp (topics_map.topic_aliases tp)
                [topics_map.topic_name tp]
                (<[topics_map.topic_name tp := tp]> m))
      as (m' & err & Hloop & Hspec).
    { intros n. destruct (decide (n = topics_map.topic_name tp)) as [->|Hne].
      - by rewrite decide_True by (by left).
      - rewrite decide_False by (by intros ?%list_elem_of_singleton).
        by rewrite lookup_insert_ne. }
    exists m', err. split; [exact Hloop|].
    destruct err as [e|].
    + destruct Hspec as (-> & Hnot & a & Ha & ->). split_and!.
      * split; [done|]. intros [[Hnotin Hnd]%NoDup_cons Hfree].
        exfalso. apply Hnot. split; [done|]. intros a' Ha'.
        rewrite lookup_insert_ne by (by intros <-). apply Hfree. by right.
      * done.
      * exists a. split; [by right|done].
    + destruct Hspec as (Hnd & Hfree & Hnew & Hold).
      assert (Hnotin : topics_map.topic_name tp ∉ topics_map.topic_aliases tp).
      { intros Hin. specialize (Hfree _ Hin).
        by rewrite lookup_insert_eq in Hfree. }
      split_and!.
      * split; [intros _|done]. split; [by constructor|].
        intros n [->|Hn]%elem_of_cons; [done|].
        specialize (Hfree n Hn).
        rewrite lookup_insert_ne in Hfree by (by intros <-). done.
      * by rewrite Hold, lookup_insert_eq.
      * done.
      * intros n [Hne Hn]%not_elem_of_cons.
        by rewrite Hold, lookup_insert_ne.
Qed.

(** ** Help topics in insertion order *)

Lemma topics_ordered_lookUp_topic (fuel : nat) (t : topics_ordered.topics)
    (name : string) (tp : topics_ordered.topic) :
  topics_ordered.t_topics t !! name = Some tp →
  topics_ordered.lookUp (S fuel) t name = Some (tp, true).
Proof. intros H. cbn [topics_ordered.lookUp]. by rewrite H. Qed.

Lemma topics_ordered_lookUp_unknown (fuel : nat) (t : topics_ordered.topics)
    (name : string) :
  topics_ordered.t_topics t !! name = None →
  topics_ordered.t_aliases t !! name = None →
  topics_ordered.lookUp (S fuel) t name = Some (topics_ordered.zeroTopic, false).
Proof. intros H1 H2. cbn [topics_ordered.lookUp]. by rewrite H1, H2. Qed.

Lemma topics_ordered_aliased_snoc t name accepted alias :
  topics_ordered_aliased t name (accepted ++ [alias])
  = topics_ordered.mkTopics
      (topics_ordered.t_order (topics_ordered_aliased t name accepted) ++ [alias])
      (topics_ordered.t_topics (topics_ordered_aliased t name accepted))
      (<[alias := name]>
         (topics_ordered.t_aliases (topics_ordered_aliased t name accepted))).
Proof.
  unfold topics_ordered_aliased. cbn. by rewrite foldl_app, app_assoc.
Qed.

Lemma topics_ordered_aliased_lookup t name accepted a :
  a ∉ accepted →
  topics_ordered.t_aliases (topics_ordered_aliased t name accepted) !! a
  = topics_ordered.t_aliases t !! a.
Proof.
  unfold topics_ordered_aliased. cbn.
  induction accepted as [|b accepted IH] using rev_ind; [done|].
  intros [Hacc [Hb _]%not_elem_of_cons]%not_elem_of_app.
  rewrite foldl_app. cbn. rewrite lookup_insert_ne by congruence.
  by apply IH.
Qed.

Lemma topics_ordered_loop (fuel : nat) (tp : topics_ordered.topic)
    (aliases : list string) :
  ∀ (t : topics_ordered.topics) (added accepted : list string),
  is_Some (topics_ordered.t_topics t !! topics_ordered.topic_name tp) →
  topics_ordered.addWithAliases_loop (S fuel)
    (topics_ordered_aliased t (topics_ordered.topic_name tp) accepted)
    tp added aliases
  = match
      list_find (λ a, topics_ordered.t_topics t !! a = None) aliases
    with
    | None =>
        Some (topics_ordered_aliased t (topics_ordered.topic_name tp)
                (accepted ++ aliases), None)
    | Some (i, alias) =>
        if decide (alias ∈ accepted ++ take i aliases
                   ∨ is_Some (topics_ordered.t_aliases t !! alias))
        then
          topics_ordered.addWithAliases_loop (S fuel)
            (topics_ordered_aliased t (topics_ordered.topic_name tp)
               (accepted ++ take i aliases))
            tp (added ++ take i aliases) (drop i aliases)
        else
          Some (foldl (λ t name, fst (topics_ordered.remove t name))
                  (fst (topics_ordered.remove
                          (topics_ordered_aliased t
                             (topics_ordered.topic_name tp)
                             (accepted ++ take i aliases))
                          (topics_ordered.topic_name tp)))
                  (added ++ take i aliases),
                Some (Errorf "topic %q already added" [alias]))
    end.
Proof.
  induction aliases as [|alias aliases IH]; intros t added accepted Hname.
  - cbn. by rewrite app_nil_r.
  - cbn [list_find]. destruct (decide (topics_ordered.t_topics t !! alias = None))
      as [Hnone|Hsome].
    + cbn [take drop]. rewrite !app_nil_r.
      destruct (decide _) as [Hdec|Hdec]; [done|].
      cbn [topics_ordered.addWithAliases_loop]. unfold topics_ordered.addAlias.
      cbn [topics_ordered_aliased topics_ordered.t_topics].
      destruct Hname as [x Hx]. rewrite Hx.
      rewrite topics_ordered_lookUp_unknown; cycle 1.
      { done. }
      { change (topics_ordered.t_aliases
                  (topics_ordered_aliased t (topics_ordered.topic_name tp) accepted)
                !! alias = None).
        rewrite topics_ordered_aliased_lookup by tauto.
        apply eq_None_not_Some. tauto. }
      done.
    + apply not_eq_None_Some in Hsome as [x Hx].
      cbn [topics_ordered.addWithAliases_loop]. unfold topics_ordered.addAlias.
      cbn [topics_ordered_aliased topics_ordered.t_topics].
      destruct Hname as [y Hy]. rewrite Hy.
      rewrite (topics_ordered_lookUp_topic _ _ _ x) by done.
      cbn [mbind option_bind negb].
      fold (topics_ordered_aliased t (topics_ordered.topic_name tp) accepted).
      change (topics_ordered.mkTopics _ _ _)
        with (topics_ordered.mkTopics
                (topics_ordered.t_order
                   (topics_ordered_aliased t (topics_ordered.topic_name tp)
                      accepted) ++ [alias])
                (topics_ordered.t_topics
                   (topics_ordered_aliased t (topics_ordered.topic_name tp)
                      accepted))
                (<[alias := topics_ordered.topic_name tp]>
                   (topics_ordered.t_aliases
                      (topics_ordered_aliased t (topics_ordered.topic_name tp)
                         accepted)))).
      rewrite <-topics_ordered_aliased_snoc.
      rewrite IH by eauto.
      destruct (list_find _ aliases) as [[i a]|]; cbn [fmap option_fmap option_map
        prod_map fst snd take drop].
      * rewrite <-!(assoc_L (++)). done.
      * by rewrite <-!(assoc_L (++)).
Qed.

Lemma topics_ordered_remove_None (t : topics_ordered.topics) (n a : string) :
  a = n ∨ topics_ordered.t_topics t !! a = None →
  topics_ordered.t_topics (fst (topics_ordered.remove t n)) !! a = None.
Proof.
  intros Ha. unfold topics_ordered.remove.
  destruct (topics_ordered.t_topics t !! n) as [tp|] eqn:Hn.
  - cbn. destruct Ha as [->|Ha]; [by rewrite lookup_delete_eq|].
    destruct (decide (a = n)) as [->|Hne]; [by rewrite lookup_delete_eq|].
    by rewrite lookup_delete_ne.
  - destruct (topics_ordered.t_aliases t !! n); cbn;
      (destruct Ha as [->|Ha]; done).
Qed.

Lemma topics_ordered_remove_all_None (t : topics_ordered.topics)
    (removed : list string) (a : string) :
  a ∈ removed ∨ topics_ordered.t_topics t !! a = None →
  topics_ordered.t_topics
    (foldl (λ t name, fst (topics_ordered.remove t name)) t removed) !! a
  = None.
Proof.
  revert t. induction removed as [|n removed IH]; intros t Ha.
  - destruct Ha as [?%elem_of_nil|Ha]; done.
  - cbn [foldl]. apply IH.
    destruct Ha as [[->|Ha]%elem_of_cons|Ha].
    + right. apply topics_ordered_remove_None. by left.
    + by left.
    + right. apply topics_ordered_remove_None. by right.
Qed.

(** X30: in the ordered store of help topics [addAlias] takes an alias
    only when the lookup finds it, that is when it is a name already.
    For a topic whose name is new, [addWithAliases] succeeds when every
    alias is the name of the topic itself or of a topic in the store, and
    lists each of them once more; at the first alias that is new it
    fails, and the roll-back then removes not the alias entries it made
    but the topics of those names: none of the names it had accepted is
    a topic afterwards.  When the first alias is new the store is as it
    was before the call. *)
Theorem topics_addAlias_takes_names_only (fuel : nat)
    (t : topics_ordered.topics) (name short : string)
    (long : option (unit → string)) (aliases : list string) :
  topics_ordered.t_topics t !! name = None →
  topics_ordered.t_aliases t !! name = None →
  let tp := topics_ordered.newTopic name short long aliases in
  let existing a := a = name ∨ is_Some (topics_ordered.t_topics t !! a) in
  (Forall existing aliases →
   topics_ordered.addWithAliases (S fuel) t tp
   = Some (topics_ordered.mkTopics
             (topics_ordered.t_order t ++ name :: aliases)
             (<[name := tp]> (topics_ordered.t_topics t))
             (foldl (λ m a, <[a := name]> m) (topics_ordered.t_aliases t)
                    aliases),
           None))
  ∧ (∀ before alias after,
       aliases = before ++ alias :: after →
       Forall existing before → ¬ existing alias →
       topics_ordered.t_aliases t !! alias = None →
       ∃ t',
         topics_ordered.addWithAliases (S fuel) t tp
         = Some (t', Some (Errorf "topic %q already added" [alias]))
         ∧ topics_ordered.t_topics t' !! name = None
         ∧ (∀ a, a ∈ before → topics_ordered.t_topics t' !! a = None)
         ∧ (before = [] → name ∉ topics_ordered.t_order t → t' = t)).
Proof.
  intros Hname Halias tp existing.
  set (t1 := topics_ordered.mkTopics
               (topics_ordered.t_order t ++ [name])
               (<[name := tp]> (topics_ordered.t_topics t))
               (topics_ordered.t_aliases t)).
  assert (Hadd : topics_ordered.addWithAliases (S fuel) t tp
                 = topics_ordered.addWithAliases_loop (S fuel)
                     (topics_ordered_aliased t1 name []) tp [] aliases).
  { unfold topics_ordered.addWithAliases, topics_ordered.add.
    change (topics_ordered.topic_name tp) with name.
    rewrite topics_ordered_lookUp_unknown by done.
    cbn [mbind option_bind]. unfold topics_ordered_aliased. cbn [foldl].
    by rewrite app_nil_r. }
  assert (Ht1 : is_Some (topics_ordered.t_topics t1 !! name)).
  { cbn. rewrite lookup_insert_eq. by eexists. }
  assert (Hexisting : ∀ a, existing a ↔ topics_ordered.t_topics t1 !! a ≠ None).
  { intros a. cbn. unfold existing. destruct (decide (a = name)) as [->|Hne].
    - rewrite lookup_insert_eq. split; [done|]. by left.
    - rewrite lookup_insert_ne by done. rewrite <-not_eq_None_Some.
      split; [by intros [?|?]|by right]. }
  pose proof (topics_ordered_loop fuel tp aliases t1 [] [] Ht1) as Hloop.
  change (topics_ordered.topic_name tp) with name in Hloop.
  rewrite Hadd, Hloop. clear Hadd Hloop. split.
  - intros Hall.
    assert (Hfind : list_find (λ a, topics_ordered.t_topics t1 !! a = None)
                              aliases = None).
    { apply list_find_None. eapply Forall_impl; [exact Hall|].
      intros a Ha. by apply Hexisting. }
    rewrite Hfind. unfold topics_ordered_aliased. cbn.
    by rewrite <-(assoc_L (++)).
  - intros before alias after -> Hbefore Hnew Hnone.
    assert (Hfind : list_find (λ a, topics_ordered.t_topics t1 !! a = None)
                              (before ++ alias :: after)
                    = Some (length before, alias)).
    { apply list_find_Some. split_and!.
      - by rewrite list_lookup_middle.
      - destruct (topics_ordered.t_topics t1 !! alias) eqn:Hl; [|done].
        exfalso. apply Hnew, Hexisting. by rewrite Hl.
      - intros j y Hj Hlt. rewrite lookup_app_l in Hj by done.
        apply Hexisting. rewrite Forall_forall in Hbefore. apply Hbefore.
        by eapply list_elem_of_lookup_2. }
    rewrite Hfind. rewrite take_app_length, !app_nil_l.
    assert (Hnotin : alias ∉ before).
    { intros Hin. apply Hnew. rewrite Forall_forall in Hbefore. by apply Hbefore. }
    rewrite decide_False; cycle 1.
    { intros [Hin|Hsome]; [done|]. cbn in Hsome. rewrite Hnone in Hsome.
      by destruct Hsome. }
    eexists. split; [reflexivity|]. split_and!.
    + apply topics_ordered_remove_all_None. right.
      apply topics_ordered_remove_None. by left.
    + intros a Ha. apply topics_ordered_remove_all_None. by left.
    + intros -> Horder. cbn [foldl]. unfold topics_ordered.remove.
      cbn [topics_ordered_aliased topics_ordered.t_topics t1 foldl
           topics_ordered.t_order topics_ordered.t_aliases].
      rewrite lookup_insert_eq. cbn [fst].
      rewrite app_nil_r, removeString_fresh by done.
      rewrite delete_insert_eq, delete_id by done.
      rewrite app_nil_r. by destruct t.
Qed.

Lemma topics_addAlias_takes_names_only_witness :
  let t := topics_ordered.mkTopics ["status"]
             {[ "status" := topics_ordered.newTopic "status" "the status" None [] ]}
             ∅ in
  let tp := topics_ordered.newTopic "deploy" "deploying" None ["status"; "dep"] in
  ∃ t',
    topics_ordered.addWithAliases 1 t tp
    = Some (t', Some (Errorf "topic %q already added" ["dep"]))
    ∧ topics_ordered.t_topics t' !! "deploy" = None
    ∧ (∀ a, a ∈ ["status"] → topics_ordered.t_topics t' !! a = None)
    ∧ (["status"] = [] → "deploy" ∉ topics_ordered.t_order t → t' = t).
Proof.
  intros t tp.
  destruct (topics_addAlias_takes_names_only 0 t "deploy" "deploying" None
              ["status"; "dep"] eq_refl eq_refl) as [_ H].
  apply (H ["status"] "dep" []).
  - reflexivity.
  - apply Forall_cons. split; [|done]. right. by eexists.
  - intros [Heq|[x Hx]]; [discriminate Heq|]. vm_compute in Hx. discriminate Hx.
  - reflexivity.
Defined.
